(** * update-dorks.py: the GHDB collector, its fetcher and its exporter

  A shallow embedding of [src/update-dorks.py].  The script has one public
  function, [retrieve_google_dorks], with a nested closure [fetch_page], and
  two helpers, [_safe_filename] and [_ordered_dedupe].

  Modelling conventions.
  - A Python [str] is a Rocq [string]; a character is a code point below 256
    (the Latin-1 range), on which [str.strip], [str.lower] and the regular
    expression class are written out exactly.
  - A Python [int] is a [Z].
  - A [dict] whose iteration order is observed is an association list in
    insertion order.
  - The network and the clock are effects: every [session.get], every
    [time.sleep] and the page announcement of the main loop are appended to
    a trace, and the answers of the remote end come from an oracle indexed
    by the number of requests sent so far.
  - Exceptions are values of a result type. *)

From Stdlib Require Import ZArith List String Ascii Bool Arith Lia.
From Stdlib Require Import Sorting.Sorted Sorting.Permutation DecimalString.
Import ListNotations.

(* ------------------------------------------------------------------ *)
(** ** Python strings *)

Module PyStr.

Definition code (c : ascii) : nat := nat_of_ascii c.

Definition in_range (lo hi : nat) (c : ascii) : bool :=
  (lo <=? code c) && (code c <=? hi).

(** [str.isspace] on one code point below 256: TAB..CR, FS..US, SPACE,
    NEL (0x85) and NBSP (0xA0). *)
Definition isspace (c : ascii) : bool :=
  in_range 9 13 c || in_range 28 32 c
  || (code c =? 133) || (code c =? 160).

Fixpoint lstrip (l : list ascii) : list ascii :=
  match l with
  | [] => []
  | c :: t => if isspace c then lstrip t else l
  end.

Definition rstrip (l : list ascii) : list ascii := rev (lstrip (rev l)).

(** [s.strip()] *)
Definition strip (s : string) : string :=
  string_of_list_ascii (rstrip (lstrip (list_ascii_of_string s))).

(** [s.replace(old, new)] for one-character [old] and [new]. *)
Definition replace1 (old new : ascii) (l : list ascii) : list ascii :=
  map (fun c => if Ascii.eqb c old then new else c) l.

(** [s.replace(old, empty)] for a one-character [old]: every occurrence
    is deleted. *)
Definition remove1 (old : ascii) (l : list ascii) : list ascii :=
  filter (fun c => negb (Ascii.eqb c old)) l.

(** [str.lower] on one code point below 256: A..Z and the accented
    capitals 0xC0..0xDE (the multiplication sign 0xD7 apart) move up
    by 32; everything else is unchanged. *)
Definition lower1 (c : ascii) : ascii :=
  if in_range 65 90 c then ascii_of_nat (code c + 32)
  else if in_range 192 222 c && negb (code c =? 215)
       then ascii_of_nat (code c + 32)
       else c.

Definition lower (l : list ascii) : list ascii := map lower1 l.

Definition is_empty (s : string) : bool :=
  match s with EmptyString => true | _ => false end.

End PyStr.

(* ------------------------------------------------------------------ *)
(** ** [_safe_filename] *)

Module Slug.
Import PyStr.

(** [os.sep] is the one thing the helper takes from the platform. *)
Inductive Platform := Posix | Windows.

Definition os_sep (p : Platform) : ascii :=
  match p with Posix => "/"%char | Windows => "\"%char end.

(** The class [[a-z0-9._-]] of the regular expression. *)
Definition allowed (c : ascii) : bool :=
  in_range 97 122 c || in_range 48 57 c
  || Ascii.eqb c "."%char || Ascii.eqb c "_"%char || Ascii.eqb c "-"%char.

(** [re.sub(r"[^a-z0-9._-]+", "_", name)]: scanning from the left, every
    maximal run of characters outside the class is replaced by one
    underscore.  [in_run] tells that the previous character was outside the
    class, so that the underscore of the run has been emitted already. *)
Fixpoint re_sub_from (in_run : bool) (l : list ascii) : list ascii :=
  match l with
  | [] => []
  | c :: t =>
      if allowed c then c :: re_sub_from false t
      else if in_run then re_sub_from true t
           else "_"%char :: re_sub_from true t
  end.

Definition re_sub (l : list ascii) : list ascii := re_sub_from false l.

Definition max_len : nat := 120.
Definition fallback : string := "category".

(** The body of [_safe_filename], line by line.  [None] is Python's [None]
    (or any other falsy name), which the first line turns into the empty
    string. *)
Definition _safe_filename (p : Platform) (name : option string) : string :=
  let name := match name with Some s => s | None => EmptyString end in
  let name := list_ascii_of_string (strip name) in
  let name := replace1 "/"%char "_"%char (replace1 (os_sep p) "_"%char name) in
  let name := replace1 " "%char "_"%char (lower name) in
  let name := re_sub name in
  let cut := string_of_list_ascii (firstn max_len name) in
  if is_empty cut then fallback else cut.

(** The file name of a category, as the export loop builds it. *)
Definition category_filename (p : Platform) (cname : string) : string :=
  (_safe_filename p (Some cname) ++ ".dorks")%string.

(** The words of the specification, for the characters it names: a letter,
    a digit, a dot, an underscore, a hyphen or a blank is a plain character;
    its slug is the lower-case letter, or an underscore for the blank. *)
Definition plain_char (c : ascii) : bool :=
  allowed (lower1 c) || Ascii.eqb c " "%char.

Definition slug_char (c : ascii) : ascii :=
  if Ascii.eqb c " "%char then "_"%char else lower1 c.

(** The words of the specification, for every character of the stripped
    name: a blank or a path separator becomes an underscore of its own; any
    other character is lower-cased, and kept when that puts it in the class
    a-z 0-9 . _ - ([Some]); the remaining characters are outside the class
    ([None]). *)
Definition slug_class (p : Platform) (c : ascii) : option ascii :=
  if Ascii.eqb c (os_sep p) || Ascii.eqb c "/"%char || Ascii.eqb c " "%char
  then Some "_"%char
  else if allowed (lower1 c) then Some (lower1 c) else None.

(** One pass over the stripped name in those words: a character with a slug
    gives that slug, and every maximal run of characters outside the class
    collapses to one underscore.  [in_run] tells that the previous character
    was outside the class. *)
Fixpoint slug_scan (p : Platform) (in_run : bool) (l : list ascii) : list ascii :=
  match l with
  | [] => []
  | c :: t =>
      match slug_class p c with
      | Some c' => c' :: slug_scan p false t
      | None =>
          if in_run then slug_scan p true t
          else "_"%char :: slug_scan p true t
      end
  end.

(** The slug in the words of the specification: strip, scan, cut at 120
    characters, and fall back to the default name when nothing is left. *)
Definition spec_slug (p : Platform) (name : string) : string :=
  let cut :=
    string_of_list_ascii
      (firstn max_len (slug_scan p false (list_ascii_of_string (strip name)))) in
  if is_empty cut then fallback else cut.

End Slug.

(* ------------------------------------------------------------------ *)
(** ** [_ordered_dedupe] *)

Module Dedupe.

(** An [OrderedDict] with string keys: the items in insertion order.
    Assigning to a key that is present keeps its place; a new key goes to
    the end. *)
Definition odict (V : Type) := list (string * V).

Fixpoint od_set {V} (k : string) (v : V) (d : odict V) : odict V :=
  match d with
  | [] => [(k, v)]
  | (k', v') :: t =>
      if String.eqb k k' then (k', v) :: t else (k', v') :: od_set k v t
  end.

Definition od_keys {V} (d : odict V) : list string := map fst d.

(** [OrderedDict.fromkeys(items)]: every item becomes a key, with value
    [None], in one pass from the left. *)
Definition fromkeys (items : list string) : odict unit :=
  fold_left (fun d k => od_set k tt d) items [].

(** [list(OrderedDict.fromkeys(items))] *)
Definition _ordered_dedupe (items : list string) : list string :=
  od_keys (fromkeys items).

(** The position of the first occurrence of [x] in [l] ([length l] when
    there is none). *)
Fixpoint first_index (x : string) (l : list string) : nat :=
  match l with
  | [] => 0
  | y :: t => if String.eqb x y then 0 else S (first_index x t)
  end.

(** The words of the specification: keep the first occurrence of each string,
    drop the later repeats. *)
Fixpoint keep_first (l : list string) : list string :=
  match l with
  | [] => []
  | x :: t => x :: filter (fun y => negb (String.eqb y x)) (keep_first t)
  end.

End Dedupe.

(* ------------------------------------------------------------------ *)
(** ** The remote catalog: rows, pages, and the anchor of a title *)

Module Ghdb.

(** The [cat_id] entry of a category object, seen through [int(...)]:
    absent (the default [-1] is taken), a value that [int] converts to [z],
    or a value on which [int] raises [ValueError] or [TypeError]. *)
Inductive CatId := IdMissing | IdInt (z : Z) | IdInvalid.

(** The nested category object of a row.  [cat_title = None] is an absent
    key or a null. *)
Record CategoryObj := { cat_id : CatId; cat_title : option string }.

(** One raw row of the [data] array.  [None] is an absent key or a falsy
    value; the keys the script never reads are kept as they came. *)
Record Row := {
  url_title : option string;
  category : option CategoryObj;
  other_fields : list (string * string)
}.

(** The parsed body of one page.  The two counters are [None] when absent
    or null. *)
Record PageData := {
  recordsTotal : option Z;
  recordsFiltered : option Z;
  data : list Row
}.

(** What [BeautifulSoup(title_html, "html.parser").find("a")] and the test
    [not a or not a.contents] tell about a title: no anchor, an anchor with
    no child, or an anchor whose first child prints as [s]. *)
Inductive Anchor := NoAnchor | EmptyAnchor | AnchorChild (s : string).

(** The HTML parser is a library; the script only needs this much of it. *)
Class HtmlParser := { find_anchor : string -> Anchor }.

End Ghdb.

(* ------------------------------------------------------------------ *)
(** ** Effects: requests, sleeps, exceptions *)

Module Net.
Import Ghdb.

(** The exceptions a request can end in.  [RequestException] stands for
    every [requests.RequestException] that is not an [SSLError] (connection
    error, timeout, the [HTTPError] of [raise_for_status]); [ValueError] is
    the undecodable body; [OtherException] is any other [Exception];
    [KeyboardInterrupt] is not an [Exception]. *)
Inductive NetExc :=
| SSLError (msg : string)
| RequestException (msg : string)
| ValueError (msg : string)
| OtherException (msg : string)
| KeyboardInterrupt.

(** What leaves [fetch_page]: an exception re-raised or never caught, the
    [RuntimeError] of the exhausted loop, whose message is built from the
    offset and [last_err], or the [ValueError] or [OverflowError] of the
    back-off of an attempt (lines 126-128 are outside the [try]). *)
Inductive Exc :=
| Propagated (e : NetExc)
| RuntimeError (start : Z) (last_err : option NetExc)
| SleepError (attempt : nat).

Inductive Result (A : Type) :=
| Ret (a : A)
| Raise (e : Exc).
Arguments Ret {A} a.
Arguments Raise {A} e.

Record Request := {
  req_start : Z;
  req_length : Z;
  req_timeout : Z;
  req_verify : bool
}.

(** [session.get(...)], [raise_for_status()] and [resp.json()] together. *)
Inductive Outcome := Body (d : PageData) | Fails (e : NetExc).

(** The remote end: the answer to the [n]-th request of the run. *)
Definition Network := nat -> Request -> Outcome.

(** The calls the run makes, most recent first.  [BackoffSleep attempt]
    sleeps [retry_backoff ** (attempt - 1)] seconds; [PoliteSleep] is the
    0.4 s pause; [LogRequesting start] is the announcement at the head of
    the main loop, one per call of [fetch_page]. *)
Inductive Event :=
| LogRequesting (start : Z)
| Get (r : Request)
| BackoffSleep (attempt : nat)
| PoliteSleep.

Record World := { sent : nat; trace : list Event }.

Definition world0 : World := {| sent := 0; trace := [] |}.

Definition emit (e : Event) (w : World) : World :=
  {| sent := sent w; trace := e :: trace w |}.

Definition send (net : Network) (r : Request) (w : World) : Outcome * World :=
  (net (sent w) r, {| sent := S (sent w); trace := Get r :: trace w |}).

Definition is_get (e : Event) : bool :=
  match e with Get _ => true | _ => false end.

Definition is_insecure_get (e : Event) : bool :=
  match e with Get r => negb (req_verify r) | _ => false end.

Definition is_page_request (e : Event) : bool :=
  match e with LogRequesting _ => true | _ => false end.

(** The offsets announced, in the order of the run. *)
Definition pages_requested (w : World) : list Z :=
  flat_map (fun e => match e with LogRequesting s => [s] | _ => [] end)
           (rev (trace w)).

(** An exception after which [fetch_page] backs off and tries again in
    every mode: a network error, an error status, an undecodable body. *)
Definition is_transient (e : NetExc) : bool :=
  match e with
  | RequestException _ | ValueError _ => true
  | _ => false
  end.

Definition failed (o : Outcome) : Prop :=
  match o with Fails _ => True | Body _ => False end.

(** The requests of a piece of trace, in the order they were sent. *)
Definition requests_of (t : list Event) : list Request :=
  flat_map (fun e => match e with Get r => [r] | _ => [] end) (rev t).

(** The answers of the remote end to requests number [n], [n + 1], ... *)
Fixpoint answers (net : Network) (n : nat) (rs : list Request) : list Outcome :=
  match rs with
  | [] => []
  | r :: t => net n r :: answers net (S n) t
  end.

(** The events between two worlds of one run, most recent first. *)
Definition since (w w' : World) : list Event :=
  firstn (List.length (trace w') - List.length (trace w)) (trace w').

(** What the answers to the requests of one call of [fetch_page] say of
    its result: a returned body is the last answer and every answer before
    it was a failure; when the call raises, every answer was a failure. *)
Definition explains (outs : list Outcome) (r : Result PageData) : Prop :=
  match r with
  | Ret d => exists pre, outs = pre ++ [Body d] /\ Forall failed pre
  | Raise _ => Forall failed outs
  end.

End Net.

(* ------------------------------------------------------------------ *)
(** ** [retrieve_google_dorks] *)

Module Scraper.
Import PyStr Ghdb Net.

(** [retry_backoff] is a float.  The model keeps what lines 126-128 make of
    it: for each attempt, whether [retry_backoff ** (attempt - 1)] followed
    by [time.sleep] of that length raises ([true]) or returns ([false]).
    The sleep raises [ValueError] for a negative or NaN length and
    [OverflowError] for a length too large for the clock, and the power
    itself raises [OverflowError] when it overflows. *)
Definition Backoff := nat -> bool.

(** The keyword arguments the model reads.  [outdir], [user_agent] and
    [quiet] only shape paths, headers and printing. *)
Record Config := {
  save_json_response_to_file : bool;
  save_all_dorks_to_file : bool;
  save_individual_categories_to_files : bool;
  timeout : Z;
  insecure : bool;
  page_size : Z;
  max_pages : option Z;
  csv_export : option string;
  retry_attempts : Z;
  retry_backoff : Backoff;
  platform : Slug.Platform
}.

(** The default base 1.5: its powers are positive and finite, and
    [time.sleep] takes them as long as the length fits the clock, which
    counts nanoseconds in 63 bits: 1.5 ** 56 is about 7.3e9 seconds and
    fits, 1.5 ** 57 is about 1.09e10 seconds and does not.  A base of -1.5
    gives a negative length at every odd exponent, that is at every even
    attempt, and the same lengths as 1.5 at the others. *)
Definition backoff_default : Backoff := fun attempt => 57 <? attempt.
Definition backoff_negative : Backoff :=
  fun attempt => Nat.even attempt || (57 <? attempt).

Definition default_config : Config := {|
  save_json_response_to_file := false;
  save_all_dorks_to_file := false;
  save_individual_categories_to_files := false;
  timeout := 15;
  insecure := false;
  page_size := 1000;
  max_pages := None;
  csv_export := None;
  retry_attempts := 3;
  retry_backoff := backoff_default;
  platform := Slug.Posix
|}.

Definition with_max_pages (m : option Z) (cfg : Config) : Config := {|
  save_json_response_to_file := save_json_response_to_file cfg;
  save_all_dorks_to_file := save_all_dorks_to_file cfg;
  save_individual_categories_to_files := save_individual_categories_to_files cfg;
  timeout := timeout cfg;
  insecure := insecure cfg;
  page_size := page_size cfg;
  max_pages := m;
  csv_export := csv_export cfg;
  retry_attempts := retry_attempts cfg;
  retry_backoff := retry_backoff cfg;
  platform := platform cfg
|}.

Definition with_retry_attempts (n : Z) (cfg : Config) : Config := {|
  save_json_response_to_file := save_json_response_to_file cfg;
  save_all_dorks_to_file := save_all_dorks_to_file cfg;
  save_individual_categories_to_files := save_individual_categories_to_files cfg;
  timeout := timeout cfg;
  insecure := insecure cfg;
  page_size := page_size cfg;
  max_pages := max_pages cfg;
  csv_export := csv_export cfg;
  retry_attempts := n;
  retry_backoff := retry_backoff cfg;
  platform := platform cfg
|}.

(** One category of [category_dict]. *)
Record Bucket := { category_name : string; dorks : list Row }.

(** [category_dict]: the items in insertion order, keys distinct. *)
Definition CategoryDict := list (Z * Bucket).

(** The local variables of the main loop. *)
Record Locals := {
  extracted_dorks : list string;
  category_dict : CategoryDict;
  total_dorks : option Z;
  start : Z;
  pages : Z
}.

Definition locals0 : Locals := {|
  extracted_dorks := [];
  category_dict := [];
  total_dorks := None;
  start := 0;
  pages := 0
|}.

(** The dictionary the function returns. *)
Module Catalog.
Record t := {
  total_dorks : Z;
  extracted_dorks : list string;
  category_dict : CategoryDict
}.
End Catalog.

(** The files of a run, in the order they are opened for writing. *)
Inductive FileContent :=
| Lines (ls : list string)
| JsonRows (rows : list Row)
| CsvRows (header : list string) (rows : list (string * Z * string)).

Record FileWrite := { file_name : string; content : FileContent }.

(** *** Dictionary helpers *)

Fixpoint cd_get (cid : Z) (d : CategoryDict) : option Bucket :=
  match d with
  | [] => None
  | (k, b) :: t => if Z.eqb cid k then Some b else cd_get cid t
  end.

Definition cd_mem (cid : Z) (d : CategoryDict) : bool :=
  match cd_get cid d with Some _ => true | None => false end.

(** [category_dict[cid]["dorks"].append(dork)] *)
Fixpoint cd_append (cid : Z) (dork : Row) (d : CategoryDict) : CategoryDict :=
  match d with
  | [] => []
  | (k, b) :: t =>
      if Z.eqb cid k
      then (k, {| category_name := category_name b;
                  dorks := dorks b ++ [dork] |}) :: t
      else (k, b) :: cd_append cid dork t
  end.

(** The rows and the name of the bucket of [cid], when there is one. *)
Definition rows_of (cid : Z) (d : CategoryDict) : list Row :=
  match cd_get cid d with Some b => dorks b | None => [] end.

Definition name_of (cid : Z) (d : CategoryDict) : option string :=
  match cd_get cid d with Some b => Some (category_name b) | None => None end.

(** [sorted(category_dict)]: the keys in increasing order. *)
Fixpoint insert_sorted (k : Z) (l : list Z) : list Z :=
  match l with
  | [] => [k]
  | h :: t => if Z.leb k h then k :: l else h :: insert_sorted k t
  end.

Definition sorted_keys (d : CategoryDict) : list Z :=
  fold_right insert_sorted [] (map fst d).

(** [str(cid)] *)
Definition str_of_int (z : Z) : string := NilEmpty.string_of_int (Z.to_int z).

Fixpoint str_in (s : string) (l : list string) : bool :=
  match l with
  | [] => false
  | x :: t => String.eqb s x || str_in s t
  end.

Fixpoint lookup {V} (s : string) (m : list (string * V)) : option V :=
  match m with
  | [] => None
  | (k, v) :: t => if String.eqb s k then Some v else lookup s t
  end.

(** [s.endswith(suffix)] *)
Definition endswith (suffix s : string) : bool :=
  let n := String.length s in
  let k := String.length suffix in
  (k <=? n) && String.eqb (substring (n - k) k s) suffix.

(** *** The closure [fetch_page] and the main loop *)

Section Run.

Context {parser : HtmlParser}.
Variable cfg : Config.
Variable net : Network.

Definition params (start : Z) (verify : bool) : Request := {|
  req_start := start;
  req_length := page_size cfg;
  req_timeout := timeout cfg;
  req_verify := verify
|}.

(** How the [try] statement inside the [for] loop ends: [fetch_page]
    returns or raises, or [last_err] is set and control falls through to the
    back-off. *)
Inductive Attempt :=
| Done (r : Result PageData) (w : World)
| Failed (last_err : NetExc) (w : World).

(** The [try] statement (lines 105-123). *)
Definition try_request (start : Z) (w : World) : Attempt :=
  let '(o, w1) := send net (params start (negb (insecure cfg))) w in
  match o with
  | Body d => Done (Ret d) w1
  | Fails (SSLError msg) =>
      if negb (insecure cfg) then Done (Raise (Propagated (SSLError msg))) w1
      else
        let '(o2, w2) := send net (params start false) w1 in
        match o2 with
        | Body d => Done (Ret d) w2
        | Fails KeyboardInterrupt => Done (Raise (Propagated KeyboardInterrupt)) w2
        | Fails e2 => Failed e2 w2
        end
  | Fails (RequestException msg) => Failed (RequestException msg) w1
  | Fails (ValueError msg) => Failed (ValueError msg) w1
  | Fails e => Done (Raise (Propagated e)) w1
  end.

(** Lines 126-128 at one attempt.  At attempt 1 the exponent is 0, the
    power is 1.0 whatever the base, and the sleep of one second returns. *)
Definition sleep_raises (attempt : nat) : bool :=
  (1 <? attempt) && retry_backoff cfg attempt.

(** The [for attempt in range(1, retry_attempts + 1)] loop of [fetch_page],
    with [todo] iterations left, the next one numbered [attempt], and the
    [raise RuntimeError] after it.  The back-off is outside the [try]: when
    it raises, the exception leaves [fetch_page]. *)
Fixpoint fetch_attempts (start : Z) (todo attempt : nat)
         (last_err : option NetExc) (w : World) : Result PageData * World :=
  match todo with
  | O => (Raise (RuntimeError start last_err), w)
  | S todo' =>
      match try_request start w with
      | Done r w' => (r, w')
      | Failed e w' =>
          if sleep_raises attempt then (Raise (SleepError attempt), w')
          else
            fetch_attempts start todo' (S attempt) (Some e)
                           (emit (BackoffSleep attempt) w')
      end
  end.

Definition fetch_page (start : Z) (w : World) : Result PageData * World :=
  fetch_attempts start (Z.to_nat (retry_attempts cfg)) 1 None w.

(** The events one call of [fetch_page] at offset [start] may add to the
    trace: a request for that offset, verified unless [insecure] is set, or a
    back-off sleep. *)
Definition fetch_event (start : Z) (e : Event) : Prop :=
  match e with
  | Get r =>
      r = params start (req_verify r)
      /\ (req_verify r = false -> insecure cfg = true)
  | BackoffSleep _ => True
  | LogRequesting _ | PoliteSleep => False
  end.

(** What one pass through the [try] statement does to the world: it adds
    the events [new], the most recent first, all of them events of this
    call, the oldest of them a request. *)
Definition step_facts (start : Z) (w : World) (new : list Event) (w' : World)
  : Prop :=
  trace w' = new ++ trace w
  /\ sent w' = sent w + List.length (requests_of new)
  /\ Forall (fetch_event start) new
  /\ exists rq t, new = Get rq :: t.

(** [int(data.get("recordsTotal") or data.get("recordsFiltered") or 0)] *)
Definition truthy (o : option Z) : option Z :=
  match o with
  | Some z => if Z.eqb z 0 then None else Some z
  | None => None
  end.

Definition reported_total (d : PageData) : Z :=
  match truthy (recordsTotal d) with
  | Some z => z
  | None => match truthy (recordsFiltered d) with
            | Some z => z
            | None => 0
            end
  end.

(** Line 152: the title of the row (the empty string when absent or
    falsy), with every TAB deleted. *)
Definition title_html (dork : Row) : string :=
  let raw := match url_title dork with Some s => s | None => EmptyString end in
  string_of_list_ascii (remove1 (ascii_of_nat 9) (list_ascii_of_string raw)).

(** The category id and name of a row (lines 164-169). *)
Definition category_id (dork : Row) : Z :=
  match category dork with
  | None => -1
  | Some cat =>
      match cat_id cat with
      | IdMissing => -1
      | IdInt z => z
      | IdInvalid => -1
      end
  end.

Definition category_title (dork : Row) : string :=
  let fallback := ("category_" ++ str_of_int (category_id dork))%string in
  match category dork with
  | None => fallback
  | Some cat =>
      match cat_title cat with
      | Some s => if is_empty s then fallback else s
      | None => fallback
      end
  end.

(** [dork["url_title"] = title_html] *)
Definition set_url_title (t : string) (dork : Row) : Row := {|
  url_title := Some t;
  category := category dork;
  other_fields := other_fields dork
|}.

(** The body of [for dork in rows]. *)
Definition process_row (st : Locals) (dork : Row) : Locals :=
  let t := title_html dork in
  match find_anchor t with
  | NoAnchor | EmptyAnchor => st
  | AnchorChild child =>
      let text := strip child in
      let extracted :=
        if is_empty text then extracted_dorks st
        else extracted_dorks st ++ [text] in
      let cid := category_id dork in
      let cname := category_title dork in
      let cd :=
        if cd_mem cid (category_dict st) then category_dict st
        else category_dict st
             ++ [(cid, {| category_name := cname; dorks := [] |})] in
      {| extracted_dorks := extracted;
         category_dict := cd_append cid (set_url_title t dork) cd;
         total_dorks := total_dorks st;
         start := start st;
         pages := pages st |}
  end.

Definition process_rows (st : Locals) (rows : list Row) : Locals :=
  fold_left process_row rows st.

(** What the row loop keeps of a page: the rows whose anchor has a child,
    with the title normalised, and the dorks that are not empty. *)
Definition kept_rows (rows : list Row) : list Row :=
  flat_map
    (fun dork =>
       match find_anchor (title_html dork) with
       | AnchorChild _ => [set_url_title (title_html dork) dork]
       | NoAnchor | EmptyAnchor => []
       end)
    rows.

Definition kept_dorks (rows : list Row) : list string :=
  flat_map
    (fun dork =>
       match find_anchor (title_html dork) with
       | AnchorChild child =>
           if is_empty (strip child) then [] else [strip child]
       | NoAnchor | EmptyAnchor => []
       end)
    rows.

(** The rows of category [cid]. *)
Definition in_category (cid : Z) (r : Row) : bool := Z.eqb (category_id r) cid.

(** The words of the specification for the catalog of a list of stored
    rows: one bucket per category id, the ids in the order in which they
    first appear; the bucket of an id is named after the first row of that
    category and holds the rows of the category, in the order of the list. *)
Fixpoint first_ids (rows : list Row) : list Z :=
  match rows with
  | [] => []
  | r :: t =>
      category_id r
      :: filter (fun k => negb (Z.eqb k (category_id r))) (first_ids t)
  end.

Definition bucket_of (cid : Z) (rows : list Row) : Bucket :=
  let mine := filter (in_category cid) rows in
  {| category_name :=
       match mine with r :: _ => category_title r | [] => EmptyString end;
     dorks := mine |}.

Definition buckets_of (rows : list Row) : CategoryDict :=
  map (fun cid => (cid, bucket_of cid rows)) (first_ids rows).

(** [max_pages and pages >= max_pages] *)
Definition cap_reached (p : Z) : bool :=
  match max_pages cfg with
  | None => false
  | Some m => negb (Z.eqb m 0) && Z.leb m p
  end.

Definition set_total (t : Z) (st : Locals) : Locals := {|
  extracted_dorks := extracted_dorks st;
  category_dict := category_dict st;
  total_dorks := Some t;
  start := start st;
  pages := pages st
|}.

Definition advance (n : Z) (st : Locals) : Locals := {|
  extracted_dorks := extracted_dorks st;
  category_dict := category_dict st;
  total_dorks := total_dorks st;
  start := start st + n;
  pages := pages st + 1
|}.

(** The total the pass works with: [total_dorks] after line 141. *)
Definition total_after (st : Locals) (d : PageData) : Z :=
  match total_dorks st with
  | None => reported_total d
  | Some t => t
  end.

(** A request that skips the verification of certificates is one the
    caller asked for. *)
Definition opted_in (e : Event) : Prop :=
  is_insecure_get e = true -> insecure cfg = true.

(** From the start of a run: the pages announced so far are as many as
    [pages] says, each was asked at an offset below the current one, in
    increasing order, and [pages] is at most the offset; after the first
    page the total is known, above the offset, and the cap was not
    reached. *)
Definition counted (st : Locals) (w : World) : Prop :=
  Z.of_nat (List.length (pages_requested w)) = pages st
  /\ (pages st <= start st)%Z
  /\ Forall (fun s => (s < start st)%Z) (pages_requested w)
  /\ StronglySorted Z.lt (pages_requested w)
  /\ (pages st = 0%Z -> start st = 0%Z /\ pages_requested w = [])
  /\ ((0 < pages st)%Z ->
      exists t, total_dorks st = Some t /\ (start st < t)%Z
                /\ cap_reached (pages st) = false
                /\ exists l, pages_requested w = 0%Z :: l).

(** What one pass through the body of [while True] ends in. *)
Inductive Step :=
| Break (st : Locals) (w : World)
| Continue (st : Locals) (w : World)
| Raised (e : Exc) (w : World).

Definition iteration (st : Locals) (w : World) : Step :=
  let w := emit (LogRequesting (start st)) w in
  match fetch_page (start st) w with
  | (Raise e, w) => Raised e w
  | (Ret d, w) =>
      let total :=
        match total_dorks st with
        | None => reported_total d
        | Some t => t
        end in
      let first := match total_dorks st with None => true | Some _ => false end in
      let st := set_total total st in
      if first && Z.eqb total 0 then Break st w
      else
        match data d with
        | [] => Break st w
        | rows =>
            let st := advance (Z.of_nat (List.length rows)) (process_rows st rows) in
            if cap_reached (pages st) then Break st w
            else if Z.leb total (start st) then Break st w
            else Continue st (emit PoliteSleep w)
        end
  end.

(** [while True]: [None] when [fuel] passes did not reach a [break]. *)
Fixpoint loop (fuel : nat) (st : Locals) (w : World)
  : option (Result Locals * World) :=
  match fuel with
  | O => None
  | S fuel' =>
      match iteration st w with
      | Break st' w' => Some (Ret st', w')
      | Raised e w' => Some (Raise e, w')
      | Continue st' w' => loop fuel' st' w'
      end
  end.

End Run.

(** *** The writes and the returned dictionary *)

Section Exporter.

Context {parser : HtmlParser}.
Variable cfg : Config.

(** The line a stored row gives (lines 202-205 and 236-239): the stripped
    first child of the anchor of its saved title, when there is one.  Every
    stored row had its [url_title] assigned at line 175. *)
Definition anchor_text (d : Row) : option string :=
  let t := match url_title d with Some s => s | None => EmptyString end in
  match find_anchor t with
  | AnchorChild child => Some (strip child)
  | NoAnchor | EmptyAnchor => None
  end.

(** The lines written for one category. *)
Definition category_lines (b : Bucket) : list string :=
  flat_map (fun d => match anchor_text d with Some s => [s] | None => [] end)
           (dorks b).

(** [s] is not empty and is one of the lines a list of stored rows gives. *)
Definition line_of (s : string) (rows : list Row) : bool :=
  negb (is_empty s)
  && str_in s (flat_map (fun r => match anchor_text r with
                                  | Some t => [t]
                                  | None => []
                                  end) rows).

(** [for cid in sorted(category_dict)]: one file per key. *)
Definition category_files (cd : CategoryDict) : list FileWrite :=
  flat_map
    (fun cid =>
       match cd_get cid cd with
       | Some b =>
           [{| file_name := Slug.category_filename (platform cfg) (category_name b);
               content := Lines (category_lines b) |}]
       | None => []
       end)
    (sorted_keys cd).

(** [for v in category_dict.values(): all_rows.extend(v["dorks"])] *)
Definition all_rows (cd : CategoryDict) : list Row :=
  flat_map (fun kv => dorks (snd kv)) cd.

(** The inner loops of the CSV branch: [dork_to_cat] after one category. *)
Definition scan_category (m : list (string * (Z * string))) (kv : Z * Bucket)
  : list (string * (Z * string)) :=
  let '(cid, cinfo) := kv in
  let cname := category_name cinfo in
  fold_left
    (fun m d =>
       match anchor_text d with
       | Some s =>
           if negb (is_empty s) && negb (str_in s (map fst m))
           then m ++ [(s, (cid, cname))]
           else m
       | None => m
       end)
    (dorks cinfo) m.

(** [for cid, cinfo in category_dict.items(): ...] *)
Definition dork_to_cat (cd : CategoryDict) : list (string * (Z * string)) :=
  fold_left scan_category cd [].

(** [dork_to_cat.get(d, (-1, "unknown"))] and the row written for [d]. *)
Definition csv_row (m : list (string * (Z * string))) (d : string)
  : string * Z * string :=
  match lookup d m with
  | Some (cid, cname) => (d, cid, cname)
  | None => (d, (-1)%Z, "unknown"%string)
  end.

Definition csv_rows (cd : CategoryDict) (extracted : list string)
  : list (string * Z * string) :=
  map (csv_row (dork_to_cat cd)) extracted.

Definition csv_header : list string :=
  ["dork"; "category_id"; "category_name"]%string.

Definition csv_file_name (name : string) : string :=
  if endswith ".csv" name then name else (name ++ ".csv")%string.

(** The words of the specification for the attribution of the CSV: the
    category id of the first row, in the order the rows were scanned, whose
    dork is [s]. *)
Fixpoint first_category_in_scan (rows : list Row) (s : string) : option Z :=
  match rows with
  | [] => None
  | dork :: t =>
      match find_anchor (title_html dork) with
      | AnchorChild child =>
          if String.eqb (strip child) s then Some (category_id dork)
          else first_category_in_scan t s
      | NoAnchor | EmptyAnchor => first_category_in_scan t s
      end
  end.

(** The four [if] blocks after the loop, in order. *)
Definition writes (cd : CategoryDict) (extracted : list string)
  : list FileWrite :=
  (if save_individual_categories_to_files cfg then category_files cd else [])
  ++ (if save_json_response_to_file cfg
      then [{| file_name := "all_google_dorks.json"%string;
               content := JsonRows (all_rows cd) |}]
      else [])
  ++ (if save_all_dorks_to_file cfg
      then [{| file_name := "all_google_dorks.txt"%string;
               content := Lines extracted |}]
      else [])
  ++ (match csv_export cfg with
      | Some name =>
          if is_empty name then []
          else [{| file_name := csv_file_name name;
                   content := CsvRows csv_header (csv_rows cd extracted) |}]
      | None => []
      end).

(** Everything after the loop: the de-duplication, the files, and the
    returned dictionary ([total_dorks or 0]). *)
Definition finish (st : Locals) : Catalog.t * list FileWrite :=
  let extracted := Dedupe._ordered_dedupe (extracted_dorks st) in
  ({| Catalog.total_dorks :=
        match total_dorks st with Some t => t | None => 0 end;
      Catalog.extracted_dorks := extracted;
      Catalog.category_dict := category_dict st |},
   writes (category_dict st) extracted).

(** The whole function on a given remote end; [None] when the loop did not
    end within [fuel] pages. *)
Definition retrieve_google_dorks (net : Network) (fuel : nat)
  : option (Result (Catalog.t * list FileWrite) * World) :=
  match loop cfg net fuel locals0 world0 with
  | None => None
  | Some (Raise e, w) => Some (Raise e, w)
  | Some (Ret st, w) => Some (Ret (finish st), w)
  end.

End Exporter.

End Scraper.

(* ------------------------------------------------------------------ *)
(** ** Concrete inputs *)

Module Sample.
Import PyStr Ghdb Net Scraper.

(** A small stand-in for the HTML library, enough for titles of the shape
    [<a href=...>text</a>]: the text between the first [<a ...>] and the
    next [<].  It is used to run the model on concrete pages only; every
    general statement below is about an arbitrary parser. *)
Fixpoint after_gt (l : list ascii) : list ascii :=
  match l with
  | [] => []
  | c :: t => if Ascii.eqb c ">"%char then t else after_gt t
  end.

Fixpoint until_lt (l : list ascii) : list ascii :=
  match l with
  | [] => []
  | c :: t => if Ascii.eqb c "<"%char then [] else c :: until_lt t
  end.

Fixpoint open_anchor (l : list ascii) : option (list ascii) :=
  match l with
  | [] => None
  | c :: t =>
      match t with
      | d :: t' =>
          if Ascii.eqb c "<"%char && Ascii.eqb d "a"%char
          then Some (after_gt t')
          else open_anchor t
      | [] => None
      end
  end.

Definition toy_find_anchor (s : string) : Anchor :=
  match open_anchor (list_ascii_of_string s) with
  | None => NoAnchor
  | Some rest =>
      match until_lt rest with
      | [] => EmptyAnchor
      | txt => AnchorChild (string_of_list_ascii txt)
      end
  end.

#[export] Instance toy_parser : HtmlParser := {| find_anchor := toy_find_anchor |}.

Definition mk_row (title : string) (cid : Z) (cname : string) : Row := {|
  url_title := Some title;
  category := Some {| cat_id := IdInt cid; cat_title := Some cname |};
  other_fields := []
|}.

Definition mk_page (total : Z) (rows : list Row) : PageData := {|
  recordsTotal := Some total;
  recordsFiltered := Some total;
  data := rows
|}.

(** Three rows, two categories; the second dork of category 1 repeats the
    dork of category 2. *)
Definition row_index : Row := mk_row "<a href=/ghdb/1>intitle:index.of</a>" 1 "Footholds".
Definition row_admin : Row := mk_row "<a href=/ghdb/2>inurl:admin</a>" 2 "Sensitive Directories".
Definition row_admin_again : Row := mk_row "<a href=/ghdb/3>inurl:admin</a>" 1 "Footholds".

Definition page_mixed : PageData :=
  mk_page 3 [row_index; row_admin; row_admin_again].

(** A title whose anchor holds one blank, and a title without an anchor. *)
Definition row_blank : Row := mk_row "<a href=/ghdb/4> </a>" 9 "File Containing Passwords".
Definition row_plain : Row := mk_row "no link here" 9 "File Containing Passwords".

Definition page_empty_total : PageData := mk_page 0 [].
Definition page_no_rows : PageData := mk_page 5 [].
Definition page_two_of_five : PageData := mk_page 5 [row_index; row_admin].

(** Remote ends. *)
Definition always (d : PageData) : Network := fun _ _ => Body d.

Definition fails_twice_then (d : PageData) : Network :=
  fun n _ => if n <? 2 then Fails (RequestException "timed out") else Body d.

Definition always_failing : Network :=
  fun n _ => Fails (RequestException ("attempt " ++ str_of_int (Z.of_nat n))).

Definition tls_broken : Network := fun _ _ => Fails (SSLError "certificate verify failed").

Definition first_then_empty : Network :=
  fun _ r => if Z.eqb (req_start r) 0 then Body page_two_of_five else Body page_no_rows.

Definition all_outputs : Config := {|
  save_json_response_to_file := true;
  save_all_dorks_to_file := true;
  save_individual_categories_to_files := true;
  timeout := 15;
  insecure := false;
  page_size := 1000;
  max_pages := None;
  csv_export := Some "ghdb"%string;
  retry_attempts := 3;
  retry_backoff := backoff_default;
  platform := Slug.Posix
|}.

(** The run of the default configuration against [first_then_empty]: the
    world after the first page, the loop variables after its rows, and the
    world after the second page. *)
Definition world_page_one : World := {|
  sent := 1;
  trace := [Get (params default_config 0 true); LogRequesting 0]
|}.

Definition after_page_one : Locals :=
  advance 2 (process_rows (set_total 5 locals0) (data page_two_of_five)).

Definition world_page_two : World := {|
  sent := 2;
  trace := [Get (params default_config 2 true); LogRequesting 2; PoliteSleep;
            Get (params default_config 0 true); LogRequesting 0]
|}.

(** A page of three rows: a dork, a blank anchor, no anchor. *)
Definition page_blank : PageData := mk_page 3 [row_index; row_blank; row_plain].

(** A remote end whose certificate fails once and which answers the next
    request. *)
Definition tls_then_body : Network :=
  fun n _ => if n =? 0 then Fails (SSLError "certificate verify failed")
             else Body page_mixed.

(** The default keyword arguments with a back-off base of -1.5. *)
Definition negative_backoff_config : Config := {|
  save_json_response_to_file := false;
  save_all_dorks_to_file := false;
  save_individual_categories_to_files := false;
  timeout := 15;
  insecure := false;
  page_size := 1000;
  max_pages := None;
  csv_export := None;
  retry_attempts := 3;
  retry_backoff := backoff_negative;
  platform := Slug.Posix
|}.

(** The default keyword arguments with [insecure=True]. *)
Definition insecure_config : Config := {|
  save_json_response_to_file := false;
  save_all_dorks_to_file := false;
  save_individual_categories_to_files := false;
  timeout := 15;
  insecure := true;
  page_size := 1000;
  max_pages := None;
  csv_export := None;
  retry_attempts := 3;
  retry_backoff := backoff_default;
  platform := Slug.Posix
|}.

End Sample.

(* ------------------------------------------------------------------ *)
(** ** google-dorker.py: the prompts and the discovery of dork files

    The interactive front end asks for the target domain and for a file of
    dorks.  Standard input is the list of the lines still to be read;
    [input()] takes the first one and raises [EOFError] when there is none.
    What is printed is not modelled.  The file system is read through
    [os.path.isdir], [os.listdir] and [os.path.isfile], and does not change
    while the prompts run. *)

Module Dorker.
Import PyStr.

(** How a prompt ends: a value and the lines left on standard input, or an
    exception that leaves the function. *)
Inductive Prompt (A : Type) :=
| Answer (a : A) (stdin : list string)
| EOFError
| ValueError.
Arguments Answer {A} a stdin.
Arguments EOFError {A}.
Arguments ValueError {A}.

(** [c in s] for a one-character [c]. *)
Definition contains1 (c : ascii) (s : string) : bool :=
  existsb (Ascii.eqb c) (list_ascii_of_string s).

(** The test of line 80: not empty, a dot, no leading [http], no slash. *)
Definition acceptable_domain (domain : string) : bool :=
  negb (is_empty domain)
  && contains1 "."%char domain
  && negb (prefix "http" domain)
  && negb (contains1 "/"%char domain).

(** [prompt_domain]: one line per pass of [while True]. *)
Fixpoint prompt_domain (stdin : list string) : Prompt string :=
  match stdin with
  | [] => EOFError
  | line :: rest =>
      let domain := strip line in
      if acceptable_domain domain then Answer domain rest
      else prompt_domain rest
  end.

(** [str.isdigit] on code points below 256: the ten digits and the
    superscripts one, two and three; false on the empty string. *)
Definition isdigit1 (c : ascii) : bool :=
  in_range 48 57 c || (code c =? 178) || (code c =? 179) || (code c =? 185).

Definition isdigit (s : string) : bool :=
  negb (is_empty s) && forallb isdigit1 (list_ascii_of_string s).

(** [s.lower()] *)
Definition lower_str (s : string) : string :=
  string_of_list_ascii (lower (list_ascii_of_string s)).

(** The test on a directory entry (line 72). *)
Definition is_dork_name (name : string) : bool :=
  Scraper.endswith ".dorks" (lower_str name)
  || Scraper.endswith ".txt" (lower_str name).

(** [sorted(names)]: strings compare by code point, a proper prefix first. *)
Fixpoint insert_name (n : string) (l : list string) : list string :=
  match l with
  | [] => [n]
  | h :: t => if String.leb n h then n :: l else h :: insert_name n t
  end.

Definition sorted_names (l : list string) : list string :=
  fold_right insert_name [] l.

Record FileSystem := {
  isdir : string -> bool;
  listdir : string -> list string;
  isfile : string -> bool
}.

Section Prompts.

Variable fs : FileSystem.

(** [os.path.join] of the platform. *)
Variable path_join : string -> string -> string.

(** [int(choice)] on a string that passed [isdigit]; [None] is
    [ValueError]. *)
Variable py_int : string -> option Z.

(** [discover_dork_files] *)
Definition discover_dork_files (search_dir : string) : list string :=
  if isdir fs search_dir then
    flat_map
      (fun name =>
         let path := path_join search_dir name in
         if isfile fs path && is_dork_name name then [path] else [])
      (sorted_names (listdir fs search_dir))
  else [].

(** The loop of lines 88-92: a path is asked for until it names a file. *)
Fixpoint ask_path (stdin : list string) : Prompt string :=
  match stdin with
  | [] => EOFError
  | line :: rest =>
      let path := strip line in
      if isfile fs path then Answer path rest else ask_path rest
  end.

(** The loop of lines 99-110.  A pass reads the choice and, when the
    choice is 0, the path as well. *)
Fixpoint ask_choice (candidates : list string) (stdin : list string)
  : Prompt string :=
  match stdin with
  | [] => EOFError
  | line :: rest =>
      let choice := strip line in
      if isdigit choice then
        match py_int choice with
        | None => ValueError
        | Some n =>
            if Z.eqb n 0 then
              match rest with
              | [] => EOFError
              | line2 :: rest2 =>
                  let path := strip line2 in
                  if isfile fs path then Answer path rest2
                  else ask_choice candidates rest2
              end
            else if Z.leb 1 n && Z.leb n (Z.of_nat (List.length candidates))
                 then Answer (nth (Z.to_nat (n - 1)) candidates EmptyString) rest
                 else ask_choice candidates rest
        end
      else ask_choice candidates rest
  end.

(** [prompt_dorks_file] *)
Definition prompt_dorks_file (candidates : list string) (stdin : list string)
  : Prompt string :=
  match candidates with
  | [] => ask_path stdin
  | _ :: _ => ask_choice candidates stdin
  end.

End Prompts.

(** [int] on strings of the ten digits, for concrete runs. *)
Fixpoint int_digits (acc : Z) (l : list ascii) : option Z :=
  match l with
  | [] => Some acc
  | c :: t =>
      if in_range 48 57 c
      then int_digits (10 * acc + Z.of_nat (code c - 48)) t
      else None
  end.

Definition int_of_digits (s : string) : option Z :=
  int_digits 0 (list_ascii_of_string s).

(** [os.path.join] for a relative name under a directory without a
    trailing separator, for concrete runs. *)
Definition join_slash (dir name : string) : string :=
  (dir ++ "/" ++ name)%string.

(** A directory [dorks] with four entries, one of them a directory. *)
Definition sample_fs : FileSystem := {|
  isdir := fun p => String.eqb p "dorks";
  listdir := fun p =>
    if String.eqb p "dorks"
    then ["vulnerable_files.dorks"; "README.md"; "Footholds.TXT"; "old.txt"]%string
    else [];
  isfile := fun p =>
    String.eqb p "dorks/vulnerable_files.dorks"
    || String.eqb p "dorks/README.md"
    || String.eqb p "dorks/Footholds.TXT"
    || String.eqb p "my.dorks"
|}.

End Dorker.

(* ================================================================== *)
(** * Properties *)

(** ** Strings *)

Lemma length_string_of_list_ascii (l : list ascii) :
  String.length (string_of_list_ascii l) = List.length l.
Proof. induction l as [|c l IH]; simpl; congruence. Qed.

Lemma is_empty_string_of_list_ascii (l : list ascii) :
  PyStr.is_empty (string_of_list_ascii l) = true -> l = [].
Proof. destruct l; simpl; congruence. Qed.

Lemma In_firstn {A} (n : nat) (l : list A) (x : A) :
  In x (firstn n l) -> In x l.
Proof.
  revert l; induction n as [|n IH]; intros [|a l]; simpl; try tauto.
  intros [H|H]; [left; exact H | right; apply IH; exact H].
Qed.

Lemma is_empty_true (s : string) : PyStr.is_empty s = true -> s = EmptyString.
Proof. destruct s; simpl; congruence. Qed.

Lemma is_empty_false (s : string) : PyStr.is_empty s = false -> s <> EmptyString.
Proof. destruct s; simpl; congruence. Qed.

(** ** [_safe_filename] *)

Section SlugFacts.
Import PyStr Slug.

Lemma re_sub_from_allowed (b : bool) (l : list ascii) (c : ascii) :
  In c (re_sub_from b l) -> allowed c = true.
Proof.
  revert b; induction l as [|a l IH]; intros b; simpl; [tauto|].
  destruct (allowed a) eqn:Ea.
  - intros [<-|H]; [exact Ea | eauto].
  - destruct b; simpl; [eauto|].
    intros [<-|H]; [reflexivity | eauto].
Qed.

Lemma re_sub_all_allowed (l : list ascii) :
  forallb allowed l = true -> re_sub l = l.
Proof.
  unfold re_sub; induction l as [|a l IH]; simpl; [reflexivity|].
  intros H; apply andb_true_iff in H as [Ha Hl].
  rewrite Ha, IH by assumption; reflexivity.
Qed.

(** Allowed characters pass through [re.sub] unchanged. *)
Lemma re_sub_from_keeps (b : bool) (good rest : list ascii) :
  forallb allowed good = true -> good <> [] ->
  re_sub_from b (good ++ rest) = good ++ re_sub_from false rest.
Proof.
  revert b; induction good as [|a good IH]; intros b Hg Hne; [congruence|].
  simpl in *. apply andb_true_iff in Hg as [Ha Hg]. rewrite Ha.
  destruct good as [|a' good']; [reflexivity|].
  rewrite (IH false Hg); [reflexivity | discriminate].
Qed.

(** A run outside the class, not preceded by one, becomes one underscore. *)
Lemma re_sub_from_run (bad rest : list ascii) :
  forallb (fun c => negb (allowed c)) bad = true ->
  re_sub_from true (bad ++ rest) = re_sub_from true rest.
Proof.
  induction bad as [|a bad IH]; simpl; [reflexivity|].
  intros H; apply andb_true_iff in H as [Ha Hb].
  apply negb_true_iff in Ha; rewrite Ha; auto.
Qed.

Lemma lower1_blank (c : ascii) :
  Ascii.eqb (lower1 c) " "%char = Ascii.eqb c " "%char.
Proof. destruct c as [[] [] [] [] [] [] [] []]; reflexivity. Qed.

Lemma plain_char_no_sep (p : Platform) (c : ascii) :
  plain_char c = true ->
  Ascii.eqb c (os_sep p) = false /\ Ascii.eqb c "/"%char = false.
Proof.
  destruct p; destruct c as [[] [] [] [] [] [] [] []];
    vm_compute; intros H; try discriminate H; split; reflexivity.
Qed.

Lemma plain_char_slug_allowed (c : ascii) :
  plain_char c = true -> allowed (slug_char c) = true.
Proof.
  destruct c as [[] [] [] [] [] [] [] []];
    vm_compute; intros H; try discriminate H; reflexivity.
Qed.

Lemma replace1_absent (old new : ascii) (l : list ascii) :
  forallb (fun c => negb (Ascii.eqb c old)) l = true -> replace1 old new l = l.
Proof.
  unfold replace1; induction l as [|a l IH]; simpl; [reflexivity|].
  intros H; apply andb_true_iff in H as [Ha Hl].
  apply negb_true_iff in Ha; rewrite Ha, IH by assumption; reflexivity.
Qed.

Lemma plain_pipeline (p : Platform) (l : list ascii) :
  forallb plain_char l = true ->
  re_sub (replace1 " "%char "_"%char
            (lower (replace1 "/"%char "_"%char (replace1 (os_sep p) "_"%char l))))
  = map slug_char l.
Proof.
  intros Hl.
  assert (Hsep : forallb (fun c => negb (Ascii.eqb c (os_sep p))) l = true
                 /\ forallb (fun c => negb (Ascii.eqb c "/"%char)) l = true).
  { rewrite !forallb_forall in *; split; intros c Hc;
      destruct (plain_char_no_sep p c (Hl c Hc)) as [H1 H2];
      [rewrite H1 | rewrite H2]; reflexivity. }
  destruct Hsep as [Hs1 Hs2].
  rewrite (replace1_absent _ _ _ Hs1), (replace1_absent _ _ _ Hs2).
  assert (Hmap : replace1 " "%char "_"%char (lower l) = map slug_char l).
  { unfold replace1, lower; rewrite map_map; apply map_ext; intros c.
    unfold slug_char; rewrite lower1_blank; destruct (Ascii.eqb c " "); reflexivity. }
  rewrite Hmap; apply re_sub_all_allowed.
  rewrite forallb_forall in *; intros c Hc.
  apply in_map_iff in Hc as (c0 & <- & Hc0).
  apply plain_char_slug_allowed; auto.
Qed.

Lemma slug_class_char (p : Platform) (c : ascii) :
  let c1 := if Ascii.eqb c (os_sep p) then "_"%char else c in
  let c2 := if Ascii.eqb c1 "/"%char then "_"%char else c1 in
  let c3 := lower1 c2 in
  let c4 := if Ascii.eqb c3 " "%char then "_"%char else c3 in
  match slug_class p c with
  | Some x => c4 = x /\ allowed c4 = true
  | None => allowed c4 = false
  end.
Proof.
  destruct p; destruct c as [[] [] [] [] [] [] [] []];
    vm_compute; try reflexivity; split; reflexivity.
Qed.

Lemma pipeline_scan (p : Platform) (l : list ascii) :
  forall b,
    re_sub_from b (replace1 " "%char "_"%char
                     (lower (replace1 "/"%char "_"%char
                               (replace1 (os_sep p) "_"%char l))))
    = slug_scan p b l.
Proof.
  unfold replace1, lower.
  induction l as [|c l IH]; intros b; [reflexivity|].
  cbn [map re_sub_from slug_scan].
  pose proof (slug_class_char p c) as H. cbv zeta in H.
  destruct (slug_class p c) as [x|].
  - destruct H as [Hx Ha]. rewrite Ha, Hx, IH. reflexivity.
  - rewrite H, !IH. reflexivity.
Qed.

Lemma safe_filename_spec_slug (p : Platform) (name : string) :
  _safe_filename p (Some name) = spec_slug p name.
Proof.
  unfold _safe_filename, spec_slug, re_sub. rewrite pipeline_scan. reflexivity.
Qed.

Lemma plain_char_class (p : Platform) (c : ascii) :
  plain_char c = true -> slug_class p c = Some (slug_char c).
Proof.
  destruct p; destruct c as [[] [] [] [] [] [] [] []];
    vm_compute; intros H; try discriminate H; reflexivity.
Qed.

Lemma slug_scan_plain (p : Platform) (l rest : list ascii) (b : bool) :
  forallb plain_char l = true ->
  slug_scan p b (l ++ rest)
  = map slug_char l ++ slug_scan p (match l with [] => b | _ => false end) rest.
Proof.
  revert b; induction l as [|c l IH]; intros b H; [reflexivity|].
  simpl in H. apply andb_true_iff in H as [Hc Hl].
  cbn [app slug_scan map]. rewrite (plain_char_class p c Hc), (IH false Hl).
  destruct l; reflexivity.
Qed.

Lemma slug_scan_run (p : Platform) (bad rest : list ascii) :
  forallb (fun c => match slug_class p c with None => true | Some _ => false end)
          bad = true ->
  slug_scan p true (bad ++ rest) = slug_scan p true rest.
Proof.
  induction bad as [|c bad IH]; intros H; [reflexivity|].
  simpl in H. apply andb_true_iff in H as [Hc Hb].
  cbn [app slug_scan]. destruct (slug_class p c); [discriminate Hc|]. auto.
Qed.

Lemma slug_scan_plain_all (p : Platform) (l : list ascii) (b : bool) :
  forallb plain_char l = true -> slug_scan p b l = map slug_char l.
Proof.
  intros H. rewrite <- (app_nil_r l) at 1. rewrite slug_scan_plain by exact H.
  simpl. apply app_nil_r.
Qed.

(** One run of characters outside the class between two plain parts. *)
Lemma slug_scan_one_run (p : Platform) (pre bad post : list ascii) :
  forallb plain_char pre = true ->
  bad <> [] ->
  forallb (fun c => match slug_class p c with None => true | Some _ => false end)
          bad = true ->
  forallb plain_char post = true ->
  slug_scan p false (pre ++ bad ++ post)
  = map slug_char pre ++ "_"%char :: map slug_char post.
Proof.
  intros Hpre Hne Hbad Hpost.
  rewrite slug_scan_plain by exact Hpre. f_equal.
  destruct bad as [|c bad]; [congruence|].
  simpl in Hbad. apply andb_true_iff in Hbad as [Hc Hb].
  assert (E : slug_scan p (match pre with [] => false | _ => false end)
                        ((c :: bad) ++ post)
              = "_"%char :: slug_scan p true (bad ++ post)).
  { cbn [app slug_scan]. destruct (slug_class p c); [discriminate Hc|].
    destruct pre; reflexivity. }
  rewrite E, (slug_scan_run p bad post Hb), slug_scan_plain_all by exact Hpost.
  reflexivity.
Qed.

(** C8.  The slug of a category name.  (1) The example of the
    specification.  (2) The fallback for an absent or empty name.
    (3)-(5) The three guarantees that hold for every name: never empty, at
    most 120 characters, every character in the class a-z 0-9 . _ -.
    (6) A name made of letters, digits, dot, underscore, hyphen and blanks,
    with no blank at either end, is lower-cased with each blank turned into
    an underscore and cut at 120 characters.  (7)-(8) In [re.sub], allowed
    characters are kept and a run of other characters, whatever its length,
    leaves one underscore.  (9) For every name the function returns the slug
    in the words of the specification: after the strip, a blank or a path
    separator gives an underscore of its own, a character that is in the
    class once lower-cased gives its lower case, every maximal run of other
    characters gives one underscore; the result is cut at 120 characters and
    replaced by the default name when empty.  (10) A character has no slug
    of its own exactly when, lower-cased, it is outside the class and it is
    neither a blank nor a separator.  (11) So a name that is a plain part, a
    run of such characters and a plain part, with nothing to strip at either
    end, gives the slugs of the first part, one underscore for the whole
    run, and the slugs of the last part, cut at 120 characters.  (12) Five
    names: one character outside the class, a run of three, two separators,
    two blanks, and a title with accents. *)
Theorem safe_filename_slug :
  (forall p, category_filename p "File Containing Passwords"
             = "file_containing_passwords.dorks"%string)
  /\ (forall p, _safe_filename p None = "category"%string
                /\ _safe_filename p (Some EmptyString) = "category"%string)
  /\ (forall p name, _safe_filename p name <> EmptyString)
  /\ (forall p name, String.length (_safe_filename p name) <= 120)
  /\ (forall p name c,
         In c (list_ascii_of_string (_safe_filename p name)) -> allowed c = true)
  /\ (forall p name,
         name <> EmptyString ->
         strip name = name ->
         forallb plain_char (list_ascii_of_string name) = true ->
         _safe_filename p (Some name)
         = string_of_list_ascii
             (firstn 120 (map slug_char (list_ascii_of_string name))))
  /\ (forall good rest,
         forallb allowed good = true ->
         re_sub (good ++ rest) = good ++ re_sub rest)
  /\ (forall bad good rest,
         bad <> [] ->
         forallb (fun c => negb (allowed c)) bad = true ->
         forallb allowed good = true ->
         good <> [] ->
         re_sub (bad ++ good ++ rest) = "_"%char :: good ++ re_sub rest)
  /\ (forall p name, _safe_filename p (Some name) = spec_slug p name)
  /\ (forall p c,
         slug_class p c = None
         <-> (allowed (lower1 c) = false
              /\ c <> " "%char /\ c <> "/"%char /\ c <> os_sep p))
  /\ (forall p pre bad post,
         strip (string_of_list_ascii (pre ++ bad ++ post))
         = string_of_list_ascii (pre ++ bad ++ post) ->
         forallb plain_char pre = true ->
         bad <> [] ->
         (forall c, In c bad -> slug_class p c = None) ->
         forallb plain_char post = true ->
         _safe_filename p (Some (string_of_list_ascii (pre ++ bad ++ post)))
         = string_of_list_ascii
             (firstn 120 (map slug_char pre ++ "_"%char :: map slug_char post)))
  /\ (forall p,
         _safe_filename p (Some "a&b"%string) = "a_b"%string
         /\ _safe_filename p (Some "a&&%b"%string) = "a_b"%string
         /\ _safe_filename p (Some "a//b"%string) = "a__b"%string
         /\ _safe_filename p (Some "a  b"%string) = "a__b"%string
         /\ _safe_filename p (Some "C++ & (Misc)!"%string) = "c_____misc_"%string).
Proof.
  refine (conj _ (conj _ (conj _ (conj _ (conj _ (conj _ (conj _ (conj _
         (conj _ (conj _ (conj _ _))))))))))).
  - intros []; reflexivity.
  - intros []; split; reflexivity.
  - intros p name; unfold _safe_filename.
    match goal with |- (if is_empty ?s then _ else _) <> _ =>
      destruct (is_empty s) eqn:E end.
    + discriminate.
    + apply is_empty_false; exact E.
  - intros p name; unfold _safe_filename.
    match goal with |- String.length (if is_empty ?s then _ else _) <= _ =>
      destruct (is_empty s) end.
    + simpl; lia.
    + rewrite length_string_of_list_ascii. apply firstn_le_length.
  - intros p name c; unfold _safe_filename.
    match goal with |- In c (list_ascii_of_string (if is_empty ?s then _ else _)) -> _ =>
      destruct (is_empty s) end.
    + simpl; intros H;
        repeat (destruct H as [<-|H]; [reflexivity|]); destruct H.
    + rewrite list_ascii_of_string_of_list_ascii; intros H.
      apply In_firstn in H. eapply re_sub_from_allowed; exact H.
  - intros p name Hne Hstrip Hplain; unfold _safe_filename.
    rewrite Hstrip, plain_pipeline by exact Hplain.
    match goal with |- (if is_empty ?s then _ else _) = _ =>
      destruct (is_empty s) eqn:E end; [|reflexivity].
    exfalso; apply Hne.
    apply is_empty_string_of_list_ascii in E.
    destruct name as [|c name]; [reflexivity|]; simpl in E; discriminate.
  - intros good rest Hg; unfold re_sub.
    destruct good as [|a good]; [reflexivity|].
    apply re_sub_from_keeps; [exact Hg | discriminate].
  - intros bad good rest Hne Hb Hg Hgne; unfold re_sub.
    destruct bad as [|a bad]; [congruence|].
    simpl in Hb |- *; apply andb_true_iff in Hb as [Ha Hb].
    apply negb_true_iff in Ha; rewrite Ha.
    rewrite (re_sub_from_run _ _ Hb).
    rewrite (re_sub_from_keeps true _ _ Hg Hgne); reflexivity.
  - apply safe_filename_spec_slug.
  - intros p c. unfold slug_class.
    destruct (Ascii.eqb_spec c (os_sep p)) as [E1|N1]; cbn [orb].
    { split; [discriminate | intros (_ & _ & _ & H); contradiction]. }
    destruct (Ascii.eqb_spec c "/"%char) as [E2|N2]; cbn [orb].
    { split; [discriminate | intros (_ & _ & H & _); contradiction]. }
    destruct (Ascii.eqb_spec c " "%char) as [E3|N3].
    { split; [discriminate | intros (_ & H & _); contradiction]. }
    destruct (allowed (lower1 c)).
    + split; [discriminate | intros (H & _); discriminate H].
    + split; [intros _; repeat split; assumption | reflexivity].
  - intros p pre bad post Hstrip Hpre Hne Hbad Hpost.
    rewrite safe_filename_spec_slug. unfold spec_slug.
    rewrite Hstrip, list_ascii_of_string_of_list_ascii.
    rewrite (slug_scan_one_run p pre bad post Hpre Hne); [|  | exact Hpost].
    + destruct pre; reflexivity.
    + apply forallb_forall. intros c Hc. rewrite (Hbad c Hc). reflexivity.
  - intros []; repeat split; reflexivity.
Qed.

(** The conditional parts at concrete names: a title of three words, a run
    of three characters outside the class before two allowed ones, and a
    name with one character outside the class between two words. *)
Lemma safe_filename_slug_witness :
  Slug._safe_filename Slug.Posix (Some "Web Server Detection"%string)
  = "web_server_detection"%string
  /\ Slug.re_sub (list_ascii_of_string "(!)v2") = list_ascii_of_string "_v2"
  /\ Slug._safe_filename Slug.Posix (Some "Research&Development"%string)
     = "research_development"%string.
Proof.
  destruct safe_filename_slug
    as (_ & _ & _ & _ & _ & Hplain & _ & Hrun & _ & Hnone & Hone & _).
  split; [|split].
  - apply (Hplain Slug.Posix "Web Server Detection"%string);
      [discriminate | reflexivity | reflexivity].
  - apply (Hrun (list_ascii_of_string "(!)") (list_ascii_of_string "v2") []);
      [discriminate | reflexivity | reflexivity | discriminate].
  - apply (Hone Slug.Posix (list_ascii_of_string "Research")
                (list_ascii_of_string "&") (list_ascii_of_string "Development")).
    + reflexivity.
    + reflexivity.
    + discriminate.
    + intros c [<-|[]]. apply (proj2 (Hnone Slug.Posix "&"%char)).
      refine (conj eq_refl (conj _ (conj _ _))); discriminate.
    + reflexivity.
Defined.

End SlugFacts.

(** ** [_ordered_dedupe] *)

Section DedupeFacts.
Import Dedupe.

Lemma filter_filter {A} (f g : A -> bool) (l : list A) :
  filter f (filter g l) = filter (fun x => g x && f x) l.
Proof.
  induction l as [|a l IH]; simpl; [reflexivity|].
  destruct (g a); simpl; [destruct (f a)|]; rewrite IH; reflexivity.
Qed.

Lemma od_keys_set {V} (k : string) (v : V) (d : odict V) :
  od_keys (od_set k v d)
  = if existsb (String.eqb k) (od_keys d) then od_keys d else od_keys d ++ [k].
Proof.
  induction d as [|[k' v'] d IH]; simpl; [reflexivity|].
  destruct (String.eqb k k'); simpl; [reflexivity|].
  unfold od_keys in *; rewrite IH.
  destruct (existsb (String.eqb k) (map fst d)); reflexivity.
Qed.

Lemma existsb_eqb_sym (x y : string) (K : list string) :
  existsb (String.eqb y) (K ++ [x])
  = existsb (String.eqb y) K || String.eqb y x.
Proof. rewrite existsb_app; simpl; rewrite orb_false_r; reflexivity. Qed.

(** The dictionary after the pass, from any dictionary before it. *)
Lemma fold_od_set_keys (items : list string) (d : odict unit) :
  od_keys (fold_left (fun d k => od_set k tt d) items d)
  = od_keys d
    ++ filter (fun y => negb (existsb (String.eqb y) (od_keys d)))
              (keep_first items).
Proof.
  revert d; induction items as [|x t IH]; intros d; simpl.
  - rewrite app_nil_r; reflexivity.
  - rewrite IH, od_keys_set.
    destruct (existsb (String.eqb x) (od_keys d)) eqn:Ex; simpl.
    + f_equal. rewrite filter_filter. apply filter_ext; intros y.
      destruct (String.eqb_spec y x) as [->|Hne]; simpl; [|reflexivity].
      rewrite Ex; reflexivity.
    + rewrite <- app_assoc; simpl; do 2 f_equal.
      rewrite filter_filter. apply filter_ext; intros y.
      rewrite existsb_eqb_sym, negb_orb, andb_comm; reflexivity.
Qed.

Lemma ordered_dedupe_keep_first (items : list string) :
  _ordered_dedupe items = keep_first items.
Proof.
  unfold _ordered_dedupe, fromkeys; rewrite fold_od_set_keys; simpl.
  induction (keep_first items) as [|a l IH]; simpl; congruence.
Qed.

Lemma keep_first_In (l : list string) (x : string) :
  In x (keep_first l) <-> In x l.
Proof.
  induction l as [|a t IH]; simpl; [tauto|].
  rewrite filter_In, IH.
  destruct (String.eqb_spec x a) as [->|Hne]; simpl; split; intros H.
  - left; reflexivity.
  - left; reflexivity.
  - destruct H as [H|[H _]]; [left; exact H | right; exact H].
  - destruct H as [H|H]; [left; exact H | right; split; [exact H | reflexivity]].
Qed.

Lemma keep_first_NoDup (l : list string) : NoDup (keep_first l).
Proof.
  induction l as [|a t IH]; simpl; constructor.
  - rewrite filter_In, String.eqb_refl; simpl; intros [_ H]; discriminate.
  - apply NoDup_filter; exact IH.
Qed.

Lemma StronglySorted_filter {A} (R : A -> A -> Prop) (f : A -> bool) (l : list A) :
  StronglySorted R l -> StronglySorted R (filter f l).
Proof.
  induction 1 as [|a l Hs IH Hf]; simpl; [constructor|].
  destruct (f a); [|exact IH].
  constructor; [exact IH|].
  rewrite Forall_forall in *; intros x Hx.
  apply filter_In in Hx as [Hx _]; auto.
Qed.

Lemma StronglySorted_weaken {A} (R R' : A -> A -> Prop) (l : list A) :
  (forall x y, In x l -> In y l -> R x y -> R' x y) ->
  StronglySorted R l -> StronglySorted R' l.
Proof.
  intros Himp Hs; induction Hs as [|a l Hs IH Hf]; constructor.
  - apply IH; intros x y Hx Hy; apply Himp; right; assumption.
  - rewrite Forall_forall in *; intros x Hx.
    apply Himp; [left; reflexivity | right; exact Hx | auto].
Qed.

Lemma keep_first_sorted (l : list string) :
  StronglySorted (fun x y => first_index x l < first_index y l) (keep_first l).
Proof.
  induction l as [|a t IH]; simpl; constructor.
  - apply StronglySorted_weaken
      with (R := fun x y => first_index x t < first_index y t).
    + intros x y Hx Hy Hlt.
      apply filter_In in Hx as [_ Hx]; apply filter_In in Hy as [_ Hy].
      apply negb_true_iff in Hx, Hy; rewrite Hx, Hy; lia.
    + apply StronglySorted_filter; exact IH.
  - apply Forall_forall; intros y Hy.
    apply filter_In in Hy as [_ Hy]; apply negb_true_iff in Hy.
    rewrite String.eqb_refl, Hy; lia.
Qed.

(** C2.  The de-duplication keeps every distinct string of its input, once,
    and lists them by first appearance: the result has no repetition, has
    the members of the input, holds each of them exactly once, is strictly
    increasing in the position of the first occurrence, and is the list the
    specification describes (first occurrences kept, later repeats dropped).
    Strings are compared character by character, so case matters.  The
    example of the specification is the sixth part. *)
Theorem ordered_dedupe_first_appearance :
  (forall items, NoDup (_ordered_dedupe items))
  /\ (forall items x, In x (_ordered_dedupe items) <-> In x items)
  /\ (forall items x,
         In x items -> count_occ string_dec (_ordered_dedupe items) x = 1)
  /\ (forall items,
         StronglySorted
           (fun x y => first_index x items < first_index y items)
           (_ordered_dedupe items))
  /\ (forall items, _ordered_dedupe items = keep_first items)
  /\ _ordered_dedupe ["a"; "b"; "a"; "c"; "b"]%string = ["a"; "b"; "c"]%string
  /\ _ordered_dedupe ["a"; "A"; "a"]%string = ["a"; "A"]%string.
Proof.
  repeat apply conj; try reflexivity.
  - intros items; rewrite ordered_dedupe_keep_first; apply keep_first_NoDup.
  - intros items x; rewrite ordered_dedupe_keep_first; apply keep_first_In.
  - intros items x Hx; rewrite ordered_dedupe_keep_first.
    apply NoDup_count_occ'; [apply keep_first_NoDup | apply keep_first_In; exact Hx].
  - intros items; rewrite ordered_dedupe_keep_first; apply keep_first_sorted.
  - apply ordered_dedupe_keep_first.
Qed.

(** The third part at a list where the string occurs twice. *)
Lemma ordered_dedupe_first_appearance_witness :
  count_occ string_dec (Dedupe._ordered_dedupe ["x"; "y"; "x"]%string) "x"%string = 1.
Proof.
  apply (proj1 (proj2 (proj2 ordered_dedupe_first_appearance))).
  simpl; left; reflexivity.
Defined.

End DedupeFacts.

(** ** [fetch_page] *)

Section FetchFacts.
Import Ghdb Net Scraper.

Variable cfg : Config.
Variable net : Network.

Lemma firstn_length_app {A} (a b : list A) : firstn (List.length a) (a ++ b) = a.
Proof. induction a as [|x a IH]; simpl; [destruct b; reflexivity | rewrite IH; reflexivity]. Qed.

Lemma since_app (w w' : World) (new : list Event) :
  trace w' = new ++ trace w -> since w w' = new.
Proof.
  intros H; unfold since; rewrite H, length_app.
  replace (List.length new + List.length (trace w) - List.length (trace w))
    with (List.length new) by lia.
  apply firstn_length_app.
Qed.

Lemma requests_of_app (a b : list Event) :
  requests_of (a ++ b) = requests_of b ++ requests_of a.
Proof. unfold requests_of; rewrite rev_app_distr, flat_map_app; reflexivity. Qed.

Ltac close_facts :=
  repeat split; simpl; try lia; eauto;
  try (repeat constructor; simpl; congruence);
  try (intros; eexists; split; [reflexivity|]; congruence);
  try (intros; congruence).

Lemma try_request_facts (start : Z) (w : World) :
  match try_request cfg net start w with
  | Done r w' =>
      exists new, step_facts cfg start w new w'
        /\ explains (answers net (sent w) (requests_of new)) r
        /\ (insecure cfg = false ->
            exists o, answers net (sent w) (requests_of new) = [o]
              /\ forall m, o = Fails (SSLError m) ->
                           r = Raise (Propagated (SSLError m)))
  | Failed e w' =>
      exists new, step_facts cfg start w new w'
        /\ Forall failed (answers net (sent w) (requests_of new))
        /\ (insecure cfg = false ->
            answers net (sent w) (requests_of new) = [Fails e]
            /\ is_transient e = true)
  end.
Proof.
  unfold try_request, send, step_facts.
  destruct (insecure cfg) eqn:Ei; simpl;
    destruct (net (sent w) _) as [d|[m|m|m|m|]] eqn:E1; simpl;
    try (eexists [Get _]; simpl; rewrite E1; close_facts;
         try (exists []; split; [reflexivity | constructor]); fail).
  all: destruct (net (S (sent w)) _) as [d|[m2|m2|m2|m2|]] eqn:E2; simpl;
    (eexists [Get _; Get _]; simpl; rewrite E1, E2; close_facts).
  exists [Fails (SSLError m)]; split; [reflexivity | repeat constructor].
Qed.

Lemma requests_of_sleep (a : nat) (t : list Event) :
  requests_of (BackoffSleep a :: t) = requests_of t.
Proof. unfold requests_of; simpl; rewrite flat_map_app; simpl; apply app_nil_r. Qed.

Lemma answers_app (n : nat) (a b : list Request) :
  answers net n (a ++ b) = answers net n a ++ answers net (n + List.length a) b.
Proof.
  revert n; induction a as [|r a IH]; intros n; simpl.
  - rewrite Nat.add_0_r; reflexivity.
  - rewrite IH, Nat.add_succ_r; reflexivity.
Qed.

Lemma fetch_attempts_run (start : Z) (todo attempt : nat)
      (last_err : option NetExc) (w : World) :
  exists new,
    let '(r, w') := fetch_attempts cfg net start todo attempt last_err w in
    trace w' = new ++ trace w
    /\ sent w' = sent w + List.length (requests_of new)
    /\ Forall (fetch_event cfg start) new
    /\ explains (answers net (sent w) (requests_of new)) r
    /\ (insecure cfg = false ->
        forall pre m post,
          answers net (sent w) (requests_of new) = pre ++ Fails (SSLError m) :: post ->
          post = [] /\ r = Raise (Propagated (SSLError m))
          /\ exists rq t, new = Get rq :: t).
Proof.
  revert attempt last_err w; induction todo as [|todo IH]; intros attempt last_err w.
  - exists []; simpl; refine (conj _ (conj _ (conj _ (conj _ _)))); auto.
    intros _ [|? ?] m post H; discriminate H.
  - simpl. pose proof (try_request_facts start w) as F.
    destruct (try_request cfg net start w) as [r w1|e w1].
    + destruct F as (new & (Ht & Hs & He & Hh) & Hex & Hssl).
      exists new; refine (conj _ (conj _ (conj _ (conj _ _)))); auto.
      intros Hi pre m post Hp. destruct (Hssl Hi) as (o & Ho & Hr).
      rewrite Ho in Hp. destruct pre as [|o' pre]; simpl in Hp.
      * injection Hp as -> <-. auto.
      * injection Hp as _ Hp. destruct pre; discriminate Hp.
    + destruct F as (new1 & (Ht & Hs & He & Hh) & Hf & Hone).
      destruct (sleep_raises cfg attempt).
      { exists new1; refine (conj Ht (conj Hs (conj He (conj Hf _)))).
        intros Hi pre m post Hp. destruct (Hone Hi) as [Ho Htr].
        rewrite Ho in Hp. destruct pre as [|o' pre]; simpl in Hp.
        - injection Hp as -> _. discriminate Htr.
        - injection Hp as _ Hp. destruct pre; discriminate Hp. }
      destruct (IH (S attempt) (Some e) (emit (BackoffSleep attempt) w1)) as [new' H'].
      exists (new' ++ BackoffSleep attempt :: new1).
      destruct (fetch_attempts cfg net start todo (S attempt) (Some e) _) as [r w'].
      destruct H' as (Ht' & Hs' & He' & Hex' & Hssl').
      simpl in Ht', Hs', Hex', Hssl'.
      rewrite requests_of_app, requests_of_sleep, answers_app, length_app.
      rewrite Hs in *.
      refine (conj _ (conj _ (conj _ (conj _ _)))).
      * rewrite Ht', Ht, <- app_assoc; reflexivity.
      * lia.
      * apply Forall_app; split; [exact He'|].
        constructor; [exact I | exact He].
      * destruct r as [d|x]; simpl in *.
        -- destruct Hex' as (pre & -> & Hpre).
           exists (answers net (sent w) (requests_of new1) ++ pre).
           rewrite app_assoc; split; [reflexivity | apply Forall_app; auto].
        -- apply Forall_app; auto.
      * intros Hi pre m post Hp. destruct (Hone Hi) as [Ho Htr].
        rewrite Ho in Hp. destruct pre as [|o' pre]; simpl in Hp.
        -- injection Hp as -> _. discriminate Htr.
        -- injection Hp as _ Hp.
           destruct (Hssl' Hi pre m post Hp) as (-> & -> & rq & t & ->).
           split; [reflexivity | split; [reflexivity|]].
           exists rq, (t ++ BackoffSleep attempt :: new1); reflexivity.
Qed.

(** The first request of an attempt. *)
Lemma try_request_body (start : Z) (w : World) (d : PageData) :
  net (sent w) (params cfg start (negb (insecure cfg))) = Body d ->
  exists w', try_request cfg net start w = Done (Ret d) w' /\ sent w' = S (sent w).
Proof.
  intros E; unfold try_request, send; rewrite E; eexists; split; reflexivity.
Qed.

Lemma try_request_transient (start : Z) (w : World) (e : NetExc) :
  net (sent w) (params cfg start (negb (insecure cfg))) = Fails e ->
  is_transient e = true ->
  exists w', try_request cfg net start w = Failed e w' /\ sent w' = S (sent w).
Proof.
  intros E T; unfold try_request, send; rewrite E.
  destruct e; try discriminate T; eexists; split; reflexivity.
Qed.

Lemma fetch_attempts_success (start : Z) (k : nat) :
  forall todo attempt last_err w d,
    k < todo ->
    (forall i, i < k ->
       exists e, net (sent w + i) (params cfg start (negb (insecure cfg))) = Fails e
                 /\ is_transient e = true) ->
    (forall i, i < k -> sleep_raises cfg (attempt + i) = false) ->
    net (sent w + k) (params cfg start (negb (insecure cfg))) = Body d ->
    exists w', fetch_attempts cfg net start todo attempt last_err w = (Ret d, w')
               /\ sent w' = sent w + S k.
Proof.
  induction k as [|k IH]; intros todo attempt last_err w d Hk Hpre Hsl Hd;
    (destruct todo as [|todo]; [lia|]); simpl.
  - rewrite Nat.add_0_r in Hd.
    destruct (try_request_body start w d Hd) as (w' & -> & Hs).
    exists w'; split; [reflexivity | lia].
  - destruct (Hpre 0) as (e & He & Ht); [lia|].
    rewrite Nat.add_0_r in He.
    destruct (try_request_transient start w e He Ht) as (w1 & -> & Hs).
    pose proof (Hsl 0 ltac:(lia)) as Hs0. rewrite Nat.add_0_r in Hs0. rewrite Hs0.
    destruct (IH todo (S attempt) (Some e) (emit (BackoffSleep attempt) w1) d)
      as (w' & Hw' & Hs'); simpl.
    + lia.
    + intros i Hi. rewrite Hs. replace (S (sent w) + i) with (sent w + S i) by lia.
      apply Hpre; lia.
    + intros i Hi. replace (S (attempt + i)) with (attempt + S i) by lia.
      apply Hsl; lia.
    + rewrite Hs. replace (S (sent w) + k) with (sent w + S k) by lia. exact Hd.
    + exists w'; split; [exact Hw'|]. simpl in Hs'; lia.
Qed.

Lemma fetch_attempts_exhausted (start : Z) (todo : nat) :
  forall attempt last_err w (errs : nat -> NetExc),
    (forall i, i < todo ->
       net (sent w + i) (params cfg start (negb (insecure cfg))) = Fails (errs i)
       /\ is_transient (errs i) = true) ->
    (forall i, i < todo -> sleep_raises cfg (attempt + i) = false) ->
    exists w',
      fetch_attempts cfg net start todo attempt last_err w
      = (Raise (RuntimeError start
                  (match todo with O => last_err | S t => Some (errs t) end)), w')
      /\ sent w' = sent w + todo.
Proof.
  induction todo as [|todo IH]; intros attempt last_err w errs Hall Hsl; simpl.
  - exists w; split; [reflexivity | lia].
  - destruct (Hall 0) as (He & Ht); [lia|].
    rewrite Nat.add_0_r in He.
    destruct (try_request_transient start w _ He Ht) as (w1 & -> & Hs).
    pose proof (Hsl 0 ltac:(lia)) as Hs0. rewrite Nat.add_0_r in Hs0. rewrite Hs0.
    destruct (IH (S attempt) (Some (errs 0)) (emit (BackoffSleep attempt) w1)
                 (fun i => errs (S i))) as (w' & Hw' & Hs'); simpl.
    + intros i Hi. rewrite Hs. replace (S (sent w) + i) with (sent w + S i) by lia.
      apply Hall; lia.
    + intros i Hi. replace (S (attempt + i)) with (attempt + S i) by lia.
      apply Hsl; lia.
    + exists w'; split; [|simpl in Hs'; lia].
      rewrite Hw'; destruct todo; reflexivity.
Qed.

(** A back-off that raises ends the call after the failed attempt. *)
Lemma fetch_attempts_sleep_error (start : Z) (k : nat) :
  forall todo attempt last_err w,
    k < todo ->
    (forall i, i <= k ->
       exists e, net (sent w + i) (params cfg start (negb (insecure cfg))) = Fails e
                 /\ is_transient e = true) ->
    (forall i, i < k -> sleep_raises cfg (attempt + i) = false) ->
    sleep_raises cfg (attempt + k) = true ->
    exists w',
      fetch_attempts cfg net start todo attempt last_err w
      = (Raise (SleepError (attempt + k)), w')
      /\ sent w' = sent w + S k.
Proof.
  induction k as [|k IH]; intros todo attempt last_err w Hk Hpre Hsl Hbad;
    (destruct todo as [|todo]; [lia|]); simpl;
    (destruct (Hpre 0) as (e & He & Ht); [lia|]);
    rewrite Nat.add_0_r in He;
    destruct (try_request_transient start w e He Ht) as (w1 & -> & Hs).
  - rewrite Nat.add_0_r in Hbad. rewrite Hbad.
    exists w1; split; [rewrite Nat.add_0_r; reflexivity | lia].
  - pose proof (Hsl 0 ltac:(lia)) as Hs0. rewrite Nat.add_0_r in Hs0. rewrite Hs0.
    destruct (IH todo (S attempt) (Some e) (emit (BackoffSleep attempt) w1))
      as (w' & Hw' & Hs'); simpl.
    + lia.
    + intros i Hi. rewrite Hs. replace (S (sent w) + i) with (sent w + S i) by lia.
      apply Hpre; lia.
    + intros i Hi. replace (S (attempt + i)) with (attempt + S i) by lia.
      apply Hsl; lia.
    + replace (S (attempt + k)) with (attempt + S k) by lia. exact Hbad.
    + exists w'. replace (attempt + S k) with (S (attempt + k)) by lia.
      split; [exact Hw'|]. simpl in Hs'; lia.
Qed.

(** The events and the result of one call, read off the two worlds. *)
Lemma fetch_page_run (start : Z) (w : World) (r : Result PageData) (w' : World) :
  fetch_page cfg net start w = (r, w') ->
  trace w' = since w w' ++ trace w
  /\ sent w' = sent w + List.length (requests_of (since w w'))
  /\ Forall (fetch_event cfg start) (since w w')
  /\ explains (answers net (sent w) (requests_of (since w w'))) r
  /\ (insecure cfg = false ->
      forall pre m post,
        answers net (sent w) (requests_of (since w w'))
        = pre ++ Fails (SSLError m) :: post ->
        post = [] /\ r = Raise (Propagated (SSLError m))
        /\ exists rq t, since w w' = Get rq :: t).
Proof.
  unfold fetch_page; intros H.
  destruct (fetch_attempts_run start (Z.to_nat (retry_attempts cfg)) 1 None w)
    as [new F].
  rewrite H in F. destruct F as (Ht & F).
  rewrite (since_app w w' new Ht). split; [exact Ht | exact F].
Qed.

End FetchFacts.

Section FetchClaims.
Import Ghdb Net Scraper Sample.

(** C3.  One call of [fetch_page], at any offset and from any point of a
    run.  (1) Whatever the mode and the back-off, a body that is returned is
    the answer to the last request of the call, and every request before it
    failed: it is the first success.  (2) When the first [k] requests end in
    a network error, an error status or an undecodable body, the back-off
    sleeps after them return, and request [k + 1] is within the budget and
    succeeds, its body is returned after exactly [k + 1] requests.  (3) When
    all [retry_attempts] requests fail in that way and every back-off sleep
    returns, the call raises the [RuntimeError] built from the failure of
    the last request, after exactly [retry_attempts] requests.  (4) When the
    first [k + 1] requests fail in that way within the budget, the sleeps
    after the first [k] return and the sleep after request [k + 1] raises,
    the call ends there with the exception of the sleep: no further request
    is sent and no [RuntimeError] is built.  (5) The sleep after the first
    attempt returns whatever the base, and with the default base 1.5 so do
    the sleeps of the first 57 attempts.  (6) With the default budget of 3
    and the default base, a remote end that fails twice and then answers is
    asked exactly 3 times, for one page, and the run returns its dictionary. *)
Theorem fetch_page_retries :
  (forall cfg net start w r w',
      fetch_page cfg net start w = (r, w') ->
      explains (answers net (sent w) (requests_of (since w w'))) r
      /\ sent w' = sent w + List.length (requests_of (since w w')))
  /\ (forall cfg net start w k d,
         k < Z.to_nat (retry_attempts cfg) ->
         (forall i, i < k ->
            exists e,
              net (sent w + i) (params cfg start (negb (insecure cfg))) = Fails e
              /\ is_transient e = true) ->
         (forall a, 1 <= a <= k -> sleep_raises cfg a = false) ->
         net (sent w + k) (params cfg start (negb (insecure cfg))) = Body d ->
         exists w', fetch_page cfg net start w = (Ret d, w')
                    /\ sent w' = sent w + S k)
  /\ (forall cfg net start w (errs : nat -> NetExc),
         (1 <= retry_attempts cfg)%Z ->
         (forall i, i < Z.to_nat (retry_attempts cfg) ->
            net (sent w + i) (params cfg start (negb (insecure cfg)))
            = Fails (errs i)
            /\ is_transient (errs i) = true) ->
         (forall a, 1 <= a <= Z.to_nat (retry_attempts cfg) ->
            sleep_raises cfg a = false) ->
         exists w',
           fetch_page cfg net start w
           = (Raise (RuntimeError start
                       (Some (errs (Z.to_nat (retry_attempts cfg) - 1)))), w')
           /\ sent w' = sent w + Z.to_nat (retry_attempts cfg))
  /\ (forall cfg net start w k,
         k < Z.to_nat (retry_attempts cfg) ->
         (forall i, i <= k ->
            exists e,
              net (sent w + i) (params cfg start (negb (insecure cfg))) = Fails e
              /\ is_transient e = true) ->
         (forall a, 1 <= a <= k -> sleep_raises cfg a = false) ->
         sleep_raises cfg (S k) = true ->
         exists w',
           fetch_page cfg net start w = (Raise (SleepError (S k)), w')
           /\ sent w' = sent w + S k)
  /\ (forall cfg, sleep_raises cfg 1 = false)
  /\ (forall a, a <= 57 -> sleep_raises default_config a = false)
  /\ (forall fuel,
         exists out w,
           retrieve_google_dorks default_config (fails_twice_then page_mixed) (S fuel)
           = Some (Ret out, w)
           /\ sent w = 3
           /\ pages_requested w = [0%Z]
           /\ Catalog.extracted_dorks (fst out)
              = ["intitle:index.of"; "inurl:admin"]%string).
Proof.
  refine (conj _ (conj _ (conj _ (conj _ (conj _ (conj _ _)))))).
  - intros cfg net start w r w' H.
    destruct (fetch_page_run cfg net start w r w' H) as (_ & Hs & _ & He & _).
    split; assumption.
  - intros cfg net start w k d Hk Hpre Hsl Hd.
    apply fetch_attempts_success; try assumption.
    intros i Hi; apply Hsl; lia.
  - intros cfg net start w errs Hn Hall Hsl.
    destruct (fetch_attempts_exhausted cfg net start (Z.to_nat (retry_attempts cfg))
                1 None w errs Hall) as (w' & Hw' & Hs').
    { intros i Hi; apply Hsl; lia. }
    exists w'; split; [|exact Hs'].
    unfold fetch_page; rewrite Hw'.
    destruct (Z.to_nat (retry_attempts cfg)) as [|t] eqn:Et; [lia|].
    rewrite Nat.sub_succ, Nat.sub_0_r; reflexivity.
  - intros cfg net start w k Hk Hpre Hsl Hbad.
    apply (fetch_attempts_sleep_error cfg net start k
             (Z.to_nat (retry_attempts cfg)) 1 None w Hk Hpre).
    + intros i Hi; apply Hsl; lia.
    + exact Hbad.
  - intros cfg; reflexivity.
  - intros a Ha. unfold sleep_raises, default_config, backoff_default; simpl.
    apply andb_false_intro2. apply Nat.ltb_ge; exact Ha.
  - intros fuel. unfold retrieve_google_dorks. cbn [loop].
    set (it := iteration _ _ _ _). vm_compute in it. subst it. cbv iota beta.
    eexists; eexists; split; [reflexivity|].
    repeat split; vm_compute; reflexivity.
Qed.

(** The conditional parts at concrete inputs: on the default configuration
    the remote end that fails twice and the one that always fails; with a
    base of -1.5 the one that always fails. *)
Lemma fetch_page_retries_witness :
  (exists w', fetch_page default_config (fails_twice_then page_mixed) 0 world0
              = (Ret page_mixed, w') /\ sent w' = 3)
  /\ (exists w', fetch_page default_config always_failing 0 world0
                 = (Raise (RuntimeError 0 (Some (RequestException "attempt 2"))), w')
                 /\ sent w' = 3)
  /\ (exists w', fetch_page negative_backoff_config always_failing 0 world0
                 = (Raise (SleepError 2), w')
                 /\ sent w' = 2)
  /\ explains
       (answers (fails_twice_then page_mixed) 0
          (requests_of
             (since world0
                (snd (fetch_page default_config (fails_twice_then page_mixed) 0 world0)))))
       (Ret page_mixed).
Proof.
  destruct fetch_page_retries as (Hfirst & Hok & Hall & Hbad & _ & Hdef & _).
  refine (conj _ (conj _ (conj _ _))).
  - apply (Hok default_config (fails_twice_then page_mixed) 0%Z world0 2 page_mixed).
    + vm_compute; lia.
    + intros i Hi; exists (RequestException "timed out"); split; [|reflexivity].
      destruct i as [|[|i]]; [reflexivity | reflexivity | lia].
    + intros a Ha; apply Hdef; lia.
    + reflexivity.
  - apply (Hall default_config always_failing 0%Z world0
             (fun n => RequestException ("attempt " ++ str_of_int (Z.of_nat n)))).
    + vm_compute; discriminate.
    + intros i Hi; split; reflexivity.
    + intros a Ha; apply Hdef. vm_compute in Ha. lia.
  - apply (Hbad negative_backoff_config always_failing 0%Z world0 1).
    + vm_compute; lia.
    + intros i Hi; eexists; split; reflexivity.
    + intros a Ha. assert (a = 1) as -> by lia. reflexivity.
    + reflexivity.
  - apply (Hfirst default_config (fails_twice_then page_mixed) 0%Z world0
             (Ret page_mixed)
             (snd (fetch_page default_config (fails_twice_then page_mixed) 0 world0))).
    reflexivity.
Defined.

(** With a budget of 3 and a base of -1.5 every request is answered by a
    transient failure, yet the call does not raise the [RuntimeError] of the
    exhausted budget: the sleep after the second failure raises, and the call
    ends with that exception after 2 requests.  With the same base the remote
    end that fails twice and then answers is asked only twice, and the run
    ends with the exception of the sleep instead of a dictionary. *)
Lemma fetch_page_retries_counterexample :
  retry_attempts negative_backoff_config = 3%Z
  /\ map (fun i => always_failing i (params negative_backoff_config 0 true)) [0; 1; 2]
     = [Fails (RequestException "attempt 0");
        Fails (RequestException "attempt 1");
        Fails (RequestException "attempt 2")]
  /\ fst (fetch_page negative_backoff_config always_failing 0 world0)
     = Raise (SleepError 2)
  /\ sent (snd (fetch_page negative_backoff_config always_failing 0 world0)) = 2
  /\ map (fun i => fails_twice_then page_mixed i (params negative_backoff_config 0 true))
         [0; 1; 2]
     = [Fails (RequestException "timed out");
        Fails (RequestException "timed out");
        Body page_mixed]
  /\ option_map fst
       (retrieve_google_dorks negative_backoff_config (fails_twice_then page_mixed) 5)
     = Some (Raise (SleepError 2))
  /\ option_map (fun x => sent (snd x))
       (retrieve_google_dorks negative_backoff_config (fails_twice_then page_mixed) 5)
     = Some 2.
Proof. repeat split; vm_compute; reflexivity. Qed.

End FetchClaims.

(** ** The main loop *)

Section CollectorFacts.
Import PyStr Ghdb Net Scraper.
Context {parser : HtmlParser}.
Variable cfg : Config.
Variable net : Network.

Lemma iteration_raise (st : Locals) (w : World) (e : Exc) (w1 : World) :
  fetch_page cfg net (start st) (emit (LogRequesting (start st)) w) = (Raise e, w1) ->
  iteration cfg net st w = Raised e w1.
Proof. intros H; unfold iteration; rewrite H; reflexivity. Qed.

(** Every step leaves the world of its call of [fetch_page], with the pause
    added when the loop goes on. *)
Lemma iteration_world (st : Locals) (w : World) :
  exists r w1,
    fetch_page cfg net (start st) (emit (LogRequesting (start st)) w) = (r, w1)
    /\ match iteration cfg net st w with
       | Break _ w' | Raised _ w' => w' = w1
       | Continue _ w' => w' = emit PoliteSleep w1
       end.
Proof.
  unfold iteration.
  destruct (fetch_page cfg net (start st) _) as [[d|e] w1];
    eexists; eexists; (split; [reflexivity|]); [|reflexivity].
  destruct (_ && _); [reflexivity|].
  destruct (data d) as [|row rows]; [reflexivity|].
  destruct (cap_reached _ _); [reflexivity|].
  destruct (Z.leb _ _); reflexivity.
Qed.

Lemma fetch_event_opted_in (s : Z) (e : Event) :
  fetch_event cfg s e -> opted_in cfg e.
Proof.
  destruct e as [s'|r|a|]; simpl; unfold opted_in; simpl; try discriminate.
  intros [_ H] Hv; apply H; apply negb_true_iff; exact Hv.
Qed.

Lemma iteration_opted_in (st : Locals) (w : World) :
  Forall (opted_in cfg) (trace w) ->
  match iteration cfg net st w with
  | Break _ w' | Raised _ w' | Continue _ w' => Forall (opted_in cfg) (trace w')
  end.
Proof.
  intros Hw.
  destruct (iteration_world st w) as (r & w1 & Hf & Hit).
  destruct (fetch_page_run cfg net _ _ _ _ Hf) as (Ht & _ & He & _).
  assert (H1 : Forall (opted_in cfg) (trace w1)).
  { rewrite Ht; apply Forall_app; split.
    - eapply Forall_impl; [|exact He]. intros e; apply fetch_event_opted_in.
    - simpl; constructor; [unfold opted_in; simpl; discriminate | exact Hw]. }
  destruct (iteration cfg net st w); subst; auto.
  simpl; constructor; [unfold opted_in; simpl; discriminate | exact H1].
Qed.

Lemma loop_opted_in (fuel : nat) :
  forall st w r w',
    loop cfg net fuel st w = Some (r, w') ->
    Forall (opted_in cfg) (trace w) -> Forall (opted_in cfg) (trace w').
Proof.
  induction fuel as [|fuel IH]; intros st w r w' H Hw; simpl in H; [discriminate|].
  pose proof (iteration_opted_in st w Hw) as Hi.
  destruct (iteration cfg net st w) as [st1 w1|st1 w1|e w1].
  - injection H as <- <-; exact Hi.
  - eapply IH; eauto.
  - injection H as <- <-; exact Hi.
Qed.


(** *** The loop variables *)

Lemma process_row_frame (st : Locals) (dork : Row) :
  total_dorks (process_row st dork) = total_dorks st
  /\ start (process_row st dork) = start st
  /\ pages (process_row st dork) = pages st.
Proof. unfold process_row; destruct (find_anchor _); repeat split. Qed.

Lemma process_rows_frame (rows : list Row) :
  forall st,
    total_dorks (process_rows st rows) = total_dorks st
    /\ start (process_rows st rows) = start st
    /\ pages (process_rows st rows) = pages st.
Proof.
  unfold process_rows; induction rows as [|r rows IH]; intros st; simpl; [auto|].
  destruct (IH (process_row st r)) as (-> & -> & ->). apply process_row_frame.
Qed.

Lemma process_row_set_total (t : Z) (st : Locals) (dork : Row) :
  process_row (set_total t st) dork = set_total t (process_row st dork).
Proof. unfold process_row; destruct (find_anchor _); reflexivity. Qed.

Lemma process_rows_set_total (t : Z) (rows : list Row) :
  forall st, process_rows (set_total t st) rows = set_total t (process_rows st rows).
Proof.
  unfold process_rows; induction rows as [|r rows IH]; intros st; simpl; [reflexivity|].
  rewrite process_row_set_total; apply IH.
Qed.

Lemma iteration_no_rows (st : Locals) (w : World) (d : PageData) (w1 : World) :
  fetch_page cfg net (start st) (emit (LogRequesting (start st)) w) = (Ret d, w1) ->
  data d = [] ->
  iteration cfg net st w = Break (set_total (total_after st d) st) w1.
Proof.
  intros H Hd; unfold iteration; rewrite H, Hd; fold (total_after st d).
  destruct (_ && _); reflexivity.
Qed.

Lemma iteration_zero_total (st : Locals) (w : World) (d : PageData) (w1 : World) :
  fetch_page cfg net (start st) (emit (LogRequesting (start st)) w) = (Ret d, w1) ->
  total_dorks st = None ->
  reported_total d = 0%Z ->
  iteration cfg net st w = Break (set_total 0 st) w1.
Proof.
  intros H Hn Hz; unfold iteration; rewrite H, Hn, Hz; reflexivity.
Qed.

Lemma iteration_rows (st : Locals) (w : World) (d : PageData) (w1 : World) :
  fetch_page cfg net (start st) (emit (LogRequesting (start st)) w) = (Ret d, w1) ->
  (total_dorks st = None -> reported_total d <> 0%Z) ->
  data d <> [] ->
  let t := total_after st d in
  let st' := advance (Z.of_nat (List.length (data d)))
                     (process_rows (set_total t st) (data d)) in
  iteration cfg net st w
  = if cap_reached cfg (pages st') then Break st' w1
    else if Z.leb t (start st') then Break st' w1
         else Continue st' (emit PoliteSleep w1).
Proof.
  intros H Hnz Hd; unfold iteration; rewrite H; fold (total_after st d).
  assert (E : (match total_dorks st with None => true | Some _ => false end
               && Z.eqb (total_after st d) 0) = false).
  { unfold total_after; destruct (total_dorks st); [reflexivity|]; simpl.
    apply Z.eqb_neq; auto. }
  rewrite E. destruct (data d) as [|r rows]; [congruence|]. reflexivity.
Qed.

(** What a pass that ends in [Break] or goes round again has done. *)
Lemma iteration_state (st : Locals) (w : World) :
  match iteration cfg net st w with
  | Break st' _ =>
      exists d w1,
        fetch_page cfg net (start st) (emit (LogRequesting (start st)) w) = (Ret d, w1)
        /\ total_dorks st' = Some (total_after st d)
  | Continue st' w' =>
      exists d w1,
        fetch_page cfg net (start st) (emit (LogRequesting (start st)) w) = (Ret d, w1)
        /\ w' = emit PoliteSleep w1
        /\ data d <> []
        /\ st' = advance (Z.of_nat (List.length (data d)))
                         (process_rows (set_total (total_after st d) st) (data d))
        /\ total_dorks st' = Some (total_after st d)
        /\ start st' = (start st + Z.of_nat (List.length (data d)))%Z
        /\ pages st' = (pages st + 1)%Z
        /\ (start st' < total_after st d)%Z
        /\ cap_reached cfg (pages st') = false
  | Raised e w' =>
      fetch_page cfg net (start st) (emit (LogRequesting (start st)) w) = (Raise e, w')
  end.
Proof.
  unfold iteration.
  destruct (fetch_page cfg net (start st) _) as [[d|e] w1]; [|reflexivity].
  fold (total_after st d).
  destruct (_ && _); [exists d, w1; split; reflexivity|].
  destruct (data d) as [|row rows] eqn:Ed; [exists d, w1; split; reflexivity|].
  set (st1 := advance _ _).
  assert (F : total_dorks st1 = Some (total_after st d)
              /\ start st1 = (start st + Z.of_nat (List.length (row :: rows)))%Z
              /\ pages st1 = (pages st + 1)%Z).
  { unfold st1, advance; cbn [total_dorks start pages].
    destruct (process_rows_frame (row :: rows) (set_total (total_after st d) st))
      as (-> & -> & ->). repeat split. }
  destruct F as (Ft & Fs & Fp).
  destruct (cap_reached cfg (pages st1)) eqn:Ec;
    [exists d, w1; split; [reflexivity | exact Ft]|].
  destruct (Z.leb _ _) eqn:El;
    [exists d, w1; split; [reflexivity | exact Ft]|].
  exists d, w1. apply Z.leb_gt in El. rewrite Ed.
  repeat split; auto; discriminate.
Qed.

(** *** Termination *)

Lemma loop_S (fuel : nat) (st : Locals) (w : World) :
  loop cfg net (S fuel) st w
  = match iteration cfg net st w with
    | Break st' w' => Some (Ret st', w')
    | Raised e w' => Some (Raise e, w')
    | Continue st' w' => loop cfg net fuel st' w'
    end.
Proof. reflexivity. Qed.

Lemma loop_more_fuel (fuel : nat) :
  forall st w res, loop cfg net fuel st w = Some res ->
                   loop cfg net (S fuel) st w = Some res.
Proof.
  induction fuel as [|fuel IH]; intros st w res H; [discriminate H|].
  rewrite loop_S in H; rewrite (loop_S (S fuel)).
  destruct (iteration cfg net st w) as [st1 w1|st1 w1|e w1]; auto.
Qed.

Lemma loop_fuel_enough (fuel : nat) :
  forall st w t,
    total_dorks st = Some t ->
    Z.to_nat (t - start st) < fuel ->
    exists res, loop cfg net fuel st w = Some res.
Proof.
  induction fuel as [|fuel IH]; intros st w t Ht Hf; [lia|].
  rewrite loop_S. pose proof (iteration_state st w) as Hi.
  destruct (iteration cfg net st w) as [st1 w1|st1 w1|e w1]; eauto.
  destruct Hi as (d & w0 & _ & _ & Hd & _ & Ht1 & Hs1 & _ & Hlt & _).
  unfold total_after in *; rewrite Ht in *.
  apply (IH st1 w1 t Ht1).
  assert (0 < List.length (data d)) by (destruct (data d); [congruence | simpl; lia]).
  lia.
Qed.

Lemma loop_terminates (st : Locals) (w : World) :
  exists fuel res, loop cfg net fuel st w = Some res.
Proof.
  pose proof (iteration_state st w) as Hi.
  destruct (iteration cfg net st w) as [st1 w1|st1 w1|e w1] eqn:E.
  - exists 1; eexists; rewrite loop_S, E; reflexivity.
  - destruct Hi as (d & w0 & _ & _ & _ & _ & Ht1 & _).
    destruct (loop_fuel_enough (S (Z.to_nat (total_after st d - start st1)))
                st1 w1 _ Ht1) as [res Hres]; [lia|].
    exists (S (S (Z.to_nat (total_after st d - start st1)))), res.
    rewrite loop_S, E. exact Hres.
  - exists 1; eexists; rewrite loop_S, E; reflexivity.
Qed.

(** *** The pages announced *)

Lemma pages_requested_emit_log (s : Z) (w : World) :
  pages_requested (emit (LogRequesting s) w) = pages_requested w ++ [s].
Proof. unfold pages_requested; simpl; rewrite flat_map_app; reflexivity. Qed.

Lemma pages_requested_emit_pause (w : World) :
  pages_requested (emit PoliteSleep w) = pages_requested w.
Proof.
  unfold pages_requested; simpl; rewrite flat_map_app; simpl; apply app_nil_r.
Qed.

Lemma pages_requested_fetch (s : Z) (w : World) (r : Result PageData) (w' : World) :
  fetch_page cfg net s w = (r, w') -> pages_requested w' = pages_requested w.
Proof.
  intros H. destruct (fetch_page_run cfg net s w r w' H) as (Ht & _ & He & _).
  unfold pages_requested; rewrite Ht, rev_app_distr, flat_map_app.
  apply Forall_rev in He. induction He as [|e l He _ IH]; [apply app_nil_r|].
  destruct e; simpl in He |- *; try contradiction; exact IH.
Qed.

(** [total_dorks], once set, goes through every later pass unchanged. *)
Lemma iteration_keeps_total (st : Locals) (w : World) (t : Z) :
  total_dorks st = Some t ->
  match iteration cfg net st w with
  | Break st' _ | Continue st' _ => total_dorks st' = Some t
  | Raised _ _ => True
  end.
Proof.
  intros Ht. pose proof (iteration_state st w) as Hi.
  destruct (iteration cfg net st w) as [st1 w1|st1 w1|e w1]; [| |exact I].
  - destruct Hi as (d & w0 & _ & ->); unfold total_after; rewrite Ht; reflexivity.
  - destruct Hi as (d & w0 & _ & _ & _ & _ & -> & _);
      unfold total_after; rewrite Ht; reflexivity.
Qed.

Lemma loop_keeps_total (fuel : nat) :
  forall st w t st' w',
    total_dorks st = Some t ->
    loop cfg net fuel st w = Some (Ret st', w') ->
    total_dorks st' = Some t.
Proof.
  induction fuel as [|fuel IH]; intros st w t st' w' Ht H; [discriminate H|].
  rewrite loop_S in H. pose proof (iteration_keeps_total st w t Ht) as Hi.
  destruct (iteration cfg net st w) as [st1 w1|st1 w1|e w1].
  - injection H as <- _; exact Hi.
  - eapply IH; eauto.
  - discriminate H.
Qed.

Lemma loop_total_from_first (fuel : nat) (st : Locals) (w : World)
      (d : PageData) (w1 : World) (st' : Locals) (w' : World) :
  fetch_page cfg net (start st) (emit (LogRequesting (start st)) w) = (Ret d, w1) ->
  loop cfg net fuel st w = Some (Ret st', w') ->
  total_dorks st' = Some (total_after st d).
Proof.
  intros Hf H. destruct fuel as [|fuel]; [discriminate H|].
  rewrite loop_S in H. pose proof (iteration_state st w) as Hi.
  destruct (iteration cfg net st w) as [st1 w2|st1 w2|e w2].
  - injection H as <- _. destruct Hi as (d' & w0 & Hf' & ->).
    rewrite Hf in Hf'; injection Hf' as <- _; reflexivity.
  - destruct Hi as (d' & w0 & Hf' & _ & _ & _ & Ht & _).
    rewrite Hf in Hf'; injection Hf' as <- _.
    eapply loop_keeps_total; eauto.
  - discriminate H.
Qed.

End CollectorFacts.

(** ** What the row loop keeps *)

Section IngestFacts.
Import PyStr Ghdb Net Scraper.
Context {parser : HtmlParser}.

Lemma all_rows_append (cid : Z) (row : Row) (d : CategoryDict) :
  cd_mem cid d = true ->
  Permutation (all_rows (cd_append cid row d)) (all_rows d ++ [row]).
Proof.
  unfold cd_mem, all_rows. induction d as [|[k b] d IH]; simpl; [discriminate|].
  destruct (Z.eqb cid k) eqn:E; simpl.
  - intros _. rewrite <- !app_assoc. apply Permutation_app_head.
    apply Permutation_app_comm.
  - intros H. rewrite <- app_assoc. apply Permutation_app_head. exact (IH H).
Qed.

Lemma cd_mem_snoc (cid : Z) (b : Bucket) (d : CategoryDict) :
  cd_mem cid (d ++ [(cid, b)]) = true.
Proof.
  unfold cd_mem. induction d as [|[k b'] d IH]; simpl.
  - rewrite Z.eqb_refl; reflexivity.
  - destruct (Z.eqb cid k); [reflexivity | exact IH].
Qed.

Lemma process_row_kept (st : Locals) (dork : Row) :
  extracted_dorks (process_row st dork) = extracted_dorks st ++ kept_dorks [dork]
  /\ Permutation (all_rows (category_dict (process_row st dork)))
                 (all_rows (category_dict st) ++ kept_rows [dork]).
Proof.
  unfold process_row, kept_dorks, kept_rows; simpl.
  destruct (find_anchor (title_html dork)) as [| |child];
    try (rewrite !app_nil_r; split; [reflexivity | apply Permutation_refl]).
  cbn [extracted_dorks category_dict]. rewrite !app_nil_r. split.
  - destruct (is_empty (strip child)); [rewrite app_nil_r|]; reflexivity.
  - destruct (cd_mem (category_id dork) (category_dict st)) eqn:Em.
    + apply all_rows_append; exact Em.
    + eapply Permutation_trans; [apply all_rows_append, cd_mem_snoc|].
      unfold all_rows; rewrite flat_map_app; simpl; rewrite !app_nil_r.
      apply Permutation_refl.
Qed.

Lemma process_rows_kept (rows : list Row) :
  forall st,
    extracted_dorks (process_rows st rows) = extracted_dorks st ++ kept_dorks rows
    /\ Permutation (all_rows (category_dict (process_rows st rows)))
                   (all_rows (category_dict st) ++ kept_rows rows).
Proof.
  unfold process_rows. induction rows as [|r rows IH]; intros st; cbn [fold_left].
  - unfold kept_dorks, kept_rows; simpl.
    rewrite !app_nil_r; split; [reflexivity | apply Permutation_refl].
  - destruct (IH (process_row st r)) as [He Hp].
    destruct (process_row_kept st r) as [He1 Hp1].
    assert (Ed : kept_dorks (r :: rows) = kept_dorks [r] ++ kept_dorks rows)
      by (unfold kept_dorks; simpl; rewrite app_nil_r; reflexivity).
    assert (Er : kept_rows (r :: rows) = kept_rows [r] ++ kept_rows rows)
      by (unfold kept_rows; simpl; rewrite app_nil_r; reflexivity).
    rewrite Ed, Er.
    split.
    + rewrite He, He1, <- app_assoc; reflexivity.
    + eapply Permutation_trans; [exact Hp|].
      rewrite app_assoc. apply Permutation_app_tail. exact Hp1.
Qed.

End IngestFacts.

(** ** Claims about the fetcher policy and the pagination *)

Section CollectorClaims.
Import Ghdb Net Scraper Sample.

(** C4.  Certificates.  (1) In every run, a request sent without
    verification implies that the caller passed [insecure]; with the flag
    off, no such request is in the trace.  (2) With the flag off, a
    certificate failure among the answers of a call of [fetch_page] is the
    answer to its last request: the call raises that very [SSLError], and
    the request is the last event of the call, with no back-off and no
    other request after it.  (3) The main loop lets the exception of
    [fetch_page] through at once.  (4) On a remote end whose certificate
    never verifies, the default run ends in the [SSLError] after one
    request. *)
Theorem tls_never_downgraded :
  (forall (parser : HtmlParser) cfg net fuel r w,
      retrieve_google_dorks cfg net fuel = Some (r, w) ->
      forall e, In e (trace w) -> is_insecure_get e = true -> insecure cfg = true)
  /\ (forall cfg net start w r w',
         insecure cfg = false ->
         fetch_page cfg net start w = (r, w') ->
         forall pre m post,
           answers net (sent w) (requests_of (since w w'))
           = pre ++ Fails (SSLError m) :: post ->
           post = [] /\ r = Raise (Propagated (SSLError m))
           /\ exists rq t, since w w' = Get rq :: t)
  /\ (forall (parser : HtmlParser) cfg net fuel st w e w1,
         fetch_page cfg net (start st) (emit (LogRequesting (start st)) w)
         = (Raise e, w1) ->
         loop cfg net (S fuel) st w = Some (Raise e, w1))
  /\ (forall fuel,
         retrieve_google_dorks default_config tls_broken (S fuel)
         = Some (Raise (Propagated (SSLError "certificate verify failed")),
                 {| sent := 1;
                    trace := [Get (params default_config 0 true);
                              LogRequesting 0] |})).
Proof.
  repeat apply conj.
  - intros parser cfg net fuel r w H e He.
    unfold retrieve_google_dorks in H.
    destruct (loop cfg net fuel locals0 world0) as [[r0 w0]|] eqn:El;
      [|discriminate H].
    assert (Hw : Forall (opted_in cfg) (trace w0))
      by (eapply loop_opted_in; [exact El | constructor]).
    assert (w0 = w) by (destruct r0; injection H; auto). subst w0.
    rewrite Forall_forall in Hw. exact (Hw e He).
  - intros cfg net start w r w' Hi H.
    destruct (fetch_page_run cfg net start w r w' H) as (_ & _ & _ & _ & Hssl).
    exact (Hssl Hi).
  - intros parser cfg net fuel st w e w1 H.
    rewrite loop_S, (iteration_raise cfg net st w e w1 H); reflexivity.
  - intros fuel. unfold retrieve_google_dorks. rewrite loop_S.
    set (it := iteration _ _ _ _). vm_compute in it. subst it. reflexivity.
Qed.

(** Part (1) on a run that was told to skip verification, parts (2) and
    (3) on the remote end whose certificate never verifies. *)
Lemma tls_never_downgraded_witness :
  insecure insecure_config = true
  /\ (([] : list Outcome) = []
      /\ @Raise PageData (Propagated (SSLError "certificate verify failed"))
         = Raise (Propagated (SSLError "certificate verify failed"))
      /\ exists rq t,
           since world0
                 {| sent := 1; trace := [Get (params default_config 0 true)] |}
           = Get rq :: t)
  /\ loop default_config tls_broken 1 locals0 world0
     = Some (Raise (Propagated (SSLError "certificate verify failed")),
             {| sent := 1;
                trace := [Get (params default_config 0 true); LogRequesting 0] |}).
Proof.
  destruct tls_never_downgraded as (Hopt & Hssl & Hloop & _).
  split; [|split].
  - pose proof (Hopt toy_parser insecure_config (always page_mixed) 1) as H1.
    vm_compute in H1.
    apply (H1 _ _ eq_refl (Get (params insecure_config 0 false)));
      [left; reflexivity | reflexivity].
  - apply Hssl with (cfg := default_config) (net := tls_broken) (start := 0%Z)
                      (pre := []) (m := "certificate verify failed"%string).
    + reflexivity.
    + vm_compute; reflexivity.
    + vm_compute; reflexivity.
  - apply (Hloop toy_parser default_config tls_broken 0 locals0 world0).
    vm_compute; reflexivity.
Defined.

(** C5.  When the first page that is fetched reports no record, the loop
    ends there, for any amount of fuel: one page has been announced, at
    offset 0, nothing was extracted, no category exists, the reported total
    is 0, and the world is the one the first call of [fetch_page] left. *)
Theorem zero_total_stops_after_one_page
        (parser : HtmlParser) (cfg : Config) (net : Network)
        (d : PageData) (w1 : World) (fuel : nat) :
  fetch_page cfg net 0 (emit (LogRequesting 0) world0) = (Ret d, w1) ->
  reported_total d = 0%Z ->
  retrieve_google_dorks cfg net (S fuel)
  = Some (Ret ({| Catalog.total_dorks := 0;
                  Catalog.extracted_dorks := [];
                  Catalog.category_dict := [] |},
               writes cfg [] []), w1)
  /\ pages_requested w1 = [0%Z].
Proof.
  intros Hf Hz. split.
  - unfold retrieve_google_dorks. rewrite loop_S.
    rewrite (iteration_zero_total cfg net locals0 world0 d w1 Hf eq_refl Hz).
    reflexivity.
  - rewrite (pages_requested_fetch cfg net _ _ _ _ Hf). reflexivity.
Qed.

Lemma zero_total_stops_after_one_page_witness :
  retrieve_google_dorks all_outputs (always page_empty_total) 1
  = Some (Ret ({| Catalog.total_dorks := 0;
                  Catalog.extracted_dorks := [];
                  Catalog.category_dict := [] |},
               writes all_outputs [] []),
          {| sent := 1;
             trace := [Get (params all_outputs 0 true); LogRequesting 0] |})
  /\ pages_requested
       {| sent := 1;
          trace := [Get (params all_outputs 0 true); LogRequesting 0] |}
     = [0%Z].
Proof.
  apply (zero_total_stops_after_one_page toy_parser all_outputs
           (always page_empty_total) page_empty_total).
  - vm_compute; reflexivity.
  - reflexivity.
Defined.

(** C7.  The reported total.  (1) A pass that finds [total_dorks] set
    leaves it as it is, whatever the page says.  (2) The row loop never
    writes it.  (3) A loop that starts with [total_dorks] unset and whose
    first call of [fetch_page] returns a body ends with the total that body
    reports.  (4) So the dictionary a run returns carries the total of the
    first page that was fetched.  (5) It is not a count of what was
    extracted: the run below reports 5 and extracted 2.  (6) Every run
    ends: with enough fuel the function returns or raises. *)
Theorem total_set_once :
  (forall (parser : HtmlParser) cfg net st w t,
      total_dorks st = Some t ->
      match iteration cfg net st w with
      | Break st' _ | Continue st' _ => total_dorks st' = Some t
      | Raised _ _ => True
      end)
  /\ (forall (parser : HtmlParser) st rows,
         total_dorks (process_rows st rows) = total_dorks st)
  /\ (forall (parser : HtmlParser) cfg net fuel st w d w1 st' w',
         total_dorks st = None ->
         fetch_page cfg net (start st) (emit (LogRequesting (start st)) w)
         = (Ret d, w1) ->
         loop cfg net fuel st w = Some (Ret st', w') ->
         total_dorks st' = Some (reported_total d))
  /\ (forall (parser : HtmlParser) cfg net fuel d1 w1 out w,
         fetch_page cfg net 0 (emit (LogRequesting 0) world0) = (Ret d1, w1) ->
         retrieve_google_dorks cfg net fuel = Some (Ret out, w) ->
         Catalog.total_dorks (fst out) = reported_total d1)
  /\ (forall fuel,
         exists out w,
           retrieve_google_dorks default_config first_then_empty (S (S fuel))
           = Some (Ret out, w)
           /\ Catalog.total_dorks (fst out) = 5%Z
           /\ List.length (Catalog.extracted_dorks (fst out)) = 2)
  /\ (forall (parser : HtmlParser) cfg net,
         exists fuel res, retrieve_google_dorks cfg net fuel = Some res).
Proof.
  repeat apply conj.
  - intros parser cfg net st w t; apply iteration_keeps_total.
  - intros parser st rows; apply process_rows_frame.
  - intros parser cfg net fuel st w d w1 st' w' Hn Hf Hl.
    rewrite (loop_total_from_first cfg net fuel st w d w1 st' w' Hf Hl).
    unfold total_after; rewrite Hn; reflexivity.
  - intros parser cfg net fuel d1 w1 out w Hf H.
    unfold retrieve_google_dorks in H.
    destruct (loop cfg net fuel locals0 world0) as [[[st'|e] w']|] eqn:El;
      try discriminate H.
    injection H as <- _. simpl.
    rewrite (loop_total_from_first cfg net fuel locals0 world0 d1 w1 st' w' Hf El).
    reflexivity.
  - intros fuel. unfold retrieve_google_dorks. rewrite loop_S.
    set (it := iteration _ _ _ _). vm_compute in it. subst it. cbv iota beta.
    rewrite loop_S.
    set (it := iteration _ _ _ _). vm_compute in it. subst it. cbv iota beta.
    eexists; eexists; split; [reflexivity|].
    split; vm_compute; reflexivity.
  - intros parser cfg net.
    destruct (loop_terminates cfg net locals0 world0) as (fuel & [[st|e] w] & H);
      exists fuel; unfold retrieve_google_dorks; rewrite H; eexists; reflexivity.
Qed.

(** C9.  A page cap of 0.  (1) The cap test is false at every page count.
    (2) The run is, result and trace, the run without a cap.  (3) A pass
    that ends the loop under a cap of 0 does so for one of the other three
    reasons: the first page reports no record, the page has no row, or the
    offset has reached the total. *)
Theorem max_pages_zero_is_no_cap :
  (forall cfg p, cap_reached (with_max_pages (Some 0%Z) cfg) p = false)
  /\ (forall (parser : HtmlParser) cfg net fuel,
         retrieve_google_dorks (with_max_pages (Some 0%Z) cfg) net fuel
         = retrieve_google_dorks (with_max_pages None cfg) net fuel)
  /\ (forall (parser : HtmlParser) cfg net st w st' w',
         iteration (with_max_pages (Some 0%Z) cfg) net st w = Break st' w' ->
         exists d w1,
           fetch_page cfg net (start st) (emit (LogRequesting (start st)) w)
           = (Ret d, w1)
           /\ ((total_dorks st = None /\ reported_total d = 0%Z)
               \/ data d = []
               \/ (total_after st d <= start st')%Z)).
Proof.
  repeat apply conj.
  - intros cfg p; reflexivity.
  - intros parser cfg net fuel. unfold retrieve_google_dorks.
    assert (Hl : forall st w,
               loop (with_max_pages (Some 0%Z) cfg) net fuel st w
               = loop (with_max_pages None cfg) net fuel st w).
    { induction fuel as [|fuel IH]; intros st w; [reflexivity|].
      rewrite !loop_S.
      change (iteration (with_max_pages (Some 0%Z) cfg) net st w)
        with (iteration (with_max_pages None cfg) net st w).
      destruct (iteration _ net st w); auto. }
    rewrite Hl. reflexivity.
  - intros parser cfg net st w st' w'. unfold iteration.
    change (fetch_page (with_max_pages (Some 0%Z) cfg) net)
      with (fetch_page cfg net).
    destruct (fetch_page cfg net (start st) _) as [[d|e] w1]; [|discriminate].
    fold (total_after st d). intros H. exists d, w1. split; [reflexivity|].
    destruct (total_dorks st) as [t|] eqn:Et; simpl in H.
    + destruct (data d) as [|row rows]; [right; left; reflexivity|].
      right; right.
      destruct (Z.leb _ _) eqn:El in H; [|discriminate H].
      injection H as <- _. apply Z.leb_le in El. exact El.
    + destruct (Z.eqb (total_after st d) 0) eqn:Ez.
      * left; split; [reflexivity|]. apply Z.eqb_eq in Ez.
        unfold total_after in Ez; rewrite Et in Ez; exact Ez.
      * destruct (data d) as [|row rows]; [right; left; reflexivity|].
        right; right.
        destruct (Z.leb _ _) eqn:El in H; [|discriminate H].
        injection H as <- _. apply Z.leb_le in El. exact El.
Qed.

(** Parts (1), (3) and (4) on the default run against [first_then_empty]:
    the second pass, the loop and the whole function. *)
Lemma total_set_once_witness :
  match iteration default_config first_then_empty after_page_one
                  (emit PoliteSleep world_page_one) with
  | Break st' _ | Continue st' _ => total_dorks st' = Some 5%Z
  | Raised _ _ => True
  end
  /\ total_dorks (set_total 5 after_page_one)
     = Some (reported_total page_two_of_five)
  /\ Catalog.total_dorks
       (fst (finish default_config (set_total 5 after_page_one)))
     = reported_total page_two_of_five.
Proof.
  destruct total_set_once as (Hkeep & _ & Hloop & Hrun & _).
  repeat apply conj.
  - apply (Hkeep toy_parser default_config first_then_empty after_page_one
             (emit PoliteSleep world_page_one) 5%Z).
    vm_compute; reflexivity.
  - apply (Hloop toy_parser default_config first_then_empty 2 locals0 world0
             page_two_of_five world_page_one
             (set_total 5 after_page_one) world_page_two).
    + reflexivity.
    + vm_compute; reflexivity.
    + vm_compute; reflexivity.
  - apply (Hrun toy_parser default_config first_then_empty 2
             page_two_of_five world_page_one
             (finish default_config (set_total 5 after_page_one))
             world_page_two).
    + vm_compute; reflexivity.
    + vm_compute; reflexivity.
Defined.

(** Part (3) on a page of three rows that reports three records. *)
Lemma max_pages_zero_is_no_cap_witness :
  exists d w1,
    fetch_page default_config (always page_mixed) (start locals0)
               (emit (LogRequesting (start locals0)) world0) = (Ret d, w1)
    /\ ((total_dorks locals0 = None /\ reported_total d = 0%Z)
        \/ data d = []
        \/ (total_after locals0 d
            <= start (advance 3 (process_rows (set_total 3 locals0)
                                              (data page_mixed))))%Z).
Proof.
  apply (proj2 (proj2 max_pages_zero_is_no_cap) toy_parser default_config
               (always page_mixed) locals0 world0
               (advance 3 (process_rows (set_total 3 locals0) (data page_mixed)))
               world_page_one).
  vm_compute; reflexivity.
Defined.

End CollectorClaims.

(** ** Rows, buckets and the files *)

Section BucketFacts.
Import PyStr Ghdb Net Scraper.
Context {parser : HtmlParser}.

Lemma cd_get_append_same (cid : Z) (row : Row) (d : CategoryDict) :
  cd_get cid (cd_append cid row d)
  = match cd_get cid d with
    | Some b => Some {| category_name := category_name b;
                        dorks := dorks b ++ [row] |}
    | None => None
    end.
Proof.
  induction d as [|[k b] d IH]; simpl; [reflexivity|].
  destruct (Z.eqb cid k) eqn:E; simpl; rewrite E; [reflexivity | exact IH].
Qed.

Lemma cd_get_append_other (k cid : Z) (row : Row) (d : CategoryDict) :
  k <> cid -> cd_get k (cd_append cid row d) = cd_get k d.
Proof.
  intros Hne; induction d as [|[k' b] d IH]; simpl; [reflexivity|].
  destruct (Z.eqb cid k') eqn:E; simpl.
  - apply Z.eqb_eq in E; subst k'.
    destruct (Z.eqb_spec k cid); [contradiction | reflexivity].
  - destruct (Z.eqb k k'); [reflexivity | exact IH].
Qed.

Lemma cd_get_snoc (k cid : Z) (b : Bucket) (d : CategoryDict) :
  cd_get k (d ++ [(cid, b)])
  = match cd_get k d with
    | Some b' => Some b'
    | None => if Z.eqb k cid then Some b else None
    end.
Proof.
  induction d as [|[k' b'] d IH]; simpl; [reflexivity|].
  destruct (Z.eqb k k'); [reflexivity | exact IH].
Qed.

(** The bucket of the row after [process_row], when the row has an anchor
    with a child. *)
Lemma process_row_bucket (st : Locals) (dork : Row) (child : string) :
  find_anchor (title_html dork) = AnchorChild child ->
  cd_get (category_id dork) (category_dict (process_row st dork))
  = Some {| category_name :=
              match cd_get (category_id dork) (category_dict st) with
              | Some b => category_name b
              | None => category_title dork
              end;
            dorks :=
              match cd_get (category_id dork) (category_dict st) with
              | Some b => dorks b
              | None => []
              end ++ [set_url_title (title_html dork) dork] |}.
Proof.
  intros Ha; unfold process_row; rewrite Ha; cbn [category_dict].
  rewrite cd_get_append_same. unfold cd_mem.
  destruct (cd_get (category_id dork) (category_dict st)) as [b|] eqn:Eg.
  - rewrite Eg; reflexivity.
  - rewrite cd_get_snoc, Eg, Z.eqb_refl; reflexivity.
Qed.

Lemma process_row_other_bucket (st : Locals) (dork : Row) (k : Z) :
  k <> category_id dork ->
  cd_get k (category_dict (process_row st dork)) = cd_get k (category_dict st).
Proof.
  intros Hne; unfold process_row.
  destruct (find_anchor (title_html dork)); try reflexivity.
  cbn [category_dict]. rewrite cd_get_append_other by exact Hne.
  destruct (cd_mem _ _); [reflexivity|].
  rewrite cd_get_snoc. destruct (cd_get k (category_dict st)); [reflexivity|].
  destruct (Z.eqb_spec k (category_id dork)); [contradiction | reflexivity].
Qed.

Lemma anchor_text_stored (dork : Row) (child : string) :
  find_anchor (title_html dork) = AnchorChild child ->
  anchor_text (set_url_title (title_html dork) dork) = Some (strip child).
Proof. intros Ha; unfold anchor_text; simpl; rewrite Ha; reflexivity. Qed.

End BucketFacts.

Section ExportClaims.
Import PyStr Ghdb Net Scraper Sample.

(** C10.  (1) A row whose anchor has a first child that strips to the empty
    string leaves the list of extracted dorks as it was and is appended, with
    its title normalised, to the bucket of its category (created if need
    be); the lines written for that bucket are the lines written before,
    followed by one empty line.  (2) A row without an anchor leaves every
    variable as it was.  (3) A page with a dork, a blank anchor and a title
    without anchor: one dork is extracted, the file of the category of the
    blank anchor consists of one empty line, and its bucket holds one
    row. *)
Theorem blank_anchor_kept_in_bucket :
  (forall (parser : HtmlParser) st dork child,
      find_anchor (title_html dork) = AnchorChild child ->
      strip child = EmptyString ->
      let old := cd_get (category_id dork) (category_dict st) in
      extracted_dorks (process_row st dork) = extracted_dorks st
      /\ exists b',
          cd_get (category_id dork) (category_dict (process_row st dork)) = Some b'
          /\ dorks b'
             = match old with Some b => dorks b | None => [] end
               ++ [set_url_title (title_html dork) dork]
          /\ category_lines b'
             = match old with Some b => category_lines b | None => [] end
               ++ [EmptyString])
  /\ (forall (parser : HtmlParser) st dork,
         find_anchor (title_html dork) = NoAnchor ->
         process_row st dork = st)
  /\ (forall fuel,
         exists cat files w,
           retrieve_google_dorks all_outputs (always page_blank) (S fuel)
           = Some (Ret (cat, files), w)
           /\ Catalog.extracted_dorks cat = ["intitle:index.of"%string]
           /\ In {| file_name := "file_containing_passwords.dorks"%string;
                    content := Lines [EmptyString] |} files
           /\ In {| file_name := "all_google_dorks.txt"%string;
                    content := Lines ["intitle:index.of"%string] |} files
           /\ option_map (fun b => List.length (dorks b))
                         (cd_get 9 (Catalog.category_dict cat)) = Some 1).
Proof.
  repeat apply conj.
  - intros parser st dork child Ha Hs old. split.
    + unfold process_row; rewrite Ha, Hs; reflexivity.
    + eexists; split; [apply (process_row_bucket st dork child Ha)|].
      cbn [dorks]. split; [reflexivity|].
      unfold category_lines; cbn [dorks]. rewrite flat_map_app; simpl.
      rewrite (anchor_text_stored dork child Ha), Hs.
      fold old. destruct old; reflexivity.
  - intros parser st dork Ha. unfold process_row; rewrite Ha; reflexivity.
  - intros fuel. unfold retrieve_google_dorks. rewrite loop_S.
    set (it := iteration _ _ _ _). vm_compute in it. subst it. cbv iota beta.
    eexists; eexists; eexists; split; [reflexivity|].
    vm_compute. repeat split; auto 10.
Qed.

(** Parts (1) and (2) on the two rows of the sample page, before any other
    row was seen. *)
Lemma blank_anchor_kept_in_bucket_witness :
  (extracted_dorks (process_row locals0 row_blank) = extracted_dorks locals0
   /\ exists b',
       cd_get (category_id row_blank)
              (category_dict (process_row locals0 row_blank)) = Some b'
       /\ dorks b'
          = match cd_get (category_id row_blank) (category_dict locals0) with
            | Some b => dorks b
            | None => []
            end ++ [set_url_title (title_html row_blank) row_blank]
       /\ category_lines b'
          = match cd_get (category_id row_blank) (category_dict locals0) with
            | Some b => category_lines b
            | None => []
            end ++ [EmptyString])
  /\ process_row locals0 row_plain = locals0.
Proof.
  destruct blank_anchor_kept_in_bucket as (Hblank & Hplain & _).
  split.
  - apply (Hblank toy_parser locals0 row_blank " "%string); reflexivity.
  - apply (Hplain toy_parser locals0 row_plain); reflexivity.
Defined.

(** C1.  (1) The CSV has one data row per de-duplicated dork, in the order
    of that list.  (2) The category of a row is not the category of the
    first row that held the dork.  On the page of three rows below,
    [inurl:admin] is met first in a row of category 2, and then in a row of
    category 1, a category opened by an earlier row; the CSV says
    category 1, the head of the dictionary. *)
Theorem csv_attribution_follows_dictionary_order :
  (forall (parser : HtmlParser) cd extracted,
      map (fun r => fst (fst r)) (csv_rows cd extracted) = extracted)
  /\ (forall fuel,
         exists cat files w,
           retrieve_google_dorks all_outputs (always page_mixed) (S fuel)
           = Some (Ret (cat, files), w)
           /\ In {| file_name := "ghdb.csv"%string;
                    content :=
                      CsvRows csv_header
                              [("intitle:index.of", 1%Z, "Footholds");
                               ("inurl:admin", 1%Z, "Footholds")]%string |}
                 files
           /\ first_category_in_scan (data page_mixed) "inurl:admin"
              = Some 2%Z).
Proof.
  split.
  - intros parser cd extracted. unfold csv_rows. rewrite map_map.
    induction extracted as [|d l IH]; simpl; [reflexivity|].
    rewrite IH. unfold csv_row.
    destruct (lookup d (dork_to_cat cd)) as [[cid cname]|]; reflexivity.
  - intros fuel. unfold retrieve_google_dorks. rewrite loop_S.
    set (it := iteration _ _ _ _). vm_compute in it. subst it. cbv iota beta.
    eexists; eexists; eexists; split; [reflexivity|].
    vm_compute. repeat split; auto 10.
Qed.

End ExportClaims.

(** ** More on [fetch_page] *)

Section FetchMore.
Import Ghdb Net Scraper Sample.

Variable cfg : Config.
Variable net : Network.

(** What the [try] statement adds to the trace: one request, or two when
    [insecure] is set. *)
Lemma try_request_shape (start : Z) (w : World) :
  let r1 := params cfg start (negb (insecure cfg)) in
  match try_request cfg net start w with
  | Done _ w' | Failed _ w' =>
      (trace w' = Get r1 :: trace w /\ sent w' = S (sent w))
      \/ (insecure cfg = true
          /\ trace w' = Get r1 :: Get r1 :: trace w /\ sent w' = S (S (sent w)))
  end.
Proof.
  unfold try_request, send.
  destruct (insecure cfg) eqn:Ei; simpl;
    destruct (net (sent w) _) as [d|[m|m|m|m|]]; simpl; auto.
  destruct (net (S (sent w)) _) as [d|[m2|m2|m2|m2|]]; simpl; auto.
Qed.

Lemma fetch_attempts_budget (start : Z) (todo : nat) :
  forall attempt last_err w,
    let '(_, w') := fetch_attempts cfg net start todo attempt last_err w in
    exists new,
      trace w' = new ++ trace w
      /\ Forall (fun e => match e with
                          | Get r => r = params cfg start (negb (insecure cfg))
                          | BackoffSleep a => attempt <= a < attempt + todo
                          | _ => False
                          end) new
      /\ sent w' <= sent w + (if insecure cfg then 2 else 1) * todo
      /\ List.length (filter (fun e => negb (is_get e)) new) <= todo.
Proof.
  induction todo as [|todo IH]; intros attempt last_err w; simpl.
  - exists []; simpl; repeat split; try lia. constructor.
  - pose proof (try_request_shape start w) as Hs. cbv zeta in Hs.
    destruct (try_request cfg net start w) as [r w1|e w1].
    + destruct Hs as [[Ht Hn]|[Hi [Ht Hn]]].
      * exists [Get (params cfg start (negb (insecure cfg)))].
        rewrite Ht, Hn; simpl; repeat split; try (destruct (insecure cfg); lia).
        repeat constructor.
      * exists [Get (params cfg start (negb (insecure cfg)));
                Get (params cfg start (negb (insecure cfg)))].
        rewrite Ht, Hn, Hi; simpl; repeat split; try lia.
        repeat constructor.
    + destruct (sleep_raises cfg attempt).
      { destruct Hs as [[Ht Hn]|[Hi [Ht Hn]]].
        * exists [Get (params cfg start (negb (insecure cfg)))].
          rewrite Ht, Hn; simpl; repeat split; try (destruct (insecure cfg); lia).
          repeat constructor.
        * exists [Get (params cfg start (negb (insecure cfg)));
                  Get (params cfg start (negb (insecure cfg)))].
          rewrite Ht, Hn, Hi; simpl; repeat split; try lia.
          repeat constructor. }
      specialize (IH (S attempt) (Some e) (emit (BackoffSleep attempt) w1)).
      destruct (fetch_attempts cfg net start todo (S attempt) (Some e) _) as [r w'].
      destruct IH as (new & Ht' & Hf & Hn' & Hl). simpl in Ht', Hn'.
      assert (Hw : Forall (fun e => match e with
                          | Get r => r = params cfg start (negb (insecure cfg))
                          | BackoffSleep a => attempt <= a < attempt + S todo
                          | _ => False
                          end) new).
      { eapply Forall_impl; [|exact Hf]. intros [s|r0|a|]; simpl; auto; lia. }
      destruct Hs as [[Ht Hn]|[Hi [Ht Hn]]].
      * exists (new ++ [BackoffSleep attempt;
                        Get (params cfg start (negb (insecure cfg)))]).
        rewrite Ht', Ht, <- app_assoc. split; [reflexivity|].
        split; [apply Forall_app; split; [exact Hw|]; repeat constructor; lia|].
        rewrite filter_app, length_app; simpl.
        split; [destruct (insecure cfg); lia | lia].
      * exists (new ++ [BackoffSleep attempt;
                        Get (params cfg start (negb (insecure cfg)));
                        Get (params cfg start (negb (insecure cfg)))]).
        rewrite Ht', Ht, <- app_assoc. split; [reflexivity|].
        split; [apply Forall_app; split; [exact Hw|]; repeat constructor; lia|].
        rewrite filter_app, length_app; simpl.
        rewrite Hi in *. split; lia.
Qed.

Lemma fetch_attempts_schedule (start : Z) (todo : nat) :
  forall attempt last_err w,
    (forall i, i < todo ->
       exists e,
         net (sent w + i) (params cfg start (negb (insecure cfg))) = Fails e
         /\ is_transient e = true) ->
    (forall i, i < todo -> sleep_raises cfg (attempt + i) = false) ->
    trace (snd (fetch_attempts cfg net start todo attempt last_err w))
    = flat_map (fun a => [BackoffSleep a;
                          Get (params cfg start (negb (insecure cfg)))])
               (rev (seq attempt todo))
      ++ trace w.
Proof.
  induction todo as [|todo IH]; intros attempt last_err w Hall Hsl; [reflexivity|].
  cbn [fetch_attempts].
  pose proof (Hsl 0 ltac:(lia)) as Hs0. rewrite Nat.add_0_r in Hs0.
  destruct (Hall 0) as (e & He & Ht); [lia|]. rewrite Nat.add_0_r in He.
  assert (Htry : try_request cfg net start w
                 = Failed e {| sent := S (sent w);
                               trace := Get (params cfg start (negb (insecure cfg)))
                                        :: trace w |}).
  { unfold try_request, send; rewrite He.
    destruct e; try discriminate Ht; reflexivity. }
  rewrite Htry, Hs0, IH.
  - cbn [seq rev]. rewrite flat_map_app, <- app_assoc. reflexivity.
  - intros i Hi; simpl.
    replace (S (sent w + i)) with (sent w + S i) by lia. apply Hall; lia.
  - intros i Hi. replace (S attempt + i) with (attempt + S i) by lia.
    apply Hsl; lia.
Qed.

(** The trace of a call cut short by a sleep that raises: the failed
    requests and the sleeps that returned. *)
Lemma fetch_attempts_cut (start : Z) (k : nat) :
  forall todo attempt last_err w,
    k < todo ->
    (forall i, i <= k ->
       exists e,
         net (sent w + i) (params cfg start (negb (insecure cfg))) = Fails e
         /\ is_transient e = true) ->
    (forall i, i < k -> sleep_raises cfg (attempt + i) = false) ->
    sleep_raises cfg (attempt + k) = true ->
    trace (snd (fetch_attempts cfg net start todo attempt last_err w))
    = Get (params cfg start (negb (insecure cfg)))
      :: flat_map (fun a => [BackoffSleep a;
                             Get (params cfg start (negb (insecure cfg)))])
                  (rev (seq attempt k))
      ++ trace w.
Proof.
  induction k as [|k IH]; intros todo attempt last_err w Hk Hall Hsl Hbad;
    (destruct todo as [|todo]; [lia|]); cbn [fetch_attempts];
    (destruct (Hall 0) as (e & He & Ht); [lia|]); rewrite Nat.add_0_r in He;
    assert (Htry : try_request cfg net start w
                 = Failed e {| sent := S (sent w);
                               trace := Get (params cfg start (negb (insecure cfg)))
                                        :: trace w |})
      by (unfold try_request, send; rewrite He;
          destruct e; try discriminate Ht; reflexivity);
    rewrite Htry.
  - rewrite Nat.add_0_r in Hbad. rewrite Hbad. reflexivity.
  - pose proof (Hsl 0 ltac:(lia)) as Hs0. rewrite Nat.add_0_r in Hs0.
    rewrite Hs0, (IH todo (S attempt)).
    + cbn [seq rev]. rewrite flat_map_app, <- app_assoc. reflexivity.
    + lia.
    + intros i Hi; simpl.
      replace (S (sent w + i)) with (sent w + S i) by lia. apply Hall; lia.
    + intros i Hi. replace (S attempt + i) with (attempt + S i) by lia.
      apply Hsl; lia.
    + replace (S attempt + k) with (attempt + S k) by lia. exact Hbad.
Qed.

End FetchMore.

Section FetchExtras.
Import Ghdb Net Scraper Sample.

(** X1.  A budget of zero or fewer attempts: [fetch_page] sends nothing and
    raises the [RuntimeError] at once, with no underlying failure to report;
    the run ends there, after the announcement of the first page. *)
Theorem fetch_page_without_attempts
        (parser : HtmlParser) (cfg : Config) (net : Network) :
  (retry_attempts cfg <= 0)%Z ->
  (forall start w,
      fetch_page cfg net start w = (Raise (RuntimeError start None), w))
  /\ (forall fuel,
         retrieve_google_dorks cfg net (S fuel)
         = Some (Raise (RuntimeError 0 None), emit (LogRequesting 0) world0)).
Proof.
  intros Hn.
  assert (H : forall start w,
             fetch_page cfg net start w = (Raise (RuntimeError start None), w)).
  { intros start w; unfold fetch_page.
    replace (Z.to_nat (retry_attempts cfg)) with 0 by lia. reflexivity. }
  split; [exact H|].
  intros fuel. unfold retrieve_google_dorks. rewrite loop_S.
  rewrite (iteration_raise cfg net locals0 world0 _ _ (H _ _)). reflexivity.
Qed.

Lemma fetch_page_without_attempts_witness :
  fetch_page (with_retry_attempts 0 default_config) (always page_mixed) 0 world0
  = (Raise (RuntimeError 0 None), world0).
Proof.
  apply (fetch_page_without_attempts toy_parser
           (with_retry_attempts 0 default_config) (always page_mixed)).
  vm_compute; discriminate.
Defined.

(** X2.  The cost of one call of [fetch_page]: at most [retry_attempts]
    requests, twice as many when [insecure] is set (the retry inside the
    [SSLError] handler), and at most [retry_attempts] sleeps. *)
Theorem fetch_page_request_budget
        (cfg : Config) (net : Network) (start : Z) (w : World)
        (r : Result PageData) (w' : World) :
  fetch_page cfg net start w = (r, w') ->
  sent w' <= sent w + (if insecure cfg then 2 else 1)
                      * Z.to_nat (retry_attempts cfg)
  /\ List.length (requests_of (since w w'))
     <= (if insecure cfg then 2 else 1) * Z.to_nat (retry_attempts cfg)
  /\ List.length (filter (fun e => negb (is_get e)) (since w w'))
     <= Z.to_nat (retry_attempts cfg).
Proof.
  intros H. unfold fetch_page in H.
  pose proof (fetch_attempts_budget cfg net start
                (Z.to_nat (retry_attempts cfg)) 1 None w) as F.
  rewrite H in F. destruct F as (new & Ht & _ & Hs & Hl).
  rewrite (since_app w w' new Ht).
  destruct (fetch_page_run cfg net start w r w' H) as (_ & Hsent & _).
  rewrite (since_app w w' new Ht) in Hsent.
  repeat split; try assumption. lia.
Qed.

Lemma fetch_page_request_budget_witness :
  sent world_page_one <= sent (emit (LogRequesting 0) world0) + 1 * 3
  /\ List.length (requests_of (since (emit (LogRequesting 0) world0) world_page_one))
     <= 1 * 3
  /\ List.length (filter (fun e => negb (is_get e))
                         (since (emit (LogRequesting 0) world0) world_page_one))
     <= 3.
Proof.
  apply (fetch_page_request_budget default_config first_then_empty 0
           (emit (LogRequesting 0) world0) (Ret page_two_of_five) world_page_one).
  vm_compute; reflexivity.
Defined.

(** X3.  Every request of a call of [fetch_page] is the same request: the
    offset of the call, the page size and the timeout of the configuration,
    and verification switched by [insecure] alone.  The request sent from
    the [SSLError] handler is that request again. *)
Theorem fetch_page_repeats_one_request
        (cfg : Config) (net : Network) (start : Z) (w : World)
        (r : Result PageData) (w' : World) :
  fetch_page cfg net start w = (r, w') ->
  Forall (fun rq => rq = params cfg start (negb (insecure cfg)))
         (requests_of (since w w')).
Proof.
  intros H. unfold fetch_page in H.
  pose proof (fetch_attempts_budget cfg net start
                (Z.to_nat (retry_attempts cfg)) 1 None w) as F.
  rewrite H in F. destruct F as (new & Ht & Hf & _).
  rewrite (since_app w w' new Ht). unfold requests_of.
  apply Forall_rev in Hf. induction Hf as [|e l He _ IH]; [constructor|].
  destruct e; simpl in *; try contradiction; auto.
Qed.

Lemma fetch_page_repeats_one_request_witness :
  Forall (fun rq => rq = params insecure_config 0 (negb (insecure insecure_config)))
         (requests_of
            (since world0
                   {| sent := 2;
                      trace := [Get (params insecure_config 0 false);
                                Get (params insecure_config 0 false)] |})).
Proof.
  apply (fetch_page_repeats_one_request insecure_config tls_then_body 0 world0
           (Ret page_mixed)).
  vm_compute; reflexivity.
Defined.

(** X4.  The trace of a call in which every attempt fails with a network
    error, an error status or an undecodable body.  (1) When every back-off
    sleep returns, the trace is one request and one sleep per attempt, the
    sleeps numbered from 1: the call sleeps after the last attempt too,
    before it raises.  (2) When the sleep after attempt [k + 1] is the first
    that raises, the trace ends with the request of that attempt: [k]
    requests each followed by its sleep, and one request more. *)
Theorem fetch_page_backoff_schedule
        (cfg : Config) (net : Network) (start : Z) (w : World) :
  (forall i, i < Z.to_nat (retry_attempts cfg) ->
     exists e,
       net (sent w + i) (params cfg start (negb (insecure cfg))) = Fails e
       /\ is_transient e = true) ->
  ((forall a, 1 <= a <= Z.to_nat (retry_attempts cfg) ->
      sleep_raises cfg a = false) ->
   since w (snd (fetch_page cfg net start w))
   = flat_map (fun a => [BackoffSleep a;
                         Get (params cfg start (negb (insecure cfg)))])
              (rev (seq 1 (Z.to_nat (retry_attempts cfg)))))
  /\ (forall k,
         k < Z.to_nat (retry_attempts cfg) ->
         (forall a, 1 <= a <= k -> sleep_raises cfg a = false) ->
         sleep_raises cfg (S k) = true ->
         since w (snd (fetch_page cfg net start w))
         = Get (params cfg start (negb (insecure cfg)))
           :: flat_map (fun a => [BackoffSleep a;
                                  Get (params cfg start (negb (insecure cfg)))])
                       (rev (seq 1 k))).
Proof.
  intros Hall. split.
  - intros Hsl. apply since_app. unfold fetch_page.
    apply fetch_attempts_schedule; [exact Hall|].
    intros i Hi; apply Hsl; lia.
  - intros k Hk Hsl Hbad. apply since_app. unfold fetch_page.
    apply (fetch_attempts_cut cfg net start k); try assumption.
    + intros i Hi; apply Hall; lia.
    + intros i Hi; apply Hsl; lia.
Qed.

Lemma fetch_page_backoff_schedule_witness :
  since world0 (snd (fetch_page default_config always_failing 0 world0))
  = [BackoffSleep 3; Get (params default_config 0 true);
     BackoffSleep 2; Get (params default_config 0 true);
     BackoffSleep 1; Get (params default_config 0 true)]
  /\ since world0 (snd (fetch_page negative_backoff_config always_failing 0 world0))
     = [Get (params negative_backoff_config 0 true);
        BackoffSleep 1; Get (params negative_backoff_config 0 true)].
Proof.
  split.
  - apply (fetch_page_backoff_schedule default_config always_failing 0 world0).
    + intros i _. eexists; split; reflexivity.
    + intros a Ha. vm_compute in Ha.
      destruct a as [|[|[|[|a]]]]; try reflexivity; lia.
  - apply (fetch_page_backoff_schedule negative_backoff_config always_failing 0 world0)
      with (k := 1).
    + intros i _. eexists; split; reflexivity.
    + vm_compute; lia.
    + intros a Ha. assert (a = 1) as -> by lia. reflexivity.
    + reflexivity.
Defined.

End FetchExtras.

(** ** More on the main loop *)

Section LoopMore.
Import Ghdb Net Scraper Sample.
Context {parser : HtmlParser}.
Variable cfg : Config.
Variable net : Network.

(** An invariant of the loop variables and the world, kept by every pass
    that goes round again, gives what holds when the loop ends. *)
Lemma loop_invariant (I : Locals -> World -> Prop)
      (Q : Result Locals -> World -> Prop) :
  (forall st w,
      I st w ->
      match iteration cfg net st w with
      | Continue st' w' => I st' w'
      | Break st' w' => Q (Ret st') w'
      | Raised e w' => Q (Raise e) w'
      end) ->
  forall fuel st w r w',
    I st w -> loop cfg net fuel st w = Some (r, w') -> Q r w'.
Proof.
  intros Hstep fuel; induction fuel as [|fuel IH]; intros st w r w' Hi H;
    [discriminate H|].
  rewrite loop_S in H. specialize (Hstep st w Hi).
  destruct (iteration cfg net st w) as [st1 w1|st1 w1|e w1].
  - injection H as <- <-; exact Hstep.
  - exact (IH st1 w1 r w' Hstep H).
  - injection H as <- <-; exact Hstep.
Qed.

(** Every pass announces one page, at the current offset. *)
Lemma iteration_pages (st : Locals) (w : World) :
  match iteration cfg net st w with
  | Break _ w' | Continue _ w' | Raised _ w' =>
      pages_requested w' = pages_requested w ++ [start st]
  end.
Proof.
  destruct (iteration_world cfg net st w) as (r & w1 & Hf & Hw).
  pose proof (pages_requested_fetch cfg net _ _ _ _ Hf) as Hp.
  rewrite pages_requested_emit_log in Hp.
  destruct (iteration cfg net st w); subst; auto.
  rewrite pages_requested_emit_pause; exact Hp.
Qed.

Lemma counted_start : counted cfg locals0 world0.
Proof.
  unfold counted; simpl. repeat split; try lia; try constructor.
Qed.

Lemma StronglySorted_snoc (l : list Z) (x : Z) :
  StronglySorted Z.lt l -> Forall (fun s => (s < x)%Z) l ->
  StronglySorted Z.lt (l ++ [x]).
Proof.
  induction 1 as [|a l Hs IH Ha]; intros Hf; simpl.
  - repeat constructor.
  - inversion Hf as [|? ? Hax Hfl]; subst. constructor; [auto|].
    apply Forall_app; split; [exact Ha | repeat constructor; exact Hax].
Qed.

Lemma counted_step (st : Locals) (w : World) :
  counted cfg st w ->
  match iteration cfg net st w with
  | Continue st' w' => counted cfg st' w'
  | Break _ w' | Raised _ w' =>
      pages_requested w' = pages_requested w ++ [start st]
  end.
Proof.
  intros (Hlen & Hle & Hlt & Hs & Hz & Hpos).
  pose proof (iteration_pages st w) as Hp.
  pose proof (iteration_state cfg net st w) as Hi.
  destruct (iteration cfg net st w) as [st1 w1|st1 w1|e w1]; auto.
  destruct Hi as (d & w0 & _ & _ & Hd & _ & Ht & Hst & Hpg & Hlt1 & Hcap).
  assert (Hrows : (0 < Z.of_nat (List.length (data d)))%Z)
    by (destruct (data d); [congruence | simpl; lia]).
  unfold counted. rewrite Hp, length_app; simpl.
  refine (conj _ (conj _ (conj _ (conj _ (conj _ _))))).
  - lia.
  - lia.
  - apply Forall_app; split.
    + eapply Forall_impl; [|exact Hlt]. intros s Hs'; simpl in Hs'; lia.
    + repeat constructor; lia.
  - apply StronglySorted_snoc; assumption.
  - intros H0; lia.
  - intros _. exists (total_after st d).
    refine (conj Ht (conj Hlt1 (conj Hcap _))).
    destruct (Z.eq_dec (pages st) 0) as [E|E].
    + destruct (Hz E) as [Hs0 ->]. rewrite Hs0. exists []; reflexivity.
    + destruct Hpos as (t & _ & _ & _ & l & ->); [lia|].
      exists (l ++ [start st]); reflexivity.
Qed.

Lemma retrieve_loop (fuel : nat) (r : Result (Catalog.t * list FileWrite))
      (w : World) :
  retrieve_google_dorks cfg net fuel = Some (r, w) ->
  exists r0,
    loop cfg net fuel locals0 world0 = Some (r0, w)
    /\ match r0 with
       | Ret st => r = Ret (finish cfg st)
       | Raise e => r = Raise e
       end.
Proof.
  unfold retrieve_google_dorks.
  destruct (loop cfg net fuel locals0 world0) as [[[st|e] w0]|]; intros H;
    try discriminate H; injection H as <- <-; eexists; split; reflexivity.
Qed.

(** What the invariant gives at the end of the loop. *)
Lemma counted_end (fuel : nat) (r : Result Locals) (w : World) :
  loop cfg net fuel locals0 world0 = Some (r, w) ->
  exists st0 w0,
    counted cfg st0 w0
    /\ pages_requested w = pages_requested w0 ++ [start st0]
    /\ match r with
       | Ret st => forall t, total_dorks st0 = Some t -> total_dorks st = Some t
       | Raise _ => True
       end.
Proof.
  apply (loop_invariant (counted cfg)
           (fun r w => exists st0 w0,
                counted cfg st0 w0
                /\ pages_requested w = pages_requested w0 ++ [start st0]
                /\ match r with
                   | Ret st => forall t, total_dorks st0 = Some t ->
                                         total_dorks st = Some t
                   | Raise _ => True
                   end));
    [|exact counted_start].
  intros st w0 Hc. pose proof (counted_step st w0 Hc) as Hs.
  pose proof (iteration_keeps_total cfg net st w0) as Hk.
  destruct (iteration cfg net st w0) as [st1 w1|st1 w1|e w1].
  - exists st, w0. exact (conj Hc (conj Hs Hk)).
  - exact Hs.
  - exists st, w0. exact (conj Hc (conj Hs I)).
Qed.

End LoopMore.

Section LoopExtras.
Import Ghdb Net Scraper Sample.

(** X5.  A page cap other than 0 bounds the number of pages asked for,
    whether the run returns or raises: at most [max_pages] pages, and one
    page when the cap is negative. *)
Theorem max_pages_bounds_pages
        (parser : HtmlParser) (cfg : Config) (net : Network) (fuel : nat)
        (r : Result (Catalog.t * list FileWrite)) (w : World) (m : Z) :
  max_pages cfg = Some m ->
  m <> 0%Z ->
  retrieve_google_dorks cfg net fuel = Some (r, w) ->
  (Z.of_nat (List.length (pages_requested w)) <= Z.max 1 m)%Z.
Proof.
  intros Hm Hnz H.
  destruct (retrieve_loop cfg net fuel r w H) as (r0 & Hl & _).
  destruct (counted_end cfg net fuel r0 w Hl)
    as (st0 & w0 & (Hlen & _ & _ & _ & Hz & Hpos) & Hp & _).
  rewrite Hp, length_app; simpl.
  destruct (Z.eq_dec (pages st0) 0) as [E|E]; [lia|].
  destruct Hpos as (t & _ & _ & Hcap & _); [lia|].
  unfold cap_reached in Hcap; rewrite Hm in Hcap.
  apply andb_false_iff in Hcap as [Hc|Hc].
  - apply negb_false_iff, Z.eqb_eq in Hc; contradiction.
  - apply Z.leb_gt in Hc. lia.
Qed.

(** X6.  A run that returns asked for no more pages than the total it
    reports, and for one page when that total is below 1. *)
Theorem pages_bounded_by_total
        (parser : HtmlParser) (cfg : Config) (net : Network) (fuel : nat)
        (out : Catalog.t * list FileWrite) (w : World) :
  retrieve_google_dorks cfg net fuel = Some (Ret out, w) ->
  (Z.of_nat (List.length (pages_requested w))
   <= Z.max 1 (Catalog.total_dorks (fst out)))%Z.
Proof.
  intros H.
  destruct (retrieve_loop cfg net fuel _ w H) as ([st|e] & Hl & Hr);
    [|discriminate Hr].
  injection Hr as ->.
  destruct (counted_end cfg net fuel _ w Hl)
    as (st0 & w0 & (Hlen & Hle & _ & _ & Hz & Hpos) & Hp & Hk).
  rewrite Hp, length_app; simpl.
  destruct (Z.eq_dec (pages st0) 0) as [E|E]; [lia|].
  destruct Hpos as (t & Ht & Hlt & _); [lia|].
  rewrite (Hk t Ht). lia.
Qed.

(** X7.  The offsets a run asks for, in order: the first is 0 and each is
    greater than the one before; no offset is asked for twice. *)
Theorem offsets_strictly_increase
        (parser : HtmlParser) (cfg : Config) (net : Network) (fuel : nat)
        (r : Result (Catalog.t * list FileWrite)) (w : World) :
  retrieve_google_dorks cfg net fuel = Some (r, w) ->
  StronglySorted Z.lt (pages_requested w)
  /\ NoDup (pages_requested w)
  /\ exists l, pages_requested w = 0%Z :: l.
Proof.
  intros H.
  destruct (retrieve_loop cfg net fuel r w H) as (r0 & Hl & _).
  destruct (counted_end cfg net fuel r0 w Hl)
    as (st0 & w0 & (Hlen & _ & Hlt & Hs & Hz & Hpos) & Hp & _).
  assert (Hsorted : StronglySorted Z.lt (pages_requested w))
    by (rewrite Hp; apply StronglySorted_snoc; assumption).
  split; [exact Hsorted|]. split.
  - clear -Hsorted. induction Hsorted as [|a l Hs IH Ha]; constructor; auto.
    intros Hin. rewrite Forall_forall in Ha. specialize (Ha a Hin). lia.
  - rewrite Hp. destruct (Z.eq_dec (pages st0) 0) as [E|E].
    + destruct (Hz E) as [-> ->]. exists []; reflexivity.
    + destruct Hpos as (t & _ & _ & _ & l & ->); [lia|].
      exists (l ++ [start st0]); reflexivity.
Qed.

Lemma max_pages_bounds_pages_witness :
  (Z.of_nat (List.length (pages_requested world_page_one)) <= Z.max 1 1)%Z.
Proof.
  apply (max_pages_bounds_pages toy_parser
           (with_max_pages (Some 1%Z) default_config) first_then_empty 1
           (Ret (finish default_config after_page_one)) world_page_one 1%Z).
  - reflexivity.
  - discriminate.
  - vm_compute; reflexivity.
Defined.

Lemma pages_bounded_by_total_witness :
  (Z.of_nat (List.length (pages_requested world_page_two))
   <= Z.max 1 (Catalog.total_dorks
                 (fst (finish default_config (set_total 5 after_page_one)))))%Z.
Proof.
  apply (pages_bounded_by_total toy_parser default_config first_then_empty 2).
  vm_compute; reflexivity.
Defined.

Lemma offsets_strictly_increase_witness :
  StronglySorted Z.lt (pages_requested world_page_two)
  /\ NoDup (pages_requested world_page_two)
  /\ exists l, pages_requested world_page_two = 0%Z :: l.
Proof.
  apply (offsets_strictly_increase toy_parser default_config first_then_empty 2
           (Ret (finish default_config (set_total 5 after_page_one)))).
  vm_compute; reflexivity.
Defined.

End LoopExtras.

(** ** More on the buckets and the files *)

Section BucketMore.
Import PyStr Ghdb Net Scraper.
Context {parser : HtmlParser}.

Lemma process_row_rows_of (st : Locals) (dork : Row) (cid : Z) :
  rows_of cid (category_dict (process_row st dork))
  = rows_of cid (category_dict st) ++ filter (in_category cid) (kept_rows [dork]).
Proof.
  unfold rows_of, kept_rows; simpl.
  destruct (find_anchor (title_html dork)) as [| |child] eqn:Ea;
    try (unfold process_row; rewrite Ea; simpl; rewrite app_nil_r; reflexivity).
  simpl. unfold in_category. change (category_id (set_url_title _ dork))
    with (category_id dork).
  destruct (Z.eqb_spec (category_id dork) cid) as [<-|Hne].
  - rewrite (process_row_bucket st dork child Ea); cbn [dorks].
    destruct (cd_get (category_id dork) (category_dict st)); reflexivity.
  - rewrite process_row_other_bucket by congruence.
    rewrite app_nil_r; reflexivity.
Qed.

Lemma process_row_name_of (st : Locals) (dork : Row) (cid : Z) :
  name_of cid (category_dict (process_row st dork))
  = match name_of cid (category_dict st) with
    | Some n => Some n
    | None =>
        option_map category_title
                   (hd_error (filter (in_category cid) (kept_rows [dork])))
    end.
Proof.
  unfold name_of, kept_rows; simpl.
  destruct (find_anchor (title_html dork)) as [| |child] eqn:Ea;
    try (unfold process_row; rewrite Ea; simpl;
         destruct (cd_get cid (category_dict st)); reflexivity).
  simpl. unfold in_category. change (category_id (set_url_title _ dork))
    with (category_id dork).
  destruct (Z.eqb_spec (category_id dork) cid) as [<-|Hne].
  - rewrite (process_row_bucket st dork child Ea); cbn [category_name].
    destruct (cd_get (category_id dork) (category_dict st)); reflexivity.
  - rewrite process_row_other_bucket by congruence.
    destruct (cd_get cid (category_dict st)); reflexivity.
Qed.

Lemma kept_rows_cons (r : Row) (rows : list Row) :
  kept_rows (r :: rows) = kept_rows [r] ++ kept_rows rows.
Proof. unfold kept_rows; simpl; rewrite app_nil_r; reflexivity. Qed.

Lemma process_rows_buckets (rows : list Row) (cid : Z) :
  forall st,
    rows_of cid (category_dict (process_rows st rows))
    = rows_of cid (category_dict st) ++ filter (in_category cid) (kept_rows rows)
    /\ name_of cid (category_dict (process_rows st rows))
       = match name_of cid (category_dict st) with
         | Some n => Some n
         | None =>
             option_map category_title
                        (hd_error (filter (in_category cid) (kept_rows rows)))
         end.
Proof.
  unfold process_rows; induction rows as [|r rows IH]; intros st; cbn [fold_left].
  - unfold kept_rows; simpl. rewrite app_nil_r.
    destruct (name_of cid (category_dict st)); split; reflexivity.
  - destruct (IH (process_row st r)) as [Hr Hn].
    rewrite (kept_rows_cons r rows).
    rewrite Hr, Hn, process_row_rows_of, process_row_name_of.
    rewrite filter_app, <- app_assoc. split; [reflexivity|].
    destruct (name_of cid (category_dict st)); [reflexivity|].
    destruct (filter (in_category cid) (kept_rows [r])); reflexivity.
Qed.

(** *** The keys *)

Lemma cd_append_keys (cid : Z) (row : Row) (d : CategoryDict) :
  map fst (cd_append cid row d) = map fst d.
Proof.
  induction d as [|[k b] d IH]; simpl; [reflexivity|].
  destruct (Z.eqb cid k); simpl; [reflexivity | rewrite IH; reflexivity].
Qed.

Lemma cd_get_none (cid : Z) (d : CategoryDict) :
  cd_get cid d = None <-> ~ In cid (map fst d).
Proof.
  induction d as [|[k b] d IH]; simpl; [tauto|].
  destruct (Z.eqb_spec cid k) as [->|Hne].
  - split; [discriminate | intros H; exfalso; apply H; left; reflexivity].
  - rewrite IH. split; [intros H [E|E]; [congruence | auto] | tauto].
Qed.

Lemma process_row_keys (st : Locals) (dork : Row) :
  NoDup (map fst (category_dict st)) ->
  NoDup (map fst (category_dict (process_row st dork))).
Proof.
  intros Hnd; unfold process_row.
  destruct (find_anchor (title_html dork)); try exact Hnd.
  cbn [category_dict]. rewrite cd_append_keys. unfold cd_mem.
  destruct (cd_get (category_id dork) (category_dict st)) eqn:Eg; [exact Hnd|].
  rewrite map_app; simpl. apply cd_get_none in Eg.
  apply NoDup_app; [exact Hnd | repeat constructor; simpl; tauto |].
  intros x Hx [<-|[]]. contradiction.
Qed.

Lemma process_rows_keys (rows : list Row) :
  forall st,
    NoDup (map fst (category_dict st)) ->
    NoDup (map fst (category_dict (process_rows st rows))).
Proof.
  unfold process_rows; induction rows as [|r rows IH]; intros st H; simpl; auto.
  apply IH, process_row_keys, H.
Qed.

Lemma insert_sorted_perm (k : Z) (l : list Z) :
  Permutation (insert_sorted k l) (k :: l).
Proof.
  induction l as [|h t IH]; simpl; [apply Permutation_refl|].
  destruct (Z.leb k h); [apply Permutation_refl|].
  eapply Permutation_trans; [apply perm_skip, IH | apply perm_swap].
Qed.

Lemma insert_sorted_sorted (k : Z) (l : list Z) :
  StronglySorted Z.le l -> StronglySorted Z.le (insert_sorted k l).
Proof.
  induction 1 as [|h t Hs IH Hh]; simpl; [repeat constructor|].
  destruct (Z.leb_spec k h) as [Hle|Hgt].
  - constructor; [constructor; assumption|].
    constructor; [exact Hle|].
    eapply Forall_impl; [|exact Hh]. intros x Hx; simpl in Hx; lia.
  - constructor; [exact IH|].
    eapply Permutation_Forall; [apply Permutation_sym, insert_sorted_perm|].
    constructor; [lia | exact Hh].
Qed.

Lemma sorted_keys_perm (d : CategoryDict) :
  Permutation (sorted_keys d) (map fst d).
Proof.
  unfold sorted_keys. induction (map fst d) as [|k l IH]; simpl; [constructor|].
  eapply Permutation_trans; [apply insert_sorted_perm | apply perm_skip, IH].
Qed.

Lemma sorted_keys_sorted (d : CategoryDict) :
  StronglySorted Z.le (sorted_keys d).
Proof.
  unfold sorted_keys. induction (map fst d) as [|k l IH]; simpl; [constructor|].
  apply insert_sorted_sorted, IH.
Qed.

Lemma sorted_nodup_strict (l : list Z) :
  StronglySorted Z.le l -> NoDup l -> StronglySorted Z.lt l.
Proof.
  induction 1 as [|h t Hs IH Hh]; intros Hnd; [constructor|].
  inversion Hnd as [|? ? Hnot Hnd']; subst. constructor; [auto|].
  rewrite Forall_forall in *. intros x Hx. specialize (Hh x Hx).
  assert (x <> h) by (intros ->; contradiction). lia.
Qed.

Lemma category_files_map (cfg : Config) (d : CategoryDict) :
  category_files cfg d
  = map (fun cid =>
           {| file_name :=
                Slug.category_filename
                  (platform cfg)
                  (match name_of cid d with Some n => n | None => EmptyString end);
              content :=
                Lines (flat_map
                         (fun r => match anchor_text r with
                                   | Some s => [s]
                                   | None => []
                                   end)
                         (rows_of cid d)) |})
        (sorted_keys d).
Proof.
  unfold category_files.
  assert (H : forall cid, In cid (sorted_keys d) -> cd_get cid d <> None).
  { intros cid Hin Hn. apply cd_get_none in Hn. apply Hn.
    eapply Permutation_in; [apply sorted_keys_perm | exact Hin]. }
  induction (sorted_keys d) as [|cid l IH]; simpl; [reflexivity|].
  rewrite IH by (intros c Hc; apply H; right; exact Hc).
  unfold name_of, rows_of, category_lines.
  destruct (cd_get cid d) as [b|] eqn:Eg; [reflexivity|].
  exfalso; apply (H cid); [left; reflexivity | exact Eg].
Qed.

(** *** The lookup of the CSV *)

Lemma str_in_lookup {V} (s : string) (m : list (string * V)) :
  str_in s (map fst m) = match lookup s m with Some _ => true | None => false end.
Proof.
  induction m as [|[k v] m IH]; simpl; [reflexivity|].
  destruct (String.eqb s k); [reflexivity | exact IH].
Qed.

Lemma lookup_snoc {V} (s k : string) (v : V) (m : list (string * V)) :
  lookup s (m ++ [(k, v)])
  = match lookup s m with
    | Some x => Some x
    | None => if String.eqb s k then Some v else None
    end.
Proof.
  induction m as [|[k' v'] m IH]; simpl; [reflexivity|].
  destruct (String.eqb s k'); [reflexivity | exact IH].
Qed.

Lemma scan_rows_lookup (v : Z * string) (s : string) (rows : list Row) :
  forall m,
    lookup s
      (fold_left
         (fun m d =>
            match anchor_text d with
            | Some t =>
                if negb (is_empty t) && negb (str_in t (map fst m))
                then m ++ [(t, v)]
                else m
            | None => m
            end) rows m)
    = match lookup s m with
      | Some x => Some x
      | None => if line_of s rows then Some v else None
      end.
Proof.
  unfold line_of.
  induction rows as [|d rows IH]; intros m; simpl.
  - rewrite andb_false_r. destruct (lookup s m); reflexivity.
  - rewrite IH. destruct (anchor_text d) as [t|]; simpl; [|reflexivity].
    destruct (is_empty t) eqn:Et; simpl.
    + destruct (lookup s m) as [x|]; [reflexivity|].
      destruct (String.eqb_spec s t) as [->|Hne]; simpl; [|reflexivity].
      rewrite Et; reflexivity.
    + rewrite str_in_lookup.
      destruct (lookup t m) as [y|] eqn:Ey; simpl.
      * destruct (lookup s m) as [x|] eqn:Ex; [reflexivity|].
        destruct (String.eqb_spec s t) as [->|Hne]; simpl; [congruence | reflexivity].
      * rewrite lookup_snoc.
        destruct (lookup s m) as [x|]; [reflexivity|].
        destruct (String.eqb_spec s t) as [->|Hne]; simpl; [|reflexivity].
        rewrite Et; reflexivity.
Qed.

Lemma dork_to_cat_lookup (s : string) (cd : CategoryDict) :
  forall m,
    lookup s (fold_left scan_category cd m)
    = match lookup s m with
      | Some x => Some x
      | None =>
          match find (fun kv => line_of s (dorks (snd kv))) cd with
          | Some kv => Some (fst kv, category_name (snd kv))
          | None => None
          end
      end.
Proof.
  induction cd as [|[cid b] cd IH]; intros m; simpl.
  - destruct (lookup s m); reflexivity.
  - rewrite IH. unfold scan_category. rewrite scan_rows_lookup.
    destruct (lookup s m) as [x|]; [reflexivity|].
    destruct (line_of s (dorks b)); reflexivity.
Qed.

Lemma csv_attribution_core (cd : CategoryDict) (s : string) :
  csv_row (dork_to_cat cd) s
  = match find (fun kv => line_of s (dorks (snd kv))) cd with
    | Some kv => (s, fst kv, category_name (snd kv))
    | None => (s, (-1)%Z, "unknown"%string)
    end.
Proof.
  unfold csv_row, dork_to_cat. rewrite dork_to_cat_lookup; simpl.
  destruct (find _ cd) as [[cid b]|]; reflexivity.
Qed.

(** *** Rows that come back *)

Lemma remove1_idem (c : ascii) (l : list ascii) :
  remove1 c (remove1 c l) = remove1 c l.
Proof.
  unfold remove1. induction l as [|a l IH]; simpl; [reflexivity|].
  destruct (negb (Ascii.eqb a c)) eqn:E; simpl; [rewrite E, IH|]; auto.
Qed.

Lemma title_html_stored (dork : Row) :
  title_html (set_url_title (title_html dork) dork) = title_html dork.
Proof.
  unfold title_html at 1; simpl. unfold title_html.
  rewrite list_ascii_of_string_of_list_ascii, remove1_idem. reflexivity.
Qed.

Lemma process_row_stored (st : Locals) (dork : Row) :
  fold_left process_row (kept_rows [dork]) st = process_row st dork.
Proof.
  unfold kept_rows; simpl.
  destruct (find_anchor (title_html dork)) as [| |child] eqn:Ea; simpl;
    try (unfold process_row; rewrite Ea; reflexivity).
  unfold process_row. rewrite title_html_stored, Ea. reflexivity.
Qed.

Lemma process_rows_stored (rows : list Row) :
  forall st, process_rows st (kept_rows rows) = process_rows st rows.
Proof.
  unfold process_rows. induction rows as [|r rows IH]; intros st; [reflexivity|].
  rewrite (kept_rows_cons r rows), fold_left_app, process_row_stored.
  cbn [fold_left]. apply IH.
Qed.

Lemma kept_rows_stored (rows : list Row) :
  kept_rows (kept_rows rows) = kept_rows rows.
Proof.
  induction rows as [|r rows IH]; [reflexivity|].
  rewrite (kept_rows_cons r rows). unfold kept_rows at 1.
  rewrite flat_map_app. fold (kept_rows (kept_rows [r])).
  fold (kept_rows (kept_rows rows)). rewrite IH. f_equal.
  unfold kept_rows; simpl.
  destruct (find_anchor (title_html r)) as [| |child] eqn:Ea; simpl; try reflexivity.
  rewrite title_html_stored, Ea. reflexivity.
Qed.

End BucketMore.

(** ** The catalog of a page *)

Section BucketsOf.
Import PyStr Ghdb Net Scraper.
Context {parser : HtmlParser}.

Lemma existsb_filter_other (c ca : Z) (l : list Z) :
  c <> ca ->
  existsb (Z.eqb c) (filter (fun k => negb (Z.eqb k ca)) l) = existsb (Z.eqb c) l.
Proof.
  intros Hne. induction l as [|h t IH]; simpl; [reflexivity|].
  destruct (Z.eqb_spec h ca) as [->|Hh]; simpl.
  - rewrite IH. destruct (Z.eqb_spec c ca); [contradiction | reflexivity].
  - rewrite IH; reflexivity.
Qed.

Lemma first_ids_snoc (rows : list Row) (r : Row) :
  first_ids (rows ++ [r])
  = if existsb (Z.eqb (category_id r)) (first_ids rows) then first_ids rows
    else first_ids rows ++ [category_id r].
Proof.
  induction rows as [|a rows IH]; [reflexivity|].
  cbn [app first_ids existsb]. rewrite IH.
  destruct (Z.eqb_spec (category_id r) (category_id a)) as [E|Hne]; cbn [orb].
  - destruct (existsb _ (first_ids rows)); [reflexivity|].
    rewrite filter_app; cbn [filter]. rewrite E, Z.eqb_refl; cbn [negb].
    rewrite app_nil_r; reflexivity.
  - rewrite (existsb_filter_other _ _ _ Hne).
    destruct (existsb _ (first_ids rows)); [reflexivity|].
    rewrite filter_app; cbn [filter].
    destruct (Z.eqb_spec (category_id r) (category_id a)); [contradiction|].
    reflexivity.
Qed.

Lemma cd_mem_keys (cid : Z) (d : CategoryDict) :
  cd_mem cid d = existsb (Z.eqb cid) (map fst d).
Proof.
  unfold cd_mem. induction d as [|[k b] d IH]; simpl; [reflexivity|].
  destruct (Z.eqb cid k); [reflexivity | exact IH].
Qed.

Lemma process_rows_snoc (st : Locals) (rows : list Row) (r : Row) :
  process_rows st (rows ++ [r]) = process_row (process_rows st rows) r.
Proof. unfold process_rows; rewrite fold_left_app; reflexivity. Qed.

Lemma kept_rows_app (a b : list Row) :
  kept_rows (a ++ b) = kept_rows a ++ kept_rows b.
Proof. unfold kept_rows; apply flat_map_app. Qed.

Lemma process_rows_first_ids (rows : list Row) :
  map fst (category_dict (process_rows locals0 rows)) = first_ids (kept_rows rows).
Proof.
  induction rows as [|r rows IH] using rev_ind; [reflexivity|].
  rewrite process_rows_snoc, kept_rows_app.
  unfold process_row at 1. unfold kept_rows at 2; cbn [flat_map].
  destruct (find_anchor (title_html r)) as [| |child];
    try (cbn [app]; rewrite app_nil_r; exact IH).
  cbn [category_dict app]. rewrite cd_append_keys, first_ids_snoc.
  change (category_id (set_url_title (title_html r) r)) with (category_id r).
  rewrite cd_mem_keys, IH.
  destruct (existsb _ _); [exact IH|].
  rewrite map_app, IH; reflexivity.
Qed.

Lemma cd_ext (d : CategoryDict) (f : Z -> Bucket) :
  NoDup (map fst d) ->
  (forall k, In k (map fst d) -> cd_get k d = Some (f k)) ->
  d = map (fun k => (k, f k)) (map fst d).
Proof.
  induction d as [|[k b] d IH]; simpl; intros Hnd H; [reflexivity|].
  apply NoDup_cons_iff in Hnd as [Hk Hd]. f_equal.
  - specialize (H k (or_introl eq_refl)). rewrite Z.eqb_refl in H.
    injection H as ->; reflexivity.
  - apply IH; [exact Hd|]. intros k' Hk'.
    specialize (H k' (or_intror Hk')).
    destruct (Z.eqb_spec k' k) as [E|_]; [subst k'; contradiction | exact H].
Qed.

(** The dictionary the row loop builds from nothing is the catalog of the
    rows it keeps. *)
Lemma process_rows_buckets_of (rows : list Row) :
  category_dict (process_rows locals0 rows) = buckets_of (kept_rows rows).
Proof.
  set (cd := category_dict (process_rows locals0 rows)).
  unfold buckets_of. rewrite <- (process_rows_first_ids rows). fold cd.
  apply cd_ext.
  - apply process_rows_keys; constructor.
  - intros k Hk.
    destruct (cd_get k cd) as [b|] eqn:Eg;
      [|apply cd_get_none in Eg; contradiction].
    destruct (process_rows_buckets rows k locals0) as [Hr Hn].
    fold cd in Hr, Hn. unfold rows_of, name_of in Hr, Hn.
    rewrite Eg in Hr, Hn. simpl in Hr, Hn.
    unfold bucket_of. destruct b as [n ds]; simpl in *. subst ds.
    destruct (filter (in_category k) (kept_rows rows)) as [|r0 t];
      [discriminate Hn|].
    simpl in Hn. injection Hn as ->. reflexivity.
Qed.

(** The rows the row loop keeps, written out. *)
Lemma kept_rows_filter (rows : list Row) :
  kept_rows rows
  = map (fun r => set_url_title (title_html r) r)
        (filter (fun r => match find_anchor (title_html r) with
                          | AnchorChild _ => true
                          | NoAnchor | EmptyAnchor => false
                          end) rows).
Proof.
  unfold kept_rows. induction rows as [|r rows IH]; simpl; [reflexivity|].
  rewrite IH. destruct (find_anchor (title_html r)); reflexivity.
Qed.

Lemma kept_rows_all (rows : list Row) :
  (forall r, In r rows ->
     url_title r = Some (title_html r)
     /\ exists child, find_anchor (title_html r) = AnchorChild child) ->
  kept_rows rows = rows.
Proof.
  unfold kept_rows. induction rows as [|r rows IH]; simpl; intros H; [reflexivity|].
  destruct (H r (or_introl eq_refl)) as [Hu [child Hc]]. rewrite Hc. simpl.
  rewrite IH by (intros; apply H; right; assumption).
  f_equal. unfold set_url_title. rewrite <- Hu. destruct r; reflexivity.
Qed.

Lemma kept_dorks_lines (rows : list Row) :
  kept_dorks rows
  = filter (fun s => negb (is_empty s))
           (flat_map (fun r => match anchor_text r with
                               | Some s => [s]
                               | None => []
                               end) (kept_rows rows)).
Proof.
  unfold kept_dorks, kept_rows. induction rows as [|r rows IH]; simpl; [reflexivity|].
  rewrite IH. destruct (find_anchor (title_html r)) as [| |child] eqn:Ea;
    try reflexivity.
  simpl. unfold anchor_text; simpl. rewrite Ea. simpl.
  destruct (is_empty (strip child)); reflexivity.
Qed.

(** What [finish] returns after a loop that ingested the rows of one page. *)
Lemma finish_one_page (cfg : Config) (t : Z) (rows : list Row) :
  finish cfg (set_total t (process_rows locals0 rows))
  = ({| Catalog.total_dorks := t;
        Catalog.extracted_dorks := Dedupe._ordered_dedupe (kept_dorks rows);
        Catalog.category_dict := buckets_of (kept_rows rows) |},
     writes cfg (buckets_of (kept_rows rows))
            (Dedupe._ordered_dedupe (kept_dorks rows))).
Proof.
  unfold finish, set_total; cbn [extracted_dorks category_dict total_dorks].
  rewrite process_rows_buckets_of, (proj1 (process_rows_kept rows locals0)).
  reflexivity.
Qed.

End BucketsOf.

Section PaginationClaims.
Import PyStr Ghdb Net Scraper Sample.

(** C6.  Offsets.  (1) The loop starts at offset 0.  (2) A pass after which
    the loop goes on fetched the page at the current offset, every request
    of that call carrying this offset, and moved the offset on by the number
    of rows received.  (3) Let the first page hold fewer rows than the total
    it reports, and let the page at the next offset come back without rows.
    Then, with fuel for two passes, the run returns this dictionary: the
    total the first page reports, the non-empty dorks of the rows of the
    first page, in order and without repetition, and one bucket per category
    id of the rows of the first page that have an anchor with a child, the
    ids in the order they first appear, each bucket named after its first
    row and holding the rows of its category in page order; the files are
    the ones written from that dictionary.  When the first page has a row
    and the page cap does not stop the loop after one page, the second page
    is fetched, at the offset equal to the number of rows of the first, and
    it is the last: two pages were announced.  Otherwise the loop ends after
    the first page.  (4) What the row loop computes from the rows of a page,
    starting from nothing: the extracted dorks are the non-empty dorks of
    the rows, in order; the dictionary is the one of part (3); the rows kept
    are the rows that have an anchor with a child, in page order, each with
    its title replaced by the title without TABs; the dorks are the
    non-empty lines of the rows kept; the rows of all buckets together are
    the rows kept; and when every row of the page has a title without TABs
    and an anchor with a child, the rows kept are the rows of the page, and
    the dictionary holds exactly these rows, category by category.
    (5) The default run against a first page of two rows out of five and an
    empty second page returns the total 5, the two dorks, and two buckets
    holding one row of the first page each. *)
Theorem pagination_stops_on_empty_page :
  start locals0 = 0%Z
  /\ (forall (parser : HtmlParser) cfg net st w st' w',
         iteration cfg net st w = Continue st' w' ->
         exists d w1,
           fetch_page cfg net (start st) (emit (LogRequesting (start st)) w)
           = (Ret d, w1)
           /\ Forall (fetch_event cfg (start st))
                     (since (emit (LogRequesting (start st)) w) w1)
           /\ start st' = (start st + Z.of_nat (List.length (data d)))%Z)
  /\ (forall (parser : HtmlParser) cfg net d1 w1 d2 w2 fuel,
         let n1 := Z.of_nat (List.length (data d1)) in
         let out :=
           ({| Catalog.total_dorks := reported_total d1;
               Catalog.extracted_dorks :=
                 Dedupe._ordered_dedupe (kept_dorks (data d1));
               Catalog.category_dict := buckets_of (kept_rows (data d1)) |},
            writes cfg (buckets_of (kept_rows (data d1)))
                   (Dedupe._ordered_dedupe (kept_dorks (data d1)))) in
         fetch_page cfg net 0 (emit (LogRequesting 0) world0) = (Ret d1, w1) ->
         (n1 < reported_total d1)%Z ->
         fetch_page cfg net n1 (emit (LogRequesting n1) (emit PoliteSleep w1))
         = (Ret d2, w2) ->
         data d2 = [] ->
         (data d1 <> [] /\ cap_reached cfg 1 = false ->
          retrieve_google_dorks cfg net (S (S fuel)) = Some (Ret out, w2)
          /\ pages_requested w2 = [0%Z; n1])
         /\ (data d1 = [] \/ cap_reached cfg 1 = true ->
             retrieve_google_dorks cfg net (S (S fuel)) = Some (Ret out, w1)
             /\ pages_requested w1 = [0%Z]))
  /\ (forall (parser : HtmlParser) rows,
         extracted_dorks (process_rows locals0 rows) = kept_dorks rows
         /\ category_dict (process_rows locals0 rows) = buckets_of (kept_rows rows)
         /\ kept_rows rows
            = map (fun r => set_url_title (title_html r) r)
                  (filter (fun r => match find_anchor (title_html r) with
                                    | AnchorChild _ => true
                                    | NoAnchor | EmptyAnchor => false
                                    end) rows)
         /\ kept_dorks rows
            = filter (fun s => negb (is_empty s))
                     (flat_map (fun r => match anchor_text r with
                                         | Some s => [s]
                                         | None => []
                                         end) (kept_rows rows))
         /\ Permutation (all_rows (category_dict (process_rows locals0 rows)))
                        (kept_rows rows)
         /\ ((forall r, In r rows ->
                url_title r = Some (title_html r)
                /\ exists child, find_anchor (title_html r) = AnchorChild child) ->
             kept_rows rows = rows
             /\ category_dict (process_rows locals0 rows) = buckets_of rows))
  /\ (forall fuel,
         retrieve_google_dorks default_config first_then_empty (S (S fuel))
         = Some (Ret ({| Catalog.total_dorks := 5;
                         Catalog.extracted_dorks :=
                           ["intitle:index.of"; "inurl:admin"]%string;
                         Catalog.category_dict :=
                           [(1%Z, {| category_name := "Footholds";
                                     dorks := [row_index] |});
                            (2%Z, {| category_name := "Sensitive Directories";
                                     dorks := [row_admin] |})] |},
                      []),
                 world_page_two)).
Proof.
  split; [reflexivity|split; [|split; [|split]]].
  - intros parser cfg net st w st' w' H.
    pose proof (iteration_state cfg net st w) as Hi. rewrite H in Hi.
    destruct Hi as (d & w1 & Hf & _ & _ & _ & _ & Hs & _).
    exists d, w1. split; [exact Hf|]. split; [|exact Hs].
    apply (fetch_page_run cfg net _ _ _ _ Hf).
  - intros parser cfg net d1 w1 d2 w2 fuel n1 out Hf1 Hlt Hf2 Hd2.
    assert (Hout : finish cfg (set_total (reported_total d1)
                                         (process_rows locals0 (data d1))) = out)
      by apply finish_one_page.
    clearbody out.
    assert (Hp1 : pages_requested w1 = [0%Z])
      by (rewrite (pages_requested_fetch cfg net _ _ _ _ Hf1); reflexivity).
    assert (Hnz : total_dorks locals0 = None -> reported_total d1 <> 0%Z)
      by (intros _; unfold n1 in Hlt; lia).
    split.
    + intros [Hd1 Hcap]. split.
      * unfold retrieve_google_dorks. rewrite loop_S.
        rewrite (iteration_rows cfg net locals0 world0 d1 w1 Hf1 Hnz Hd1).
        cbv zeta. set (st1 := advance _ _).
        assert (Hst : pages st1 = 1%Z /\ start st1 = n1
                      /\ total_dorks st1 = Some (reported_total d1)).
        { unfold st1, advance; cbn [pages start total_dorks].
          destruct (process_rows_frame (data d1)
                      (set_total (total_after locals0 d1) locals0))
            as (-> & -> & ->). repeat split. }
        destruct Hst as (Hp & Hs & Ht).
        rewrite Hp, Hcap, Hs.
        change (total_after locals0 d1) with (reported_total d1).
        replace (Z.leb (reported_total d1) n1) with false
          by (symmetry; apply Z.leb_gt; exact Hlt).
        rewrite loop_S. rewrite <- Hs in Hf2.
        rewrite (iteration_no_rows cfg net st1 _ d2 w2 Hf2 Hd2).
        unfold total_after; rewrite Ht.
        rewrite <- Hout. unfold st1. rewrite process_rows_set_total. reflexivity.
      * rewrite (pages_requested_fetch cfg net _ _ _ _ Hf2).
        rewrite pages_requested_emit_log, pages_requested_emit_pause, Hp1.
        reflexivity.
    + intros Hcase. split; [|exact Hp1].
      unfold retrieve_google_dorks. rewrite loop_S. rewrite <- Hout.
      destruct (data d1) as [|row rows] eqn:Ed1.
      * rewrite (iteration_no_rows cfg net locals0 world0 d1 w1 Hf1 Ed1).
        reflexivity.
      * destruct Hcase as [Habs|Hcap]; [discriminate Habs|].
        assert (Hd1 : data d1 <> []) by (rewrite Ed1; discriminate).
        rewrite (iteration_rows cfg net locals0 world0 d1 w1 Hf1 Hnz Hd1).
        cbv zeta. rewrite !Ed1. set (st1 := advance _ _).
        assert (Hp : pages st1 = 1%Z).
        { unfold st1, advance; cbn [pages].
          destruct (process_rows_frame (row :: rows)
                      (set_total (total_after locals0 d1) locals0))
            as (_ & _ & ->). reflexivity. }
        rewrite Hp, Hcap.
        unfold st1. rewrite process_rows_set_total. reflexivity.
  - intros parser rows.
    refine (conj _ (conj _ (conj _ (conj _ (conj _ _))))).
    + exact (proj1 (process_rows_kept rows locals0)).
    + apply process_rows_buckets_of.
    + apply kept_rows_filter.
    + apply kept_dorks_lines.
    + exact (proj2 (process_rows_kept rows locals0)).
    + intros H. pose proof (kept_rows_all rows H) as E.
      split; [exact E|]. rewrite process_rows_buckets_of, E. reflexivity.
  - intros fuel. unfold retrieve_google_dorks. rewrite loop_S.
    set (it := iteration _ _ _ _). vm_compute in it. subst it. cbv iota beta.
    rewrite loop_S.
    set (it := iteration _ _ _ _). vm_compute in it. subst it. cbv iota beta.
    vm_compute. reflexivity.
Qed.

(** Part (2) on the first pass of the default run against
    [first_then_empty], part (3) on that run: two rows of five, then none;
    the last clause of part (4) on the rows of that first page. *)
Lemma pagination_stops_on_empty_page_witness :
  (exists d w1,
      fetch_page default_config first_then_empty (start locals0)
                 (emit (LogRequesting (start locals0)) world0) = (Ret d, w1)
      /\ Forall (fetch_event default_config (start locals0))
                (since (emit (LogRequesting (start locals0)) world0) w1)
      /\ start after_page_one
         = (start locals0 + Z.of_nat (List.length (data d)))%Z)
  /\ (retrieve_google_dorks default_config first_then_empty 2
      = Some (Ret ({| Catalog.total_dorks := reported_total page_two_of_five;
                      Catalog.extracted_dorks :=
                        Dedupe._ordered_dedupe (kept_dorks (data page_two_of_five));
                      Catalog.category_dict :=
                        buckets_of (kept_rows (data page_two_of_five)) |},
                   writes default_config
                          (buckets_of (kept_rows (data page_two_of_five)))
                          (Dedupe._ordered_dedupe
                             (kept_dorks (data page_two_of_five)))),
              world_page_two)
      /\ pages_requested world_page_two
         = [0%Z; Z.of_nat (List.length (data page_two_of_five))])
  /\ (kept_rows (data page_two_of_five) = data page_two_of_five
      /\ category_dict (process_rows locals0 (data page_two_of_five))
         = buckets_of (data page_two_of_five)).
Proof.
  destruct pagination_stops_on_empty_page as (_ & Hadv & Hscen & Hrows & _).
  split; [|split].
  - apply (Hadv toy_parser default_config first_then_empty locals0 world0
             after_page_one (emit PoliteSleep world_page_one)).
    vm_compute; reflexivity.
  - assert (H1 : fetch_page default_config first_then_empty 0
                            (emit (LogRequesting 0) world0)
                 = (Ret page_two_of_five, world_page_one))
      by (vm_compute; reflexivity).
    assert (H2 : (Z.of_nat (List.length (data page_two_of_five))
                  < reported_total page_two_of_five)%Z)
      by (vm_compute; reflexivity).
    assert (H3 : fetch_page default_config first_then_empty
                   (Z.of_nat (List.length (data page_two_of_five)))
                   (emit (LogRequesting
                            (Z.of_nat (List.length (data page_two_of_five))))
                         (emit PoliteSleep world_page_one))
                 = (Ret page_no_rows, world_page_two))
      by (vm_compute; reflexivity).
    apply (proj1 (Hscen toy_parser default_config first_then_empty
                        page_two_of_five world_page_one page_no_rows
                        world_page_two 0 H1 H2 H3 eq_refl)).
    split; [discriminate | reflexivity].
  - apply (proj2 (proj2 (proj2 (proj2 (proj2
             (Hrows toy_parser (data page_two_of_five))))))).
    intros r [<-|[<-|[]]]; (split; [reflexivity | eexists; vm_compute; reflexivity]).
Defined.

End PaginationClaims.

Section BucketExtras.
Import PyStr Ghdb Net Scraper Sample.

(** X8.  After the rows of a page (or of several pages, one after the
    other) have been processed from the empty state, the bucket of a
    category holds the kept rows of that category, in the order they came,
    and its name is the name the first of them carried; later rows of the
    category do not rename it. *)
Theorem bucket_holds_rows_of_its_category
        (parser : HtmlParser) (rows : list Row) (cid : Z) :
  rows_of cid (category_dict (process_rows locals0 rows))
  = filter (in_category cid) (kept_rows rows)
  /\ name_of cid (category_dict (process_rows locals0 rows))
     = option_map category_title
                  (hd_error (filter (in_category cid) (kept_rows rows))).
Proof. exact (process_rows_buckets rows cid locals0). Qed.

(** X9.  The per-category files of such a catalog: the category ids are
    distinct, the files are written by increasing id, one for each category
    that has a kept row, named by the slug of the name of the bucket, and
    the lines of a file are the dorks of the kept rows of the category, in
    order, repeats and empty lines included. *)
Theorem category_files_by_increasing_id
        (parser : HtmlParser) (cfg : Config) (rows : list Row) :
  let cd := category_dict (process_rows locals0 rows) in
  NoDup (map fst cd)
  /\ StronglySorted Z.lt (sorted_keys cd)
  /\ (forall cid,
         In cid (sorted_keys cd)
         <-> exists r, In r (kept_rows rows) /\ category_id r = cid)
  /\ category_files cfg cd
     = map (fun cid =>
              {| file_name :=
                   Slug.category_filename
                     (platform cfg)
                     (match name_of cid cd with Some n => n | None => EmptyString end);
                 content :=
                   Lines (flat_map
                            (fun r => match anchor_text r with
                                      | Some s => [s]
                                      | None => []
                                      end)
                            (filter (in_category cid) (kept_rows rows))) |})
           (sorted_keys cd).
Proof.
  intros cd.
  assert (Hnd : NoDup (map fst cd))
    by (apply process_rows_keys; constructor).
  split; [exact Hnd|]. split; [|split].
  - apply sorted_nodup_strict; [apply sorted_keys_sorted|].
    eapply Permutation_NoDup; [apply Permutation_sym, sorted_keys_perm | exact Hnd].
  - intros cid.
    destruct (process_rows_buckets rows cid locals0) as [_ Hn].
    fold cd in Hn. simpl in Hn. unfold name_of in Hn.
    assert (Hk : In cid (sorted_keys cd) <-> cd_get cid cd <> None).
    { split.
      - intros Hin Hnone. apply cd_get_none in Hnone. apply Hnone.
        eapply Permutation_in; [apply sorted_keys_perm | exact Hin].
      - intros Hsome.
        eapply Permutation_in; [apply Permutation_sym, sorted_keys_perm|].
        destruct (in_dec Z.eq_dec cid (map fst cd)) as [Hin|Hout]; [exact Hin|].
        apply cd_get_none in Hout; contradiction. }
    rewrite Hk. split.
    + intros Hsome.
      destruct (filter (in_category cid) (kept_rows rows)) as [|r l] eqn:Ef.
      * destruct (cd_get cid cd); [discriminate Hn | congruence].
      * assert (Hr : In r (filter (in_category cid) (kept_rows rows)))
          by (rewrite Ef; left; reflexivity).
        apply filter_In in Hr as [Hr Hc]. exists r; split; [exact Hr|].
        apply Z.eqb_eq; exact Hc.
    + intros (r & Hr & Hc) Hnone.
      assert (Hf : In r (filter (in_category cid) (kept_rows rows)))
        by (apply filter_In; split; [exact Hr | apply Z.eqb_eq; exact Hc]).
      rewrite Hnone in Hn.
      destruct (filter (in_category cid) (kept_rows rows)); [destruct Hf | discriminate Hn].
  - rewrite category_files_map. apply map_ext. intros cid.
    destruct (process_rows_buckets rows cid locals0) as [Hr _].
    fold cd in Hr. simpl in Hr. rewrite Hr. reflexivity.
Qed.

(** The third part on the page of three rows: category 2 has a kept row,
    so its id is among the keys. *)
Lemma category_files_by_increasing_id_witness :
  In 2%Z (sorted_keys (category_dict (process_rows locals0 (data page_mixed)))).
Proof.
  pose proof (category_files_by_increasing_id toy_parser default_config
                (data page_mixed)) as H.
  cbv zeta in H. destruct H as (_ & _ & H & _). apply H.
  exists (set_url_title (title_html row_admin) row_admin).
  split; [vm_compute; right; left; reflexivity | reflexivity].
Defined.

(** X10.  What the CSV says of a dork: the id and the name of the first
    bucket, in the order the categories were first met, one of whose rows
    gives that dork; the pair (-1, unknown) when no bucket does. *)
Theorem csv_attribution_first_bucket
        (parser : HtmlParser) (cd : CategoryDict) (s : string) :
  csv_row (dork_to_cat cd) s
  = match find (fun kv => line_of s (dorks (snd kv))) cd with
    | Some kv => (s, fst kv, category_name (snd kv))
    | None => (s, (-1)%Z, "unknown"%string)
    end.
Proof. apply csv_attribution_core. Qed.

(** X11.  In a catalog built by the row loop every extracted dork is a line
    of some bucket, so the CSV row of a de-duplicated dork names a category
    of the catalog that holds it: the default pair is never used. *)
Theorem csv_never_defaults
        (parser : HtmlParser) (rows : list Row) (s : string) :
  let st := process_rows locals0 rows in
  In s (Dedupe._ordered_dedupe (extracted_dorks st)) ->
  exists kv,
    In kv (category_dict st)
    /\ line_of s (dorks (snd kv)) = true
    /\ csv_row (dork_to_cat (category_dict st)) s
       = (s, fst kv, category_name (snd kv)).
Proof.
  intros st Hin. rewrite ordered_dedupe_keep_first in Hin.
  apply (proj1 (keep_first_In _ _)) in Hin.
  destruct (process_rows_kept rows locals0) as [He Hp]. fold st in He, Hp.
  simpl in He, Hp. rewrite He in Hin.
  unfold kept_dorks in Hin. apply in_flat_map in Hin as (d & Hd & Hs).
  destruct (find_anchor (title_html d)) as [| |child] eqn:Ea;
    try (destruct Hs; fail).
  destruct (is_empty (strip child)) eqn:Ee; [destruct Hs|].
  destruct Hs as [<-|[]].
  set (r := set_url_title (title_html d) d).
  assert (Hr : In r (kept_rows rows)).
  { unfold kept_rows. apply in_flat_map. exists d; split; [exact Hd|].
    rewrite Ea; left; reflexivity. }
  assert (Ha : anchor_text r = Some (strip child))
    by (apply anchor_text_stored; exact Ea).
  apply (Permutation_in _ (Permutation_sym Hp)) in Hr.
  unfold all_rows in Hr. apply in_flat_map in Hr as (kv0 & Hkv0 & Hr0).
  assert (Hline : line_of (strip child) (dorks (snd kv0)) = true).
  { unfold line_of. rewrite Ee; simpl.
    clear -Hr0 Ha. induction (dorks (snd kv0)) as [|x l IH]; [destruct Hr0|].
    simpl. destruct Hr0 as [->|Hr0].
    - rewrite Ha; simpl. rewrite String.eqb_refl; reflexivity.
    - destruct (anchor_text x) as [t|]; simpl; [|auto].
      rewrite (IH Hr0). apply orb_true_r. }
  rewrite csv_attribution_core.
  destruct (find (fun kv => line_of (strip child) (dorks (snd kv)))
                 (category_dict st)) as [kv|] eqn:Ef.
  - apply find_some in Ef as [Hkv Hl]. exists kv. auto.
  - exfalso. apply (find_none _ _ Ef) in Hkv0. simpl in Hkv0. congruence.
Qed.

Lemma csv_never_defaults_witness :
  exists kv,
    In kv (category_dict (process_rows locals0 (data page_mixed)))
    /\ line_of "inurl:admin" (dorks (snd kv)) = true
    /\ csv_row (dork_to_cat (category_dict (process_rows locals0 (data page_mixed))))
               "inurl:admin"
       = ("inurl:admin"%string, fst kv, category_name (snd kv)).
Proof.
  apply (csv_never_defaults toy_parser (data page_mixed) "inurl:admin").
  vm_compute. right; left; reflexivity.
Defined.

(** X12.  The rows a run stores (and exports as JSON) are rows the loop
    takes back unchanged: processing the stored rows of a page gives the
    state that processing the page gave, and storing is idempotent. *)
Theorem stored_rows_ingest_the_same
        (parser : HtmlParser) (st : Locals) (rows : list Row) :
  process_rows st (kept_rows rows) = process_rows st rows
  /\ kept_rows (kept_rows rows) = kept_rows rows.
Proof. split; [apply process_rows_stored | apply kept_rows_stored]. Qed.

End BucketExtras.

(** ** More on the helpers *)

Section HelperMore.
Import PyStr Slug Dedupe Scraper.

Lemma substring_all (s : string) : substring 0 (String.length s) s = s.
Proof. induction s as [|c s IH]; simpl; [reflexivity | rewrite IH; reflexivity]. Qed.

Lemma substring_skip (s t : string) (k : nat) :
  substring (String.length s) k (s ++ t) = substring 0 k t.
Proof. induction s as [|c s IH]; simpl; [reflexivity | exact IH]. Qed.

Lemma length_append (s t : string) :
  String.length (s ++ t) = String.length s + String.length t.
Proof. induction s as [|c s IH]; simpl; [reflexivity | rewrite IH; reflexivity]. Qed.

Lemma endswith_append (s suffix : string) : endswith suffix (s ++ suffix) = true.
Proof.
  unfold endswith. rewrite length_append.
  replace (String.length s + String.length suffix - String.length suffix)
    with (String.length s) by lia.
  rewrite substring_skip, substring_all, String.eqb_refl.
  rewrite andb_true_r. apply Nat.leb_le; lia.
Qed.

Lemma substring_split (s : string) :
  forall m, m <= String.length s ->
    s = (substring 0 m s ++ substring m (String.length s - m) s)%string.
Proof.
  induction s as [|c s IH]; intros [|m] Hm; simpl in *; try lia.
  - reflexivity.
  - rewrite substring_all; reflexivity.
  - rewrite <- (IH m) by lia; reflexivity.
Qed.

Lemma endswith_suffix (s suffix : string) :
  endswith suffix s = true <-> exists stem, s = (stem ++ suffix)%string.
Proof.
  split.
  - unfold endswith. intros H. apply andb_true_iff in H as [Hk He].
    apply Nat.leb_le in Hk. apply String.eqb_eq in He.
    exists (substring 0 (String.length s - String.length suffix) s).
    pose proof (substring_split s (String.length s - String.length suffix)
                  ltac:(lia)) as Hs.
    replace (String.length s - (String.length s - String.length suffix))
      with (String.length suffix) in Hs by lia.
    rewrite He in Hs. exact Hs.
  - intros [stem ->]. apply endswith_append.
Qed.

(** *** The slug of a slug *)

Lemma allowed_facts (p : Platform) (c : ascii) :
  allowed c = true ->
  isspace c = false
  /\ Ascii.eqb c (os_sep p) = false
  /\ Ascii.eqb c "/"%char = false
  /\ Ascii.eqb c " "%char = false
  /\ lower1 c = c.
Proof.
  destruct p; destruct c as [[] [] [] [] [] [] [] []];
    vm_compute; intros H; try discriminate H; repeat split.
Qed.

Lemma lstrip_allowed (l : list ascii) :
  forallb allowed l = true -> lstrip l = l.
Proof.
  destruct l as [|c l]; simpl; [reflexivity|].
  intros H; apply andb_true_iff in H as [Hc _].
  destruct (allowed_facts Posix c Hc) as (-> & _). reflexivity.
Qed.

Lemma forallb_rev {A} (f : A -> bool) (l : list A) :
  forallb f (rev l) = forallb f l.
Proof.
  induction l as [|a l IH]; simpl; [reflexivity|].
  rewrite forallb_app, IH; simpl. rewrite andb_true_r, andb_comm; reflexivity.
Qed.

Lemma strip_allowed (l : list ascii) :
  forallb allowed l = true ->
  strip (string_of_list_ascii l) = string_of_list_ascii l.
Proof.
  intros H; unfold strip, rstrip.
  rewrite list_ascii_of_string_of_list_ascii, (lstrip_allowed l H).
  rewrite lstrip_allowed by (rewrite forallb_rev; exact H).
  rewrite rev_involutive; reflexivity.
Qed.

Lemma map_id_on {A} (f : A -> A) (P : A -> bool) (l : list A) :
  (forall a, P a = true -> f a = a) -> forallb P l = true -> map f l = l.
Proof.
  intros Hf; induction l as [|a l IH]; simpl; [reflexivity|].
  intros H; apply andb_true_iff in H as [Ha Hl].
  rewrite (Hf a Ha), IH by exact Hl; reflexivity.
Qed.

Lemma safe_filename_of_allowed (p : Platform) (l : list ascii) :
  forallb allowed l = true -> l <> [] -> List.length l <= max_len ->
  _safe_filename p (Some (string_of_list_ascii l)) = string_of_list_ascii l.
Proof.
  intros Ha Hne Hlen. unfold _safe_filename.
  rewrite (strip_allowed l Ha), list_ascii_of_string_of_list_ascii.
  assert (H1 : replace1 (os_sep p) "_"%char l = l).
  { apply (map_id_on _ allowed); [|exact Ha]. intros a Haa.
    destruct (allowed_facts p a Haa) as (_ & -> & _). reflexivity. }
  assert (H2 : replace1 "/"%char "_"%char l = l).
  { apply (map_id_on _ allowed); [|exact Ha]. intros a Haa.
    destruct (allowed_facts p a Haa) as (_ & _ & -> & _). reflexivity. }
  assert (H3 : lower l = l).
  { apply (map_id_on _ allowed); [|exact Ha]. intros a Haa.
    apply (allowed_facts p a Haa). }
  assert (H4 : replace1 " "%char "_"%char l = l).
  { apply (map_id_on _ allowed); [|exact Ha]. intros a Haa.
    destruct (allowed_facts p a Haa) as (_ & _ & _ & -> & _). reflexivity. }
  rewrite H1, H2, H3, H4, (re_sub_all_allowed l Ha).
  rewrite firstn_all2 by exact Hlen.
  destruct l; [congruence | reflexivity].
Qed.

(** *** De-duplication of a concatenation *)

Lemma keep_first_nodup (l : list string) : NoDup l -> keep_first l = l.
Proof.
  induction 1 as [|x l Hx Hnd IH]; simpl; [reflexivity|].
  rewrite IH. f_equal.
  rewrite forallb_filter_id; [reflexivity|].
  apply forallb_forall. intros y Hy. apply negb_true_iff, String.eqb_neq.
  intros ->; contradiction.
Qed.

Lemma existsb_eqb_In (y : string) (l : list string) :
  existsb (String.eqb y) l = true <-> In y l.
Proof.
  rewrite existsb_exists. split.
  - intros (x & Hx & E). apply String.eqb_eq in E; subst; exact Hx.
  - intros H; exists y; split; [exact H | apply String.eqb_refl].
Qed.

Lemma safe_filename_shape (p : Platform) (name : option string) :
  exists l,
    _safe_filename p name = string_of_list_ascii l
    /\ forallb allowed l = true /\ l <> [] /\ List.length l <= max_len.
Proof.
  unfold _safe_filename.
  match goal with |- context [is_empty (string_of_list_ascii ?x)] => set (l := x) end.
  destruct (is_empty (string_of_list_ascii l)) eqn:E.
  - exists (list_ascii_of_string fallback).
    repeat split; try reflexivity; [discriminate | vm_compute; lia].
  - exists l. split; [reflexivity|]. split; [|split].
    + apply forallb_forall. intros c Hc. unfold l in Hc.
      apply In_firstn in Hc. eapply re_sub_from_allowed; exact Hc.
    + intros ->; discriminate E.
    + unfold l. apply firstn_le_length.
Qed.

End HelperMore.

Section HelperExtras.
Import PyStr Slug Dedupe Scraper.

(** X13.  The slug of a slug is that slug: a file name the helper produced
    goes through the helper unchanged, on either platform. *)
Theorem safe_filename_idempotent (p : Platform) (name : option string) :
  _safe_filename p (Some (_safe_filename p name)) = _safe_filename p name.
Proof.
  destruct (safe_filename_shape p name) as (l & -> & Ha & Hne & Hlen).
  apply safe_filename_of_allowed; assumption.
Qed.

(** X14.  De-duplication composes: it changes nothing in a list without
    repeats, so doing it twice is doing it once; the result is never longer
    than the input; and the result for two lists, one after the other, is
    the result for the first followed by the result for the second without
    the strings of the first. *)
Theorem ordered_dedupe_composes :
  (forall l, NoDup l -> _ordered_dedupe l = l)
  /\ (forall l, _ordered_dedupe (_ordered_dedupe l) = _ordered_dedupe l)
  /\ (forall l, List.length (_ordered_dedupe l) <= List.length l)
  /\ (forall a b,
         _ordered_dedupe (a ++ b)
         = _ordered_dedupe a
           ++ filter (fun y => negb (existsb (String.eqb y) a))
                     (_ordered_dedupe b)).
Proof.
  repeat apply conj.
  - intros l H. rewrite ordered_dedupe_keep_first. apply keep_first_nodup, H.
  - intros l. rewrite !ordered_dedupe_keep_first.
    apply keep_first_nodup, keep_first_NoDup.
  - intros l. rewrite ordered_dedupe_keep_first.
    induction l as [|x l IH]; simpl; [lia|].
    pose proof (filter_length_le (fun y => negb (String.eqb y x)) (keep_first l)).
    lia.
  - intros a b. unfold _ordered_dedupe at 1. unfold fromkeys.
    rewrite fold_left_app, fold_od_set_keys.
    fold (fromkeys a). fold (_ordered_dedupe a).
    rewrite <- ordered_dedupe_keep_first. f_equal.
    apply filter_ext. intros y. f_equal.
    apply eq_true_iff_eq. rewrite !existsb_eqb_In.
    rewrite ordered_dedupe_keep_first. apply keep_first_In.
Qed.

Lemma ordered_dedupe_composes_witness :
  _ordered_dedupe ["a"; "b"]%string = ["a"; "b"]%string.
Proof.
  apply (proj1 ordered_dedupe_composes).
  repeat constructor; simpl; intuition discriminate.
Defined.

(** X15.  The name of the CSV file always ends in [.csv]: a name that
    ends in [.csv] (it is some stem followed by these four characters) is
    kept as it is, any other name gets the extension appended, and naming is
    idempotent. *)
Theorem csv_file_name_has_extension (name : string) :
  endswith ".csv" (csv_file_name name) = true
  /\ csv_file_name (csv_file_name name) = csv_file_name name
  /\ (endswith ".csv" name = true -> csv_file_name name = name)
  /\ (endswith ".csv" name = false -> csv_file_name name = (name ++ ".csv")%string)
  /\ (endswith ".csv" name = true <-> exists stem, name = (stem ++ ".csv")%string)
  /\ ((exists stem, name = (stem ++ ".csv")%string) -> csv_file_name name = name).
Proof.
  assert (H : endswith ".csv" (csv_file_name name) = true).
  { unfold csv_file_name. destruct (endswith ".csv" name) eqn:E; [exact E|].
    apply endswith_append. }
  assert (K : endswith ".csv" name = true -> csv_file_name name = name).
  { intros E. unfold csv_file_name. rewrite E. reflexivity. }
  refine (conj H (conj _ (conj K (conj _ (conj _ _))))).
  - unfold csv_file_name at 1. rewrite H. reflexivity.
  - intros E. unfold csv_file_name. rewrite E. reflexivity.
  - apply endswith_suffix.
  - intros Hs. apply K. apply endswith_suffix. exact Hs.
Qed.

Lemma csv_file_name_has_extension_witness :
  csv_file_name "ghdb" = "ghdb.csv"%string
  /\ csv_file_name "ghdb.csv" = "ghdb.csv"%string
  /\ csv_file_name "a.csv.csv" = "a.csv.csv"%string.
Proof.
  split; [|split].
  - apply (proj1 (proj2 (proj2 (proj2 (csv_file_name_has_extension "ghdb"))))).
    reflexivity.
  - apply (proj1 (proj2 (proj2 (csv_file_name_has_extension "ghdb.csv")))).
    reflexivity.
  - apply (proj2 (proj2 (proj2 (proj2 (proj2
             (csv_file_name_has_extension "a.csv.csv")))))).
    exists "a.csv"%string. reflexivity.
Defined.

End HelperExtras.

(** ** The prompts and the discovery of dork files *)

Section DorkerFacts.
Import PyStr Dorker.

Lemma ascii_compare_refl (a : ascii) : Ascii.compare a a = Eq.
Proof. unfold Ascii.compare. apply N.compare_refl. Qed.

Lemma string_leb_trans (a : string) :
  forall b c, String.leb a b = true -> String.leb b c = true ->
              String.leb a c = true.
Proof.
  unfold String.leb.
  induction a as [|x a IH]; intros [|y b] [|z c]; simpl; try congruence.
  unfold Ascii.compare in *.
  destruct (N.compare_spec (N_of_ascii x) (N_of_ascii y)) as [Exy|Lxy|Gxy];
    destruct (N.compare_spec (N_of_ascii y) (N_of_ascii z)) as [Eyz|Lyz|Gyz];
    try congruence; intros Hab Hbc.
  - rewrite Exy, Eyz, N.compare_refl. apply (IH b c); assumption.
  - rewrite Exy. apply N.compare_lt_iff in Lyz. rewrite Lyz. reflexivity.
  - rewrite <- Eyz. apply N.compare_lt_iff in Lxy. rewrite Lxy. reflexivity.
  - assert (H : (N_of_ascii x < N_of_ascii z)%N) by lia.
    apply N.compare_lt_iff in H. rewrite H. reflexivity.
Qed.

Lemma insert_name_perm (n : string) (l : list string) :
  Permutation (insert_name n l) (n :: l).
Proof.
  induction l as [|h t IH]; simpl; [apply Permutation_refl|].
  destruct (String.leb n h); [apply Permutation_refl|].
  eapply Permutation_trans; [apply perm_skip, IH | apply perm_swap].
Qed.

Lemma insert_name_sorted (n : string) (l : list string) :
  StronglySorted (fun a b => String.leb a b = true) l ->
  StronglySorted (fun a b => String.leb a b = true) (insert_name n l).
Proof.
  induction 1 as [|h t Hs IH Hh]; simpl; [repeat constructor|].
  destruct (String.leb n h) eqn:E.
  - constructor; [constructor; assumption|].
    constructor; [exact E|].
    eapply Forall_impl; [|exact Hh]. intros x Hx; simpl in Hx.
    eapply string_leb_trans; eauto.
  - constructor; [exact IH|].
    eapply Permutation_Forall; [apply Permutation_sym, insert_name_perm|].
    constructor; [|exact Hh].
    destruct (String.leb_total n h) as [H|H]; [congruence | exact H].
Qed.

Lemma sorted_names_perm (l : list string) : Permutation (sorted_names l) l.
Proof.
  unfold sorted_names. induction l as [|n l IH]; simpl; [constructor|].
  eapply Permutation_trans; [apply insert_name_perm | apply perm_skip, IH].
Qed.

Lemma sorted_names_sorted (l : list string) :
  StronglySorted (fun a b => String.leb a b = true) (sorted_names l).
Proof.
  unfold sorted_names. induction l as [|n l IH]; simpl; [constructor|].
  apply insert_name_sorted, IH.
Qed.

Lemma Permutation_filter {A} (f : A -> bool) (l l' : list A) :
  Permutation l l' -> Permutation (filter f l) (filter f l').
Proof.
  induction 1 as [|x l l' H IH|x y l|l l' l'' H1 IH1 H2 IH2]; simpl.
  - constructor.
  - destruct (f x); [apply perm_skip|]; exact IH.
  - destruct (f x), (f y); try apply Permutation_refl. apply perm_swap.
  - eapply Permutation_trans; eauto.
Qed.

Lemma flat_map_filter {A B} (f : A -> B) (p : A -> bool) (l : list A) :
  flat_map (fun a => if p a then [f a] else []) l = map f (filter p l).
Proof.
  induction l as [|a l IH]; simpl; [reflexivity|].
  destruct (p a); simpl; rewrite IH; reflexivity.
Qed.

Section Choice.

Variable fs : FileSystem.
Variable py_int : string -> option Z.

Lemma ask_path_file (stdin : list string) :
  match ask_path fs stdin with
  | Answer path rest =>
      isfile fs path = true
      /\ exists pre line,
          stdin = pre ++ line :: rest /\ path = strip line
          /\ Forall (fun l => isfile fs (strip l) = false) pre
  | EOFError => Forall (fun l => isfile fs (strip l) = false) stdin
  | ValueError => False
  end.
Proof.
  induction stdin as [|line rest IH]; simpl; [constructor|].
  destruct (isfile fs (strip line)) eqn:E.
  - split; [exact E|]. exists [], line. repeat split. constructor.
  - destruct (ask_path fs rest) as [p rest'| |].
    + destruct IH as (Hf & pre & l & -> & -> & Hpre).
      split; [exact Hf|]. exists (line :: pre), l. repeat split.
      constructor; assumption.
    + constructor; assumption.
    + exact IH.
Qed.

(** A pass of the second loop reads one line or two, so the induction is on
    a bound of the number of lines. *)
Lemma ask_choice_sound (candidates : list string) (n : nat) :
  forall stdin,
    List.length stdin <= n ->
    match ask_choice fs py_int candidates stdin with
    | Answer path rest =>
        (In path candidates \/ isfile fs path = true)
        /\ exists used, stdin = used ++ rest /\ used <> []
    | EOFError => True
    | ValueError =>
        exists line, In line stdin /\ isdigit (strip line) = true
                     /\ py_int (strip line) = None
    end.
Proof.
  induction n as [|n IH]; intros stdin Hn.
  - destruct stdin; [exact I | simpl in Hn; lia].
  - destruct stdin as [|line rest]; [exact I|]. simpl in Hn.
    assert (Hrest : match ask_choice fs py_int candidates rest with
                    | Answer path rest' =>
                        (In path candidates \/ isfile fs path = true)
                        /\ exists used, line :: rest = used ++ rest' /\ used <> []
                    | EOFError => True
                    | ValueError =>
                        exists l, In l (line :: rest) /\ isdigit (strip l) = true
                                  /\ py_int (strip l) = None
                    end).
    { specialize (IH rest ltac:(lia)).
      destruct (ask_choice fs py_int candidates rest) as [p r| |]; auto.
      - destruct IH as (Hp & used & -> & Hu). split; [exact Hp|].
        exists (line :: used); split; [reflexivity | discriminate].
      - destruct IH as (l & Hl & Hd & Hi). exists l; repeat split; auto.
        right; exact Hl. }
    cbn [ask_choice].
    destruct (isdigit (strip line)) eqn:Ed; [|exact Hrest].
    destruct (py_int (strip line)) as [k|] eqn:Ei.
    2:{ exists line; repeat split; auto. left; reflexivity. }
    destruct (Z.eqb k 0).
    + destruct rest as [|line2 rest2]; [exact I|].
      destruct (isfile fs (strip line2)) eqn:Ef.
      * split; [right; exact Ef|].
        exists [line; line2]; split; [reflexivity | discriminate].
      * simpl in Hn. specialize (IH rest2 ltac:(lia)).
        destruct (ask_choice fs py_int candidates rest2) as [p r| |]; auto.
        -- destruct IH as (Hp & used & -> & Hu). split; [exact Hp|].
           exists (line :: line2 :: used); split; [reflexivity | discriminate].
        -- destruct IH as (l & Hl & Hd & Hi). exists l; repeat split; auto.
           right; right; exact Hl.
    + destruct (Z.leb 1 k && Z.leb k (Z.of_nat (List.length candidates))) eqn:Er;
        [|exact Hrest].
      apply andb_true_iff in Er as [H1 H2].
      apply Z.leb_le in H1, H2.
      split.
      * left. apply nth_In. lia.
      * exists [line]; split; [reflexivity | discriminate].
Qed.

End Choice.

End DorkerFacts.

Section DorkerExtras.
Import PyStr Dorker.

(** X16.  [prompt_domain] returns the first line of standard input that,
    stripped, passes the test: it is not empty, contains a dot, does not
    begin with [http] and contains no slash; the lines before it all failed
    the test and the lines after it are left unread.  When no line passes,
    the function ends in [EOFError]. *)
Theorem prompt_domain_first_acceptable (stdin : list string) :
  match prompt_domain stdin with
  | Answer domain rest =>
      acceptable_domain domain = true
      /\ domain <> EmptyString
      /\ contains1 "."%char domain = true
      /\ prefix "http" domain = false
      /\ contains1 "/"%char domain = false
      /\ exists pre line,
          stdin = pre ++ line :: rest
          /\ domain = strip line
          /\ Forall (fun l => acceptable_domain (strip l) = false) pre
  | EOFError => Forall (fun l => acceptable_domain (strip l) = false) stdin
  | ValueError => False
  end.
Proof.
  induction stdin as [|line rest IH]; simpl; [constructor|].
  destruct (acceptable_domain (strip line)) eqn:E.
  - split; [exact E|].
    unfold acceptable_domain in E.
    apply andb_true_iff in E as [E Hs]. apply andb_true_iff in E as [E Hp].
    apply andb_true_iff in E as [He Hd].
    apply negb_true_iff in He, Hp, Hs.
    split; [apply is_empty_false; exact He|].
    repeat (split; [assumption|]).
    exists [], line. repeat split. constructor.
  - destruct (prompt_domain rest) as [d rest'| |].
    + destruct IH as (Ha & Hne & Hd & Hp & Hs & pre & l & -> & -> & Hpre).
      repeat (split; [assumption|]).
      exists (line :: pre), l. repeat split. constructor; assumption.
    + constructor; assumption.
    + exact IH.
Qed.

(** X17.  A path [prompt_dorks_file] returns is one of the candidates or
    names an existing file, and at least one line was read for it; with no
    candidate it always names an existing file.  The function leaves with
    [ValueError] only on a line that passes [isdigit] and that [int]
    refuses. *)
Theorem prompt_dorks_file_sound
        (fs : FileSystem) (py_int : string -> option Z)
        (candidates stdin : list string) :
  match prompt_dorks_file fs py_int candidates stdin with
  | Answer path rest =>
      (In path candidates \/ isfile fs path = true)
      /\ (candidates = [] -> isfile fs path = true)
      /\ exists used, stdin = used ++ rest /\ used <> []
  | EOFError => True
  | ValueError =>
      candidates <> []
      /\ exists line, In line stdin /\ isdigit (strip line) = true
                      /\ py_int (strip line) = None
  end.
Proof.
  unfold prompt_dorks_file. destruct candidates as [|c cs].
  - pose proof (ask_path_file fs stdin) as H.
    destruct (ask_path fs stdin) as [p r| |]; auto; try contradiction.
    destruct H as (Hf & pre & line & -> & -> & _).
    split; [right; exact Hf|]. split; [intros _; exact Hf|].
    exists (pre ++ [line]); split;
      [rewrite <- app_assoc; reflexivity | destruct pre; discriminate].
  - pose proof (ask_choice_sound fs py_int (c :: cs) (List.length stdin)
                                 stdin (le_n _)) as H.
    destruct (ask_choice fs py_int (c :: cs) stdin) as [p r| |]; auto.
    + destruct H as (Hp & Hu). split; [exact Hp|]. split; [discriminate | exact Hu].
    + split; [discriminate | exact H].
Qed.

Lemma prompt_dorks_file_sound_witness :
  isfile sample_fs "my.dorks" = true.
Proof.
  pose proof (prompt_dorks_file_sound sample_fs int_of_digits []
                ["nothing here"; "  my.dorks "; "unread"]%string) as H.
  vm_compute in H. destruct H as (_ & H & _). apply H. reflexivity.
Defined.

(** X18.  [discover_dork_files] gives nothing when the directory does not
    exist.  Otherwise it gives the joined paths of the entries that are
    regular files and whose name, in lower case, ends in [.dorks] or [.txt],
    in the order of their names, each entry once per occurrence in the
    listing. *)
Theorem discover_dork_files_sorted_and_filtered
        (fs : FileSystem) (path_join : string -> string -> string)
        (search_dir : string) :
  (isdir fs search_dir = false ->
   discover_dork_files fs path_join search_dir = [])
  /\ (isdir fs search_dir = true ->
      exists names,
        discover_dork_files fs path_join search_dir
        = map (path_join search_dir) names
        /\ StronglySorted (fun a b => String.leb a b = true) names
        /\ Permutation
             names
             (filter (fun name => isfile fs (path_join search_dir name)
                                  && is_dork_name name)
                     (listdir fs search_dir))).
Proof.
  unfold discover_dork_files. split; intros H; rewrite H; [reflexivity|].
  exists (filter (fun name => isfile fs (path_join search_dir name)
                              && is_dork_name name)
                 (sorted_names (listdir fs search_dir))).
  split; [apply flat_map_filter|]. split.
  - apply StronglySorted_filter, sorted_names_sorted.
  - apply Permutation_filter, sorted_names_perm.
Qed.

Lemma discover_dork_files_sorted_and_filtered_witness :
  exists names,
    discover_dork_files sample_fs join_slash "dorks"
    = map (join_slash "dorks") names
    /\ StronglySorted (fun a b => String.leb a b = true) names
    /\ Permutation
         names
         (filter (fun name => isfile sample_fs (join_slash "dorks" name)
                              && is_dork_name name)
                 (listdir sample_fs "dorks")).
Proof.
  apply (proj2 (discover_dork_files_sorted_and_filtered sample_fs join_slash "dorks")).
  reflexivity.
Defined.

End DorkerExtras.
